(** * vs/base/node/pfs.ts: file system helpers over the Node.js [fs] API

    The module is a layer of control flow over the primitives of Node's [fs]
    module.  The embedding keeps that split:

    - [Platform] holds the pure helpers and constants the module imports
      ([isWindows], [isMacintosh], [join], [tmpdir], [isRootOrDriveLetter],
      [normalizeNFC], the built-in [toLowerCase]);
    - [Sys] is the interface of the stateful primitives ([fs.lstat],
      [fs.rename], [fs.open], ...), each a function on an abstract world
      that answers with a result or an error;
    - [M] is the state and error monad in which the functions of pfs.ts are
      written: it threads the world, the module level variable [canFlush],
      the objects allocated by the code, the operations started but not
      awaited, and a trace of the primitive calls;
    - [Model] is one concrete world (a tree of files, directories and
      symbolic links with a write cache and a fault plan) used to evaluate
      the code on concrete inputs;
    - [WriteQueue] is the event level model of the per path write queues;
    - [WhenDeleted] is the event level model of the polling of [whenDeleted]. *)

From stdpp Require Import gmap strings list fin_maps pretty.
From Stdlib Require Import Ascii String ZArith Lia.

Local Open Scope Z_scope.
Local Open Scope string_scope.

(** ** Values exchanged with Node.js *)

(** A JavaScript error: system errors carry a [code] such as ["ENOENT"],
    errors made with [new Error(message)] carry none. *)
Record Error := { code : option string; message : string }.

Definition SysError (c : string) : Error := {| code := Some c; message := "" |}.
Definition JsError (m : string) : Error := {| code := None; message := m |}.

(** [error.code === c] *)
Definition has_code (e : Error) (c : string) : bool :=
  match code e with
  | Some c' => String.eqb c' c
  | None => false
  end.

Inductive Res (A : Type) : Type :=
| Ok (a : A)
| Err (e : Error).
Arguments Ok {A} a.
Arguments Err {A} e.

Inductive FileKind := KFile | KDirectory | KSymbolicLink | KOther.

(** The part of [fs.Stats] the module reads. *)
Record Stats := { kind : FileKind; mode : Z; atime : Z; mtime : Z }.

Definition isFile (s : Stats) : bool :=
  match kind s with KFile => true | _ => false end.
Definition isDirectory (s : Stats) : bool :=
  match kind s with KDirectory => true | _ => false end.
Definition isSymbolicLink (s : Stats) : bool :=
  match kind s with KSymbolicLink => true | _ => false end.

(** [fs.Dirent], as returned by [readdir] with [withFileTypes]. *)
Record Dirent := { name : string; dirent_kind : FileKind }.

(** ** The primitive calls and their trace *)

Inductive Op :=
| OpLstat (path : string)
| OpStat (path : string)
| OpReadlink (path : string)
| OpReaddir (path : string)
| OpReaddirTypes (path : string)
| OpRename (source target : string)
| OpRmdir (path : string)
| OpMkdir (path : string) (mode : Z)
| OpOpen (path flag : string) (mode : Z)
| OpWriteFd (fd : nat) (data : string)
| OpWritePath (path data : string) (mode : Z) (flag : string)
| OpFdatasync (fd : nat)
| OpClose (fd : nat)
| OpFutimes (fd : nat) (atime mtime : Z)
| OpChmod (path : string) (mode : Z)
| OpPipe (source target : string) (mode : Z)
| OpNow
| OpUuid (value : string)
| OpWarn
| OpDetachRmdir (path : string).

(** One entry of the trace: the call and the error it failed with, if any. *)
Record Event := { op : Op; failure : option Error }.

Definition failure_of {A} (r : Res A) : option Error :=
  match r with Ok _ => None | Err e => Some e end.

(** ** Platform: the imported pure helpers *)

Class Platform := {
  isWindows : bool;
  isMacintosh : bool;
  join : string → string → string;           (* vs/base/common/path *)
  tmpdir : string;                           (* os.tmpdir() *)
  isRootOrDriveLetter : string → bool;       (* vs/base/common/extpath *)
  normalizeNFC : string → string;            (* vs/base/common/normalization *)
  toLowerCase : string → string              (* String.prototype.toLowerCase *)
}.

(** ** Sys: the stateful primitives of Node.js *)

Class Sys (W : Type) := {
  fs_lstat : string → W → Res Stats * W;
  fs_stat : string → W → Res Stats * W;
  fs_readlink : string → W → Res string * W;
  fs_readdir : string → W → Res (list string) * W;
  fs_readdirWithFileTypes : string → W → Res (list Dirent) * W;
  fs_rename : string → string → W → Res unit * W;
  (* rmdir with { recursive: true } *)
  fs_rmdir : string → W → Res unit * W;
  (* mkdir with { recursive: true, mode } *)
  fs_mkdir : string → Z → W → Res unit * W;
  fs_open : string → string → Z → W → Res nat * W;
  (* writeFile on an open descriptor *)
  fs_writeFile_fd : nat → string → W → Res unit * W;
  (* writeFile on a path with { mode, flag } *)
  fs_writeFile_path : string → string → Z → string → W → Res unit * W;
  fs_fdatasync : nat → W → Res unit * W;
  fs_close : nat → W → Res unit * W;
  fs_futimes : nat → Z → Z → W → Res unit * W;
  fs_chmod : string → Z → W → Res unit * W;
  (* createReadStream(source).pipe(createWriteStream(target, { mode })),
     up to the close of the writer or the first error of either stream *)
  fs_pipe : string → string → Z → W → Res unit * W;
  date_now : W → Z * W;
  generateUuid : W → string * W
}.

(** ** The monad of pfs.ts *)

Section Monad.
Context {W : Type}.

(** [handled] is the store of the [handledSources] objects of [copy]: they
    are allocated once and shared by reference through the recursion.
    [detached] lists the recursive deletions that were started and not
    awaited. *)
Record State := {
  world : W;
  canFlush : bool;
  handled : gmap nat (gmap string bool);
  detached : list string;
  trace : list Event
}.

Definition initial (w : W) : State :=
  {| world := w; canFlush := true; handled := ∅; detached := []; trace := [] |}.

(** [None] is the only way not to return: the recursion of [copy] ran out
    of fuel. *)
Definition M (A : Type) : Type := State → option (Res A * State).

Definition ret {A} (a : A) : M A := λ st, Some (Ok a, st).
Definition throw {A} (e : Error) : M A := λ st, Some (Err e, st).
Definition out_of_fuel {A} : M A := λ _, None.

Definition bind {A B} (m : M A) (k : A → M B) : M B :=
  λ st, match m st with
        | Some (Ok a, st') => k a st'
        | Some (Err e, st') => Some (Err e, st')
        | None => None
        end.

(** [try { m } catch (error) { h error }] *)
Definition try_catch {A} (m : M A) (h : Error → M A) : M A :=
  λ st, match m st with
        | Some (Ok a, st') => Some (Ok a, st')
        | Some (Err e, st') => h e st'
        | None => None
        end.

(** [try { m } finally { f }]: an error of [f] replaces the outcome of [m]. *)
Definition try_finally {A} (m : M A) (f : M unit) : M A :=
  λ st, match m st with
        | Some (r, st') =>
            match f st' with
            | Some (Ok _, st'') => Some (r, st'')
            | Some (Err e, st'') => Some (Err e, st'')
            | None => None
            end
        | None => None
        end.

(** The outcome of [m] as a value, the way a Node.js callback receives it. *)
Definition attempt {A} (m : M A) : M (Res A) :=
  λ st, match m st with
        | Some (r, st') => Some (Ok r, st')
        | None => None
        end.

Definition log (o : Op) (f : option Error) (st : State) : State :=
  {| world := world st; canFlush := canFlush st; handled := handled st;
     detached := detached st; trace := trace st ++ [{| op := o; failure := f |}] |}.

Definition set_world (w : W) (st : State) : State :=
  {| world := w; canFlush := canFlush st; handled := handled st;
     detached := detached st; trace := trace st |}.

(** A primitive call: run it on the world and record it. *)
Definition call {A} (o : Op) (f : W → Res A * W) : M A :=
  λ st, let '(r, w) := f (world st) in
        Some (r, log o (failure_of r) (set_world w st)).

Definition get_canFlush : M bool := λ st, Some (Ok (canFlush st), st).

Definition set_canFlush (b : bool) : M unit :=
  λ st, Some (Ok tt, {| world := world st; canFlush := b; handled := handled st;
                        detached := detached st; trace := trace st |}).

Definition console_warn : M unit := λ st, Some (Ok tt, log OpWarn None st).

(** [Object.create(null)]: a fresh object, named by the first free index. *)
Definition fresh_ref (h : gmap nat (gmap string bool)) : nat :=
  S (max_list (elements (dom h))).

Definition new_object : M nat :=
  λ st, let r := fresh_ref (handled st) in
        Some (Ok r, {| world := world st; canFlush := canFlush st;
                       handled := <[r := ∅]> (handled st);
                       detached := detached st; trace := trace st |}).

Definition object_of (st : State) (r : nat) : gmap string bool :=
  default ∅ (handled st !! r).

(** [obj[key]] read as a condition: a missing key is falsy. *)
Definition get_field (r : nat) (key : string) : M bool :=
  λ st, Some (Ok (default false (object_of st r !! key)), st).

(** [obj[key] = true] *)
Definition set_field (r : nat) (key : string) : M unit :=
  λ st, Some (Ok tt, {| world := world st; canFlush := canFlush st;
                        handled := <[r := <[key := true]> (object_of st r)]> (handled st);
                        detached := detached st; trace := trace st |}).

(** A recursive deletion started and left running. *)
Definition detach_rmdir (path : string) : M unit :=
  λ st, Some (Ok tt, log (OpDetachRmdir path) None
                       {| world := world st; canFlush := canFlush st;
                          handled := handled st;
                          detached := detached st ++ [path]; trace := trace st |}).

Fixpoint for_each {A} (l : list A) (body : A → M unit) : M unit :=
  match l with
  | [] => ret tt
  | x :: rest => bind (body x) (λ _, for_each rest body)
  end.

End Monad.

Arguments State W : clear implicits.
Arguments M W A : clear implicits.

Declare Scope pfs_scope.
Delimit Scope pfs_scope with pfs.
Notation "'let*' x ':=' m 'in' k" := (bind m (λ x, k))
  (at level 10, x pattern, m at level 100, k at level 200) : pfs_scope.

(** ** The functions of pfs.ts *)

Inductive RimRafMode := UNLINK | MOVE.

Record IWriteFileOptions := { opt_mode : option Z; opt_flag : option string }.
Record IEnsuredWriteFileOptions := { ens_mode : Z; ens_flag : string }.

(** [SymlinkSupport.IStats]; [symbolicLink] is the optional field, which
    holds the [dangling] flag when present. *)
Record IStats := { stat : Stats; symbolicLink : option bool }.

(** [s.endsWith(suffix)] *)
Definition endsWith (s suffix : string) : bool :=
  let l := String.length s in
  let k := String.length suffix in
  (k <=? l)%nat && String.eqb (String.substring (l - k) k s) suffix.

Section Pfs.
Context `{P : Platform} {W : Type} `{S : Sys W}.
Local Open Scope pfs_scope.

Local Abbreviation M := (M W).

Definition new_uuid : M string :=
  λ st, let '(u, w) := generateUuid (world st) in
        Some (Ok u, log (OpUuid u) None (set_world w st)).

Definition new_Date : M Z :=
  λ st, let '(t, w) := date_now (world st) in
        Some (Ok t, log OpNow None (set_world w st)).

(** *** rimraf *)

Definition rimrafUnlink (path : string) : M unit :=
  call (OpRmdir path) (fs_rmdir path).

(** The value of the outer [try] block says how the function goes on:
    [Some p] stands for [return rimrafUnlink(p)], a promise returned
    without [await], whose rejection the enclosing [catch] does not see;
    [None] for reaching the end of the function. *)
Definition rimrafMove (path : string) : M unit :=
  let* tail :=
    try_catch
      (let* uuid := new_uuid in
       let pathInTemp := join tmpdir uuid in
       let* renamed := attempt (call (OpRename path pathInTemp) (fs_rename path pathInTemp)) in
       match renamed with
       | Err _ => ret (Some path)
       | Ok _ =>
           let* _ := detach_rmdir pathInTemp in
           ret None
       end)
      (λ error, if negb (has_code error "ENOENT") then throw error else ret None) in
  match tail with
  | Some p => rimrafUnlink p
  | None => ret tt
  end.

Definition refuse_root : Error :=
  JsError "rimraf - will refuse to recursively delete root".

Definition rimraf (path : string) (mode : RimRafMode) : M unit :=
  if isRootOrDriveLetter path then throw refuse_root
  else match mode with
       | UNLINK => rimrafUnlink path
       | MOVE => rimrafMove path
       end.

Definition rimrafSync (path : string) : M unit :=
  if isRootOrDriveLetter path then throw refuse_root
  else call (OpRmdir path) (fs_rmdir path).

(** One of the deletions left running by [rimrafMove] settles; its
    error, if any, goes to the empty [catch] handler. *)
Definition settle_detached : M unit :=
  λ st, match detached st with
        | [] => Some (Ok tt, st)
        | p :: rest =>
            try_catch (rimrafUnlink p) (λ _, ret tt)
              {| world := world st; canFlush := canFlush st; handled := handled st;
                 detached := rest; trace := trace st |}
        end.

(** *** readdir with NFC support *)

Definition handleDirectoryChildren (children : list string) : list string :=
  if isMacintosh then map normalizeNFC children else children.

Definition readdir (path : string) : M (list string) :=
  let* children := call (OpReaddir path) (fs_readdir path) in
  ret (handleDirectoryChildren children).

Definition readdirSync (path : string) : M (list string) :=
  let* children := call (OpReaddir path) (fs_readdir path) in
  ret (handleDirectoryChildren children).

Definition readdirWithFileTypes (path : string) : M (list Dirent) :=
  let* children := call (OpReaddirTypes path) (fs_readdirWithFileTypes path) in
  if isMacintosh
  then ret (map (λ child, {| name := normalizeNFC (name child);
                             dirent_kind := dirent_kind child |}) children)
  else ret children.

(** *** Methods with symbolic links support *)

(** The first [try] block either returns from the function ([inl]) or
    leaves [lstats] assigned or undefined ([inr]). *)
Definition SymlinkSupport_stat (path : string) : M IStats :=
  let* first :=
    try_catch
      (let* lstats := call (OpLstat path) (fs_lstat path) in
       if negb (isSymbolicLink lstats)
       then ret (inl {| stat := lstats; symbolicLink := None |})
       else ret (inr (Some lstats)))
      (λ _, ret (inr None)) in
  match first with
  | inl result => ret result
  | inr lstats =>
      try_catch
        (let* stats := call (OpStat path) (fs_stat path) in
         ret {| stat := stats;
                symbolicLink :=
                  if from_option isSymbolicLink false lstats then Some false else None |})
        (λ error,
           match lstats with
           | Some l =>
               if has_code error "ENOENT"
               then ret {| stat := l; symbolicLink := Some true |}
               else if isWindows && has_code error "EACCES"
               then
                 try_catch
                   (let* link := call (OpReadlink path) (fs_readlink path) in
                    let* stats := call (OpStat link) (fs_stat link) in
                    ret {| stat := stats;
                           symbolicLink := if isSymbolicLink l then Some false else None |})
                   (λ error',
                      if has_code error' "ENOENT"
                      then ret {| stat := l; symbolicLink := Some true |}
                      else throw error')
               else throw error
           | None => throw error
           end)
  end.

(** [symbolicLink?.dangling !== true] *)
Definition not_dangling (s : IStats) : bool :=
  match symbolicLink s with
  | Some true => false
  | _ => true
  end.

Definition SymlinkSupport_fileExists (path : string) : M bool :=
  try_catch
    (let* s := SymlinkSupport_stat path in
     ret (isFile (stat s) && not_dangling s))
    (λ _, ret false).

Definition SymlinkSupport_dirExists (path : string) : M bool :=
  try_catch
    (let* s := SymlinkSupport_stat path in
     ret (isDirectory (stat s) && not_dangling s))
    (λ _, ret false).

Fixpoint readDirsInDir_loop (dirPath : string) (children : list string) : M (list string) :=
  match children with
  | [] => ret []
  | child :: rest =>
      let* isDir := SymlinkSupport_dirExists (join dirPath child) in
      let* directories := readDirsInDir_loop dirPath rest in
      ret (if isDir then child :: directories else directories)
  end.

Definition readDirsInDir (dirPath : string) : M (list string) :=
  let* children := readdir dirPath in
  readDirsInDir_loop dirPath children.

(** *** Write File *)

Definition ensureWriteOptions (options : option IWriteFileOptions)
  : IEnsuredWriteFileOptions :=
  match options with
  | None => {| ens_mode := 438 (* 0o666 *); ens_flag := "w" |}
  | Some o => {| ens_mode := default 438 (* 0o666 *) (opt_mode o);
                 ens_flag := default "w" (opt_flag o) |}
  end.

(** The callback of the source receives the error or null: here the
    function throws the error or returns. *)
Definition doWriteFileAndFlush (path data : string) (options : IEnsuredWriteFileOptions)
  : M unit :=
  let* flush := get_canFlush in
  if negb flush
  then call (OpWritePath path data (ens_mode options) (ens_flag options))
            (fs_writeFile_path path data (ens_mode options) (ens_flag options))
  else
    let* opened := attempt (call (OpOpen path (ens_flag options) (ens_mode options))
                                 (fs_open path (ens_flag options) (ens_mode options))) in
    match opened with
    | Err openError => throw openError
    | Ok fd =>
        let* written := attempt (call (OpWriteFd fd data) (fs_writeFile_fd fd data)) in
        match written with
        | Err writeError =>
            let* _ := attempt (call (OpClose fd) (fs_close fd)) in
            throw writeError
        | Ok _ =>
            let* synced := attempt (call (OpFdatasync fd) (fs_fdatasync fd)) in
            let* _ := match synced with
                      | Err _ => let* _ := console_warn in set_canFlush false
                      | Ok _ => ret tt
                      end in
            call (OpClose fd) (fs_close fd)
        end
    end.

(** The task that [writeFile] hands to the queue of the path.  It runs
    when the queue starts it, which is at the call when no write to the path
    is running and after the writes before it otherwise: the state it runs in,
    [canFlush] included, is the state at that moment, not the state at the
    call.  The queues are the subject of [WriteQueue]. *)
Definition writeFile (path data : string) (options : option IWriteFileOptions) : M unit :=
  let ensuredOptions := ensureWriteOptions options in
  doWriteFileAndFlush path data ensuredOptions.

Definition writeFileSync (path data : string) (options : option IWriteFileOptions) : M unit :=
  let ensuredOptions := ensureWriteOptions options in
  let* flush := get_canFlush in
  if negb flush
  then call (OpWritePath path data (ens_mode ensuredOptions) (ens_flag ensuredOptions))
            (fs_writeFile_path path data (ens_mode ensuredOptions) (ens_flag ensuredOptions))
  else
    let* fd := call (OpOpen path (ens_flag ensuredOptions) (ens_mode ensuredOptions))
                    (fs_open path (ens_flag ensuredOptions) (ens_mode ensuredOptions)) in
    try_finally
      (let* _ := call (OpWriteFd fd data) (fs_writeFile_fd fd data) in
       try_catch
         (call (OpFdatasync fd) (fs_fdatasync fd))
         (λ _, let* _ := console_warn in set_canFlush false))
      (call (OpClose fd) (fs_close fd)).

(** *** Move / Copy *)

Definition COPY_MODE_MASK : Z := 511 (* 0o777 *).

Definition doCopyFile (source target : string) (mode : Z) : M unit :=
  let* _ := call (OpPipe source target mode) (fs_pipe source target mode) in
  call (OpChmod target mode) (fs_chmod target mode).

Fixpoint copy (fuel : nat) (source target : string) (handledSourcesIn : option nat)
  : M unit :=
  match fuel with
  | O => out_of_fuel
  | Datatypes.S fuel' =>
      let* handledSources :=
        match handledSourcesIn with
        | Some r => ret r
        | None => new_object
        end in
      let* seen := get_field handledSources source in
      if seen then ret tt
      else
        let* _ := set_field handledSources source in
        let* s := SymlinkSupport_stat source in
        if from_option id false (symbolicLink s) then ret tt
        else if negb (isDirectory (stat s))
        then doCopyFile source target (Z.land (mode (stat s)) COPY_MODE_MASK)
        else
          let* _ := call (OpMkdir target (Z.land (mode (stat s)) COPY_MODE_MASK))
                         (fs_mkdir target (Z.land (mode (stat s)) COPY_MODE_MASK)) in
          let* files := readdir source in
          for_each files
            (λ file, copy fuel' (join source file) (join target file) (Some handledSources))
  end.

Definition updateMtime (path : string) : M unit :=
  try_catch
    (let* s := call (OpLstat path) (fs_lstat path) in
     if isDirectory s || isSymbolicLink s then ret tt
     else
       let* fh := call (OpOpen path "a" 438 (* 0o666 *)) (fs_open path "a" 438 (* 0o666 *)) in
       try_finally
         (let* now := new_Date in
          call (OpFutimes fh (atime s) now) (fs_futimes fh (atime s) now))
         (call (OpClose fh) (fs_close fh)))
    (λ _, ret tt).

(** [fuel] bounds the recursion of the [copy] of the fallback. *)
Definition move (fuel : nat) (source target : string) : M unit :=
  if String.eqb source target then ret tt
  else
    try_catch
      (let* _ := call (OpRename source target) (fs_rename source target) in
       updateMtime target)
      (λ error,
         if negb (String.eqb (toLowerCase source) (toLowerCase target))
            && has_code error "EXDEV"
            || endsWith source "."
         then
           let* _ := copy fuel source target None in
           let* _ := rimraf source MOVE in
           updateMtime target
         else throw error).

(** *** Vocabulary of the properties *)

(** The state after a primitive call that left the world [w]. *)
Definition after (o : Op) (f : option Error) (w : W) (st : State W) : State W :=
  log o f (set_world w st).

(** A name is in NFC form when normalizing leaves it as it is. *)
Definition isNFC (s : string) : Prop := normalizeNFC s = s.

(** The condition of the fallback of [move]. *)
Definition move_falls_back (source target : string) (error : Error) : bool :=
  negb (String.eqb (toLowerCase source) (toLowerCase target))
  && has_code error "EXDEV"
  || endsWith source ".".

(** An entry of the trace for a call that did not fail. *)
Definition passed (o : Op) : Event := {| op := o; failure := None |}.

(** The calls of a write that goes through a descriptor, with [sync]
    the outcome of [fdatasync]. *)
Definition flushed_write (path data : string) (o : IEnsuredWriteFileOptions)
    (fd : nat) (sync : option Error) : list Event :=
  ([passed (OpOpen path (ens_flag o) (ens_mode o));
    passed (OpWriteFd fd data);
    {| op := OpFdatasync fd; failure := sync |}]
   ++ match sync with Some _ => [passed OpWarn] | None => [] end
   ++ [passed (OpClose fd)])%list.

End Pfs.

(** ** Model: a concrete world

    A finite tree of files, directories and symbolic links.  A file has the
    data that readers see and the data that has reached stable storage; the
    two differ until [fdatasync].  Every fallible primitive first consumes
    one entry of the fault [plan]: [Some f] makes the call fail with the error
    of [f] (a write fails after [f_progress] characters), [None] and the empty
    plan let it run.  Symbolic links hold the resolved path of their target,
    and a link whose target is again a link is answered with ELOOP;
    [link_max] is the number of links one path resolution may traverse
    (SYMLOOP_MAX).  An entry that a call makes gets the mode of the call
    without the bits of [umask]; [chmod] sets the mode as given.  Paths
    have no limit of length here: [path_max_sys] adds one to a system.
    There is one device: EXDEV comes from the fault plan only. *)

Module Model.

Definition Path := list string.

#[local] Unset Elimination Schemes.
Inductive Node :=
| NFile (data durable : string) (mode atime mtime : Z)
| NDir (mode : Z) (entries : list (string * Node))
| NLink (target : Path).
#[local] Set Elimination Schemes.

Section Alist.
Context {V : Type}.

Fixpoint alist_lookup (k : string) (l : list (string * V)) : option V :=
  match l with
  | [] => None
  | (k', v) :: rest => if String.eqb k' k then Some v else alist_lookup k rest
  end.

(** Replaces the entry in place, or adds it at the end. *)
Fixpoint alist_insert (k : string) (v : V) (l : list (string * V)) : list (string * V) :=
  match l with
  | [] => [(k, v)]
  | (k', v') :: rest =>
      if String.eqb k' k then (k, v) :: rest else (k', v') :: alist_insert k v rest
  end.

Fixpoint alist_delete (k : string) (l : list (string * V)) : list (string * V) :=
  match l with
  | [] => []
  | (k', v') :: rest =>
      if String.eqb k' k then rest else (k', v') :: alist_delete k rest
  end.
End Alist.

Fixpoint find (n : Node) (p : Path) : option Node :=
  match p with
  | [] => Some n
  | c :: rest =>
      match n with
      | NDir _ entries =>
          match alist_lookup c entries with
          | Some child => find child rest
          | None => None
          end
      | _ => None
      end
  end.

(** Sets ([Some]) or removes ([None]) the entry at [p], when the directory
    that holds it exists; the root itself is never replaced. *)
Fixpoint put (n : Node) (p : Path) (v : option Node) : Node :=
  match p, n with
  | [], _ => n
  | [c], NDir m entries =>
      NDir m (match v with
              | Some x => alist_insert c x entries
              | None => alist_delete c entries
              end)
  | c :: rest, NDir m entries =>
      match alist_lookup c entries with
      | Some child => NDir m (alist_insert c (put child rest v) entries)
      | None => n
      end
  | _ :: _, _ => n
  end.

Record Fault := { f_error : Error; f_progress : nat }.

Record OpenMode := {
  o_write : bool; o_create : bool; o_excl : bool; o_trunc : bool; o_append : bool
}.

Record OpenFile := { of_key : Path; of_mode : OpenMode; of_pos : nat }.

Record World := {
  root : Node;
  open_files : gmap nat OpenFile;
  next_fd : nat;
  plan : list (option Fault);
  clock : Z;
  uuid_counter : nat;
  link_max : nat;
  umask : Z
}.

Definition with_root (r : Node) (w : World) : World :=
  {| root := r; open_files := open_files w; next_fd := next_fd w; plan := plan w;
     clock := clock w; uuid_counter := uuid_counter w; link_max := link_max w;
     umask := umask w |}.

Definition with_open_files (o : gmap nat OpenFile) (n : nat) (w : World) : World :=
  {| root := root w; open_files := o; next_fd := n; plan := plan w;
     clock := clock w; uuid_counter := uuid_counter w; link_max := link_max w;
     umask := umask w |}.

(** Takes the next entry of the fault plan. *)
Definition next_fault (w : World) : option Fault * World :=
  match plan w with
  | [] => (None, w)
  | f :: rest =>
      (f, {| root := root w; open_files := open_files w; next_fd := next_fd w;
             plan := rest; clock := clock w; uuid_counter := uuid_counter w;
             link_max := link_max w; umask := umask w |})
  end.

(** A fallible primitive: the planned fault, or the primitive itself. *)
Definition faulty {A} (f : World → Res A * World) (w : World) : Res A * World :=
  match next_fault w with
  | (Some x, w') => (Err (f_error x), w')
  | (None, w') => f w'
  end.

(** *** Paths *)

(** The components of a path string: the text between slashes. *)
Fixpoint components_go (cur : string) (s : string) : list string :=
  match s with
  | EmptyString => if String.eqb cur "" then [] else [cur]
  | String c rest =>
      if Ascii.eqb c "/"%char
      then ((if String.eqb cur "" then [] else [cur]) ++ components_go "" rest)%list
      else components_go (cur ++ String c "") rest
  end.

Definition components (s : string) : Path := components_go "" s.

Definition path_string (p : Path) : string :=
  match p with
  | [] => "/"
  | _ => foldr (λ c acc, "/" ++ c ++ acc) "" p
  end.

Definition within_limit (lim : nat) (used : nat) : bool := (used <? lim)%nat.

(** Resolves [comps] below the directory [cur], following the symbolic
    links on the way; the last component is followed only with
    [follow_last].  The answer is the path of the entry, which need not
    exist when it is the last component. *)
Fixpoint walk (r : Node) (lim : nat) (follow_last : bool)
    (cur : Path) (comps : list string) (used : nat) : Res Path :=
  match comps with
  | [] => Ok cur
  | c :: rest =>
      match find r cur with
      | Some (NDir _ _) =>
          match find r (cur ++ [c])%list with
          | Some (NLink t) =>
              if match rest with [] => negb follow_last | _ => false end
              then Ok (cur ++ [c])%list
              else if within_limit lim used
                   then walk r lim follow_last t rest (Datatypes.S used)
                   else Err (SysError "ELOOP")
          | Some _ => walk r lim follow_last (cur ++ [c])%list rest used
          | None =>
              match rest with
              | [] => Ok (cur ++ [c])%list
              | _ => Err (SysError "ENOENT")
              end
          end
      | Some _ => Err (SysError "ENOTDIR")
      | None => Err (SysError "ENOENT")
      end
  end.

Definition resolve (w : World) (follow_last : bool) (path : string) : Res Path :=
  walk (root w) (link_max w) follow_last [] (components path) 0.

Definition stats_of (n : Node) : Stats :=
  match n with
  | NFile _ _ m a t => {| kind := KFile; mode := m; atime := a; mtime := t |}
  | NDir m _ => {| kind := KDirectory; mode := m; atime := 0; mtime := 0 |}
  | NLink _ => {| kind := KSymbolicLink; mode := 511; atime := 0; mtime := 0 |}
  end.

(** *** The primitives *)

Definition ENOENT := SysError "ENOENT".
Definition ENOTDIR := SysError "ENOTDIR".
Definition EISDIR := SysError "EISDIR".
Definition EEXIST := SysError "EEXIST".
Definition EINVAL := SysError "EINVAL".
Definition EBADF := SysError "EBADF".
Definition EBUSY := SysError "EBUSY".
Definition ELOOP := SysError "ELOOP".
Definition ENOTEMPTY := SysError "ENOTEMPTY".

Definition m_lstat (path : string) : World → Res Stats * World :=
  faulty (λ w,
    match resolve w false path with
    | Err e => (Err e, w)
    | Ok k =>
        match find (root w) k with
        | Some n => (Ok (stats_of n), w)
        | None => (Err ENOENT, w)
        end
    end).

Definition m_stat (path : string) : World → Res Stats * World :=
  faulty (λ w,
    match resolve w true path with
    | Err e => (Err e, w)
    | Ok k =>
        match find (root w) k with
        | Some (NLink _) => (Err ELOOP, w)
        | Some n => (Ok (stats_of n), w)
        | None => (Err ENOENT, w)
        end
    end).

Definition m_readlink (path : string) : World → Res string * World :=
  faulty (λ w,
    match resolve w false path with
    | Err e => (Err e, w)
    | Ok k =>
        match find (root w) k with
        | Some (NLink t) => (Ok (path_string t), w)
        | Some _ => (Err EINVAL, w)
        | None => (Err ENOENT, w)
        end
    end).

Definition m_readdir (path : string) : World → Res (list string) * World :=
  faulty (λ w,
    match resolve w true path with
    | Err e => (Err e, w)
    | Ok k =>
        match find (root w) k with
        | Some (NDir _ entries) => (Ok (map fst entries), w)
        | Some (NLink _) => (Err ELOOP, w)
        | Some _ => (Err ENOTDIR, w)
        | None => (Err ENOENT, w)
        end
    end).

Definition m_readdirWithFileTypes (path : string) : World → Res (list Dirent) * World :=
  faulty (λ w,
    match resolve w true path with
    | Err e => (Err e, w)
    | Ok k =>
        match find (root w) k with
        | Some (NDir _ entries) =>
            (Ok (map (λ e, {| name := fst e; dirent_kind := kind (stats_of (snd e)) |})
                     entries), w)
        | Some (NLink _) => (Err ELOOP, w)
        | Some _ => (Err ENOTDIR, w)
        | None => (Err ENOENT, w)
        end
    end).

Definition is_dir (n : Node) : bool :=
  match n with NDir _ _ => true | _ => false end.

Definition m_rename (source target : string) : World → Res unit * World :=
  faulty (λ w,
    match resolve w false source, resolve w false target with
    | Err e, _ => (Err e, w)
    | _, Err e => (Err e, w)
    | Ok ks, Ok kt =>
        match find (root w) ks with
        | None => (Err ENOENT, w)
        | Some n =>
            if bool_decide (ks = []) then (Err EBUSY, w)
            else if bool_decide (ks = kt) then (Ok tt, w)
            else if bool_decide (ks `prefix_of` kt) then (Err EINVAL, w)
            else
              match find (root w) kt with
              | Some (NDir _ (_ :: _)) => (Err ENOTEMPTY, w)
              | Some (NDir _ []) =>
                  if is_dir n
                  then (Ok tt, with_root (put (put (root w) ks None) kt (Some n)) w)
                  else (Err EISDIR, w)
              | Some _ =>
                  if is_dir n then (Err ENOTDIR, w)
                  else (Ok tt, with_root (put (put (root w) ks None) kt (Some n)) w)
              | None => (Ok tt, with_root (put (put (root w) ks None) kt (Some n)) w)
              end
        end
    end).

(** [rmdir] with [recursive: true]: removes the entry with all below it;
    a path that does not exist is not an error in this mode. *)
Definition m_rmdir (path : string) : World → Res unit * World :=
  faulty (λ w,
    match resolve w false path with
    | Err e => (Err e, w)
    | Ok k =>
        if bool_decide (k = []) then (Err EBUSY, w)
        else (Ok tt, with_root (put (root w) k None) w)
    end).

Fixpoint mkdir_walk (r : Node) (lim : nat) (mode : Z)
    (cur : Path) (comps : list string) (used : nat) : Res Node :=
  match comps with
  | [] => Ok r
  | c :: rest =>
      match find r cur with
      | Some (NDir _ _) =>
          match find r (cur ++ [c])%list with
          | None =>
              mkdir_walk (put r (cur ++ [c])%list (Some (NDir mode []))) lim mode
                         (cur ++ [c])%list rest used
          | Some (NDir _ _) => mkdir_walk r lim mode (cur ++ [c])%list rest used
          | Some (NLink t) =>
              if within_limit lim used
              then mkdir_walk r lim mode t rest (Datatypes.S used)
              else Err ELOOP
          | Some _ => Err EEXIST
          end
      | Some _ => Err ENOTDIR
      | None => Err ENOENT
      end
  end.

(** The mode of an entry made by a call that asks for [mode]. *)
Definition created_mode (w : World) (mode : Z) : Z := Z.land mode (Z.lnot (umask w)).

(** [mkdir] with [recursive: true]. *)
Definition m_mkdir (path : string) (mode : Z) : World → Res unit * World :=
  faulty (λ w,
    match mkdir_walk (root w) (link_max w) (created_mode w mode) []
            (components path) 0 with
    | Ok r => (Ok tt, with_root r w)
    | Err e => (Err e, w)
    end).

(** The file system flags of Node.js. *)
Definition parse_flag (flag : string) : option OpenMode :=
  let mk w c x t a :=
    Some {| o_write := w; o_create := c; o_excl := x; o_trunc := t; o_append := a |} in
  if String.eqb flag "r" then mk false false false false false
  else if String.eqb flag "r+" || String.eqb flag "rs+" then mk true false false false false
  else if String.eqb flag "w" || String.eqb flag "w+" then mk true true false true false
  else if String.eqb flag "wx" || String.eqb flag "wx+" then mk true true true true false
  else if String.eqb flag "a" || String.eqb flag "a+"
          || String.eqb flag "as" || String.eqb flag "as+" then mk true true false false true
  else if String.eqb flag "ax" || String.eqb flag "ax+" then mk true true true false true
  else None.

Definition alloc_fd (k : Path) (om : OpenMode) (r : Node) (w : World) : Res nat * World :=
  (Ok (next_fd w),
   with_open_files
     (<[next_fd w := {| of_key := k; of_mode := om; of_pos := 0 |}]> (open_files w))
     (Datatypes.S (next_fd w)) (with_root r w)).

Definition m_open (path flag : string) (mode : Z) : World → Res nat * World :=
  faulty (λ w,
    match parse_flag flag with
    | None => (Err EINVAL, w)
    | Some om =>
        match resolve w true path with
        | Err e => (Err e, w)
        | Ok k =>
            match find (root w) k with
            | Some (NFile d dur m a t) =>
                if o_excl om then (Err EEXIST, w)
                else if o_trunc om
                     then alloc_fd k om (put (root w) k (Some (NFile "" dur m a t))) w
                     else alloc_fd k om (root w) w
            | Some (NDir _ _) => (Err EISDIR, w)
            | Some (NLink _) => (Err ELOOP, w)
            | None =>
                if o_create om
                then
                  let made := NFile "" "" (created_mode w mode) (clock w) (clock w) in
                  let r := put (root w) k (Some made) in
                  match find r k with
                  | Some _ => alloc_fd k om r w
                  | None => (Err ENOENT, w)
                  end
                else (Err ENOENT, w)
            end
        end
    end).

(** [chunk] written over [d] from position [pos] on. *)
Definition overwrite (d : string) (pos : nat) (chunk : string) : string :=
  String.substring 0 pos d ++ chunk
  ++ String.substring (pos + String.length chunk)
                      (String.length d - (pos + String.length chunk)) d.

(** Writes [data] through the descriptor.  A planned fault stops the write
    after [f_progress] characters, which stay in the file. *)
Definition m_writeFile_fd (fd : nat) (data : string) (w0 : World) : Res unit * World :=
  let '(fault, w) := next_fault w0 in
  match open_files w !! fd with
  | None => (Err EBADF, w)
  | Some o =>
      if negb (o_write (of_mode o)) then (Err EBADF, w)
      else
        match find (root w) (of_key o) with
        | Some (NFile d dur m a t) =>
            let chunk := match fault with
                         | Some f => String.substring 0 (f_progress f) data
                         | None => data
                         end in
            let d' := if o_append (of_mode o) then d ++ chunk
                      else overwrite d (of_pos o) chunk in
            let o' := {| of_key := of_key o; of_mode := of_mode o;
                         of_pos := of_pos o + String.length chunk |} in
            (match fault with Some f => Err (f_error f) | None => Ok tt end,
             with_open_files (<[fd := o']> (open_files w)) (next_fd w)
               (with_root (put (root w) (of_key o) (Some (NFile d' dur m a t))) w))
        | _ => (Err EBADF, w)
        end
  end.

(** Forces the data of the file to stable storage. *)
Definition m_fdatasync (fd : nat) : World → Res unit * World :=
  faulty (λ w,
    match open_files w !! fd with
    | None => (Err EBADF, w)
    | Some o =>
        match find (root w) (of_key o) with
        | Some (NFile d _ m a t) =>
            (Ok tt, with_root (put (root w) (of_key o) (Some (NFile d d m a t))) w)
        | _ => (Err EBADF, w)
        end
    end).

Definition close_fd (fd : nat) (w : World) : Res unit * World :=
  match open_files w !! fd with
  | None => (Err EBADF, w)
  | Some _ => (Ok tt, with_open_files (delete fd (open_files w)) (next_fd w) w)
  end.

Definition m_close (fd : nat) : World → Res unit * World := faulty (close_fd fd).

Definition m_futimes (fd : nat) (atime mtime : Z) : World → Res unit * World :=
  faulty (λ w,
    match open_files w !! fd with
    | None => (Err EBADF, w)
    | Some o =>
        match find (root w) (of_key o) with
        | Some (NFile d dur m _ _) =>
            (Ok tt, with_root (put (root w) (of_key o) (Some (NFile d dur m atime mtime))) w)
        | _ => (Err EBADF, w)
        end
    end).

Definition m_chmod (path : string) (mode : Z) : World → Res unit * World :=
  faulty (λ w,
    match resolve w true path with
    | Err e => (Err e, w)
    | Ok k =>
        match find (root w) k with
        | Some (NFile d dur _ a t) =>
            (Ok tt, with_root (put (root w) k (Some (NFile d dur mode a t))) w)
        | Some (NDir _ entries) =>
            (Ok tt, with_root (put (root w) k (Some (NDir mode entries))) w)
        | Some (NLink _) => (Err ELOOP, w)
        | None => (Err ENOENT, w)
        end
    end).

(** [fs.writeFile(path, data, { mode, flag })]: open, write, close, with no
    flush in between. *)
Definition m_writeFile_path (path data : string) (mode : Z) (flag : string)
    (w : World) : Res unit * World :=
  match m_open path flag mode w with
  | (Err e, w1) => (Err e, w1)
  | (Ok fd, w1) =>
      let '(r, w2) := m_writeFile_fd fd data w1 in
      (r, snd (close_fd fd w2))
  end.

Definition read_data (path : string) (w : World) : Res string :=
  match resolve w true path with
  | Err e => Err e
  | Ok k =>
      match find (root w) k with
      | Some (NFile d _ _ _ _) => Ok d
      | Some (NDir _ _) => Err EISDIR
      | Some (NLink _) => Err ELOOP
      | None => Err ENOENT
      end
  end.

(** The write stream opens (and empties) the target, the read stream
    delivers the data of the source, the pipe writes it. *)
Definition m_pipe (source target : string) (mode : Z) (w : World) : Res unit * World :=
  match m_open target "w" mode w with
  | (Err e, w1) => (Err e, w1)
  | (Ok fd, w1) =>
      match read_data source w1 with
      | Err e => (Err e, snd (close_fd fd w1))
      | Ok d =>
          let '(r, w2) := m_writeFile_fd fd d w1 in
          (r, snd (close_fd fd w2))
      end
  end.

Definition m_now (w : World) : Z * World :=
  (clock w,
   {| root := root w; open_files := open_files w; next_fd := next_fd w; plan := plan w;
      clock := clock w + 1; uuid_counter := uuid_counter w; link_max := link_max w;
      umask := umask w |}).

Definition m_uuid (w : World) : string * World :=
  ("uuid-" ++ pretty (uuid_counter w),
   {| root := root w; open_files := open_files w; next_fd := next_fd w; plan := plan w;
      clock := clock w; uuid_counter := Datatypes.S (uuid_counter w);
      link_max := link_max w; umask := umask w |}).

(** The names that [m_uuid] has given so far. *)
Definition m_issued (w : World) : list string :=
  map (λ i, "uuid-" ++ pretty i) (seq 0 (uuid_counter w)).

#[export] Instance model_sys : Sys World := {
  fs_lstat := m_lstat;
  fs_stat := m_stat;
  fs_readlink := m_readlink;
  fs_readdir := m_readdir;
  fs_readdirWithFileTypes := m_readdirWithFileTypes;
  fs_rename := m_rename;
  fs_rmdir := m_rmdir;
  fs_mkdir := m_mkdir;
  fs_open := m_open;
  fs_writeFile_fd := m_writeFile_fd;
  fs_writeFile_path := m_writeFile_path;
  fs_fdatasync := m_fdatasync;
  fs_close := m_close;
  fs_futimes := m_futimes;
  fs_chmod := m_chmod;
  fs_pipe := m_pipe;
  date_now := m_now;
  generateUuid := m_uuid
}.

(** *** Platforms *)

Definition lower_ascii (c : ascii) : ascii :=
  let n := nat_of_ascii c in
  if ((65 <=? n) && (n <=? 90))%nat then ascii_of_nat (n + 32) else c.

Fixpoint lower (s : string) : string :=
  match s with
  | EmptyString => EmptyString
  | String c rest => String (lower_ascii c) (lower rest)
  end.

(** [s] starts with the letter e followed by the combining acute accent
    (the UTF-8 bytes 204 129). *)
Definition starts_acute (s : string) : bool :=
  match s with
  | String c (String c1 (String c2 _)) =>
      Ascii.eqb c "e" && Ascii.eqb c1 "204" && Ascii.eqb c2 "129"
  | _ => false
  end.

(** A normalizer for UTF-8 text that knows one composition: e followed by
    the combining acute accent becomes the single letter (the bytes 195
    169). *)
Fixpoint compose_acute (s : string) : string :=
  match s with
  | EmptyString => EmptyString
  | String c rest =>
      match rest with
      | String _ (String _ rest') =>
          if starts_acute s
          then String "195" (String "169" (compose_acute rest'))
          else String c (compose_acute rest)
      | _ => String c (compose_acute rest)
      end
  end.

(** [join] for a directory path and the name of an entry. *)
Definition posix_join (a b : string) : string := a ++ "/" ++ b.

(** [join] of Node's path module on POSIX paths, for two arguments: the
    arguments that are not empty with a slash between them, normalized.
    Empty segments and [.] are dropped, [..] takes the segment before it
    away, a slash at the end is kept. *)
Fixpoint normalize_segments (above : bool) (acc segs : list string) : list string :=
  match segs with
  | [] => rev acc
  | s :: rest =>
      if String.eqb s "." then normalize_segments above acc rest
      else if String.eqb s ".."
      then match acc with
           | top :: acc' =>
               if String.eqb top ".."
               then normalize_segments above (s :: acc) rest
               else normalize_segments above acc' rest
           | [] => normalize_segments above (if above then [s] else []) rest
           end
      else normalize_segments above (s :: acc) rest
  end.

Definition starts_slash (s : string) : bool :=
  match s with
  | String c _ => Ascii.eqb c "/"
  | EmptyString => false
  end.

Fixpoint ends_slash (s : string) : bool :=
  match s with
  | EmptyString => false
  | String c rest => if String.eqb rest "" then Ascii.eqb c "/" else ends_slash rest
  end.

Definition path_normalize (p : string) : string :=
  if String.eqb p "" then "."
  else
    let absolute := starts_slash p in
    let trailing := ends_slash p in
    match normalize_segments (negb absolute) [] (components p) with
    | [] => if absolute then "/" else if trailing then "./" else "."
    | s :: rest =>
        (if absolute then "/" else "")
        ++ fold_left (λ acc c, acc ++ "/" ++ c) rest s
        ++ (if trailing then "/" else "")
    end.

Definition node_join (a b : string) : string :=
  if String.eqb a "" then path_normalize b
  else if String.eqb b "" then path_normalize a
  else path_normalize (a ++ "/" ++ b).

(** The platforms of the examples.  They differ in the two flags and in
    [join]; the other helpers are those of a POSIX system with ASCII
    paths. *)

Definition linux : Platform := {|
  isWindows := false; isMacintosh := false;
  join := posix_join; tmpdir := "/tmp";
  isRootOrDriveLetter := λ p, bool_decide (components p = []);
  normalizeNFC := compose_acute; toLowerCase := lower |}.

Definition linux_node : Platform := {|
  isWindows := false; isMacintosh := false;
  join := node_join; tmpdir := "/tmp";
  isRootOrDriveLetter := λ p, bool_decide (components p = []);
  normalizeNFC := compose_acute; toLowerCase := lower |}.

Definition macos : Platform := {|
  isWindows := false; isMacintosh := true;
  join := posix_join; tmpdir := "/tmp";
  isRootOrDriveLetter := λ p, bool_decide (components p = []);
  normalizeNFC := compose_acute; toLowerCase := lower |}.

Definition windows : Platform := {|
  isWindows := true; isMacintosh := false;
  join := posix_join; tmpdir := "/tmp";
  isRootOrDriveLetter := λ p, bool_decide (components p = []);
  normalizeNFC := compose_acute; toLowerCase := lower |}.

Definition empty_world (r : Node) : World :=
  {| root := r; open_files := ∅; next_fd := 3; plan := []; clock := 1000;
     uuid_counter := 0; link_max := 40; umask := 18 (* 0o022 *) |}.

End Model.

(** ** WriteQueue: the per path queues of [writeFile]

    [writeFile] hands its task to the queue of the path, and the tasks of
    different calls interleave at the event loop.  The model keeps the two
    events that matter for the order of the writes: a call of [writeFile]
    ([Submit]) and the settling of the promise of a running task
    ([Settle]).  The queues are objects: the map [writeFilePathQueues], the
    listener of [onFinished] and the running tasks hold references to them,
    and [queue] and [consumed] change the object a reference names. *)

Module WriteQueue.

Record Task := { task_id : nat; task_path : string; task_data : string }.

(** Modelled from the spec: the class [Queue] of vs/base/common/async is
    not among the sources.  The spec calls it a simple per-path mutex
    queue: the tasks handed to [queue] wait in [outstanding] in the order
    they came, [consume] starts the first of them when none is running,
    and when a task settles [consumed] either starts the next one or, with
    nothing left, fires [onFinished]. *)
Record Queue := { runningPromises : nat; outstandingPromises : list Task }.

(** Modelled from the spec: [new Queue()], with nothing running and
    nothing waiting. *)
Definition new_Queue : Queue := {| runningPromises := 0; outstandingPromises := [] |}.

(** Modelled from the spec: [consume] starts the first waiting task when no
    task is running.  The result is the queue after the call, and the task
    it started, if any. *)
Definition consume (q : Queue) : Queue * option Task :=
  match outstandingPromises q with
  | t :: rest =>
      if (runningPromises q <? 1)%nat
      then ({| runningPromises := Datatypes.S (runningPromises q);
               outstandingPromises := rest |}, Some t)
      else (q, None)
  | [] => (q, None)
  end.

(** Modelled from the spec: [queue] puts the task last in line and runs
    [consume]. *)
Definition queue (t : Task) (q : Queue) : Queue * option Task :=
  consume {| runningPromises := runningPromises q;
             outstandingPromises := outstandingPromises q ++ [t] |}.

(** Modelled from the spec: [consumed] runs when the running task has
    settled; it starts the next task or, with none waiting, fires
    [onFinished].  The result is the queue after the call, the task it
    started, and whether [onFinished] fired. *)
Definition consumed (q : Queue) : Queue * option Task * bool :=
  let q' := {| runningPromises := Nat.pred (runningPromises q);
               outstandingPromises := outstandingPromises q |} in
  match outstandingPromises q' with
  | _ :: _ => (consume q', false)
  | [] => (q', None, true)
  end.

Inductive QEvent :=
| Submit (path data : string)
| Settle (id : nat).

(** [objects] holds the queues that were made, by reference.
    [writeFilePathQueues] is the map of the module, from a key to the
    reference of its queue; [listeners] gives, for a queue, the key that its
    listener of [onFinished] deletes; [queue_of] gives, for a task, the
    queue it was handed to, whose [consumed] runs when the task settles.
    [submitted] and [started] list the tasks in the order the calls were
    made and in the order the tasks were started; [active] holds the tasks
    that were started and have not settled. *)
Record QState := {
  objects : gmap nat Queue;
  writeFilePathQueues : gmap string nat;
  listeners : gmap nat string;
  queue_of : gmap nat nat;
  submitted : list Task;
  started : list Task;
  active : list Task
}.

Definition q_initial : QState :=
  {| objects := ∅; writeFilePathQueues := ∅; listeners := ∅; queue_of := ∅;
     submitted := []; started := []; active := [] |}.

Section Queues.
Context `{P : Platform}.

Definition toQueueKey (path : string) : string :=
  if isWindows || isMacintosh then toLowerCase path else path.

Definition task_key (t : Task) : string := toQueueKey (task_path t).

(** The queue registered for the key.  When there is none, a new queue is
    made, registered under the key, and given the listener of [onFinished]
    that deletes the key. *)
Definition ensureWriteFileQueue (queueKey : string) (s : QState) : nat * QState :=
  match writeFilePathQueues s !! queueKey with
  | Some existingWriteFileQueue => (existingWriteFileQueue, s)
  | None =>
      let writeFileQueue := fresh (dom (objects s)) in
      (writeFileQueue,
       {| objects := <[writeFileQueue := new_Queue]> (objects s);
          writeFilePathQueues := <[queueKey := writeFileQueue]> (writeFilePathQueues s);
          listeners := <[writeFileQueue := queueKey]> (listeners s);
          queue_of := queue_of s;
          submitted := submitted s; started := started s; active := active s |})
  end.

(** The listener installed by [ensureWriteFileQueue], which runs once:
    it deletes its key from the map. *)
Definition onFinish (writeFileQueue : nat) (s : QState) : QState :=
  match listeners s !! writeFileQueue with
  | Some queueKey =>
      {| objects := objects s;
         writeFilePathQueues := delete queueKey (writeFilePathQueues s);
         listeners := delete writeFileQueue (listeners s);
         queue_of := queue_of s;
         submitted := submitted s; started := started s; active := active s |}
  | None => s
  end.

(** A call of [writeFile]: the task is handed to the queue that
    [ensureWriteFileQueue] answers, and [queue] changes that object.  The
    map is not written here.  (A reference always names an object.) *)
Definition writeFile (path data : string) (s : QState) : QState :=
  let t := {| task_id := List.length (submitted s); task_path := path; task_data := data |} in
  let queueKey := toQueueKey path in
  let '(writeFileQueue, s1) := ensureWriteFileQueue queueKey s in
  match objects s1 !! writeFileQueue with
  | Some q0 =>
      let '(q, now) := queue t q0 in
      {| objects := <[writeFileQueue := q]> (objects s1);
         writeFilePathQueues := writeFilePathQueues s1;
         listeners := listeners s1;
         queue_of := <[task_id t := writeFileQueue]> (queue_of s1);
         submitted := submitted s1 ++ [t];
         started := started s1 ++ option_list now;
         active := active s1 ++ option_list now |}
  | None => s1
  end.

Definition is_task (id : nat) (t : Task) : bool := Nat.eqb (task_id t) id.

(** The promise of the running task [id] settles: the queue it was handed
    to runs [consumed], and its listener when [onFinished] fires.  An [id]
    that is not running is ignored. *)
Definition settle (id : nat) (s : QState) : QState :=
  match List.find (is_task id) (active s), queue_of s !! id with
  | Some t, Some writeFileQueue =>
      match objects s !! writeFileQueue with
      | Some q0 =>
          let '(q, now, finished) := consumed q0 in
          let s1 :=
            {| objects := <[writeFileQueue := q]> (objects s);
               writeFilePathQueues := writeFilePathQueues s;
               listeners := listeners s;
               queue_of := queue_of s;
               submitted := submitted s;
               started := started s ++ option_list now;
               active := List.filter (λ u, negb (is_task id u)) (active s)
                         ++ option_list now |} in
          if finished then onFinish writeFileQueue s1 else s1
      | None => s
      end
  | _, _ => s
  end.

Definition q_step (s : QState) (e : QEvent) : QState :=
  match e with
  | Submit path data => writeFile path data s
  | Settle id => settle id s
  end.

Definition q_run (events : list QEvent) : QState := fold_left q_step events q_initial.

Definition with_key (k : string) (l : list Task) : list Task :=
  List.filter (λ t, String.eqb (task_key t) k) l.

(** The queue registered for the key [k]. *)
Definition registered (s : QState) (k : string) : option Queue :=
  writeFilePathQueues s !! k ≫= λ ref, objects s !! ref.

(** The tasks waiting in the queue of key [k]. *)
Definition pending (s : QState) (k : string) : list Task :=
  from_option outstandingPromises [] (registered s k).

(** What holds of the queues between any two events. *)
Record q_inv (s : QState) : Prop := {
  inv_ids : map task_id (submitted s) = seq 0 (List.length (submitted s));
  inv_nodup : List.NoDup (active s);
  inv_active : ∀ t, In t (active s) → In t (submitted s);
  inv_started : ∀ t, In t (active s) → In t (started s);
  inv_order : ∀ k, with_key k (submitted s) = (with_key k (started s) ++ pending s k)%list;
  inv_owner : ∀ t, In t (active s) →
    is_Some (writeFilePathQueues s !! task_key t)
    ∧ queue_of s !! task_id t = writeFilePathQueues s !! task_key t;
  inv_running : ∀ k,
    match writeFilePathQueues s !! k with
    | Some ref =>
        ∃ q, objects s !! ref = Some q
             ∧ listeners s !! ref = Some k
             ∧ runningPromises q = 1%nat
             ∧ (∃ t, with_key k (active s) = [t])
             ∧ ∀ u, In u (outstandingPromises q) → queue_of s !! task_id u = Some ref
    | None => with_key k (active s) = []
    end
}.

End Queues.

End WriteQueue.

(** ** Vocabulary of the properties of the model *)

Import Model.

(** The entry is a regular file. *)
Definition is_file (n : Node) : bool :=
  match n with NFile _ _ _ _ _ => true | _ => false end.

(** Two answers of [find] that path resolution cannot tell apart. *)
Definition same_kind (a b : option Node) : Prop :=
  match a, b with
  | Some (NDir _ _), Some (NDir _ _) => True
  | Some (NFile _ _ _ _ _), Some (NFile _ _ _ _ _) => True
  | Some (NLink t), Some (NLink t') => t = t'
  | None, None => True
  | _, _ => False
  end.

(** No entry lies below a file or below nothing. *)
Definition leaf (a : option Node) : Prop :=
  match a with
  | None | Some (NFile _ _ _ _ _) => True
  | _ => False
  end.

(** [path] names the file at [k], whose data is [d]. *)
Definition holds (w : World) (path : string) (k : Path) (d : string) : Prop :=
  resolve w true path = Ok k ∧ k ≠ []
  ∧ ∃ dur m a t, find (root w) k = Some (NFile d dur m a t).

(** The open mode of the flag [w]. *)
Definition mode_w : OpenMode :=
  {| o_write := true; o_create := true; o_excl := false; o_trunc := true;
     o_append := false |}.

(** The descriptor [fd] is open on the file at [k]. *)
Definition fd_on (w : World) (fd : nat) (k : Path) : Prop :=
  ∃ o, open_files w !! fd = Some o ∧ of_key o = k.

(** The data of the file that has reached stable storage. *)
Definition durable_data (path : string) (w : World) : Res string :=
  match resolve w true path with
  | Err e => Err e
  | Ok k =>
      match find (root w) k with
      | Some (NFile _ dur _ _ _) => Ok dur
      | Some (NDir _ _) => Err EISDIR
      | Some (NLink _) => Err ELOOP
      | None => Err ENOENT
      end
  end.

(** ** Inputs for the examples *)

(** The result and the final state of a run. *)
Definition outcome {A W} (o : option (Res A * State W)) : option (Res A) :=
  fst <$> o.

Definition final {A W} (o : option (Res A * State W)) : option (State W) :=
  snd <$> o.

(** A small tree: the file /a/f, the link /a/l to it, the link /a/d to a
    path that does not exist, and the directory /tmp. *)
Definition sample_tree : Node :=
  NDir 493
    [("a", NDir 493 [("f", NFile "hello" "hello" 420 0 0);
                     ("l", NLink ["a"; "f"]);
                     ("d", NLink ["a"; "gone"])]);
     ("tmp", NDir 511 [])].

Definition sample (faults : list (option Fault)) : State World :=
  initial {| root := sample_tree; open_files := ∅; next_fd := 3; plan := faults;
             clock := 1000; uuid_counter := 0; link_max := 40;
             umask := 18 (* 0o022 *) |}.

Definition EIO : Error := SysError "EIO".
Definition EXDEV : Error := SysError "EXDEV".
Definition fails (e : Error) : option Fault := Some {| f_error := e; f_progress := 0 |}.
Definition fails_after (n : nat) (e : Error) : option Fault :=
  Some {| f_error := e; f_progress := n |}.

Definition cafe_nfd : string :=
  String "c" (String "a" (String "f" (String "e" (String "204" (String "129" ""))))).
Definition cafe_nfc : string :=
  String "c" (String "a" (String "f" (String "195" (String "169" "")))).

(** A directory whose entries are a name in NFD form and a plain one. *)
Definition names_state : State World :=
  initial (empty_world (NDir 493 [("n", NDir 493 [(cafe_nfd, NFile "" "" 420 0 0);
                                                   ("plain", NDir 493 [])])])).

(** The directory /a with the link /a/l to /a itself. *)
Definition loop_dir : Node := NDir 493 [("l", NLink ["a"])].
Definition cycle_tree : Node := NDir 493 [("a", loop_dir)].

Definition cycle_world (lim : nat) : World :=
  {| root := cycle_tree; open_files := ∅; next_fd := 3; plan := []; clock := 1000;
     uuid_counter := 0; link_max := lim; umask := 18 (* 0o022 *) |}.

Definition ENAMETOOLONG : Error := SysError "ENAMETOOLONG".

(** A system that refuses the paths of more than [n] characters (PATH_MAX)
    and is the system [S] on the others. *)
Definition refuses_long {W A} (n : nat) (path : string) (f : W → Res A * W) :
    W → Res A * W :=
  λ w, if (n <? String.length path)%nat then (Err ENAMETOOLONG, w) else f w.

Definition path_max_sys {W} (n : nat) (S : Sys W) : Sys W := {|
  fs_lstat := λ p, refuses_long n p (fs_lstat p);
  fs_stat := λ p, refuses_long n p (fs_stat p);
  fs_readlink := λ p, refuses_long n p (fs_readlink p);
  fs_readdir := λ p, refuses_long n p (fs_readdir p);
  fs_readdirWithFileTypes := λ p, refuses_long n p (fs_readdirWithFileTypes p);
  fs_rename := λ p q, refuses_long n p (refuses_long n q (fs_rename p q));
  fs_rmdir := λ p, refuses_long n p (fs_rmdir p);
  fs_mkdir := λ p m, refuses_long n p (fs_mkdir p m);
  fs_open := λ p flag m, refuses_long n p (fs_open p flag m);
  fs_writeFile_fd := fs_writeFile_fd;
  fs_writeFile_path := λ p d m flag, refuses_long n p (fs_writeFile_path p d m flag);
  fs_fdatasync := fs_fdatasync;
  fs_close := fs_close;
  fs_futimes := fs_futimes;
  fs_chmod := λ p m, refuses_long n p (fs_chmod p m);
  fs_pipe := λ p q m, refuses_long n p (refuses_long n q (fs_pipe p q m));
  date_now := date_now;
  generateUuid := generateUuid
|}.


(** ** Vocabulary of the further properties *)

Section Traces.
Context {W : Type}.

(** The paths given to [lstat], in the order of the calls. *)
Definition lstat_paths (evs : list Event) : list string :=
  omap (λ e, match op e with OpLstat p => Some p | _ => None end) evs.

(** The mode that a call gives to the entry it makes or changes. *)
Definition mode_of (o : Op) : option Z :=
  match o with
  | OpMkdir _ m | OpPipe _ _ m | OpChmod _ m => Some m
  | _ => None
  end.

(** Every mode given in [evs] is made of permission bits only. *)
Definition modes_masked (evs : list Event) : Prop :=
  Forall (λ e, match mode_of (op e) with
               | Some m => (0 ≤ m ≤ 511)%Z
               | None => True
               end) evs.

(** [handledSources[p]] is true in the object [r]. *)
Definition recorded (st : State W) (r : nat) (p : string) : Prop :=
  object_of st r !! p = Some true.

(** The state [st'] continues [st] with the calls [evs]. *)
Definition extends (st st' : State W) (evs : list Event) : Prop :=
  trace st' = (trace st ++ evs)%list.

(** What a run of [copy] from [st] to [st'] with the calls [evs] keeps, [r]
    being its [handledSources] object: the modes are masked, no path is
    given to [lstat] twice, and the paths recorded by the run are those given
    to [lstat], none of which was recorded before. *)
Definition copy_post (r : nat) (st st' : State W) (evs : list Event) : Prop :=
  extends st st' evs
  ∧ modes_masked evs
  ∧ NoDup (lstat_paths evs)
  ∧ (∀ p, p ∈ lstat_paths evs → ¬ recorded st r p)
  ∧ (∀ p, recorded st' r p ↔ recorded st r p ∨ p ∈ lstat_paths evs).

End Traces.

(** ** whenDeleted: the polling of a path

    The timer of [setInterval] and the callback of [fs.access] are events of
    the event loop.  The state holds the variable [running] of the closure,
    whether [clearInterval] was called, the calls of [resolve] and of
    [fs.access], and the accesses that were started and have not answered.
    A timer that was cleared fires no more, and an answer comes only for an
    access that was started. *)

Module WhenDeleted.

Inductive PEvent :=
| Tick
| AccessDone (err : bool).

Record PState := {
  running : bool;
  cleared : bool;
  resolved : nat;
  accesses : nat;
  in_flight : nat
}.

Definition p_initial : PState :=
  {| running := false; cleared := false; resolved := 0; accesses := 0; in_flight := 0 |}.

(** The callback of [setInterval]. *)
Definition on_tick (s : PState) : PState :=
  if negb (running s)
  then {| running := true; cleared := cleared s; resolved := resolved s;
          accesses := Datatypes.S (accesses s); in_flight := Datatypes.S (in_flight s) |}
  else s.

(** The callback of [fs.access]. *)
Definition on_access (err : bool) (s : PState) : PState :=
  let s1 := {| running := false; cleared := cleared s; resolved := resolved s;
               accesses := accesses s; in_flight := Nat.pred (in_flight s) |} in
  if err
  then {| running := running s1; cleared := true; resolved := Datatypes.S (resolved s1);
          accesses := accesses s1; in_flight := in_flight s1 |}
  else s1.

Definition p_step (s : PState) (e : PEvent) : PState :=
  match e with
  | Tick => if cleared s then s else on_tick s
  | AccessDone err => if (0 <? in_flight s)%nat then on_access err s else s
  end.

Definition p_run (events : list PEvent) : PState := fold_left p_step events p_initial.

(** What holds of the poll between any two events. *)
Record p_inv (s : PState) : Prop := {
  inv_flight : in_flight s = if running s then 1%nat else 0%nat;
  inv_resolved : resolved s = if cleared s then 1%nat else 0%nat;
  inv_cleared : cleared s = true → running s = false
}.

End WhenDeleted.

(** ** Vocabulary of the copy on the model *)

(** [path] names the entry at [k], which is the file [f]. *)
Definition names_file (w : World) (path : string) (k : Path) (f : Node) : Prop :=
  resolve w true path = Ok k ∧ find (root w) k = Some f ∧ is_file f = true.

(** From [w] to [w'] nothing changed in the tree but, at most, the leaf at
    [k], which then is a file. *)
Definition wrote_at (k : Path) (w w' : World) : Prop :=
  link_max w' = link_max w
  ∧ (root w' = root w
     ∨ ∃ x, is_file x = true ∧ leaf (find (root w) k) ∧ k ≠ []
            ∧ is_Some (find (put (root w) k (Some x)) k)
            ∧ root w' = put (root w) k (Some x)).

(** A name of an entry has no slash and is not empty. *)
Fixpoint no_slash (s : string) : bool :=
  match s with
  | EmptyString => true
  | String c rest => negb (Ascii.eqb c "/") && no_slash rest
  end.

Definition valid_name (s : string) : bool := negb (String.eqb s "") && no_slash s.

(** A tree of files and directories only, the entries of every directory
    under valid names that differ. *)
Fixpoint plain (n : Node) : bool :=
  match n with
  | NFile _ _ _ _ _ => true
  | NDir _ es =>
      bool_decide (NoDup (map fst es))
      && forallb (λ e, let '(k, x) := e in valid_name k && plain x) es
  | NLink _ => false
  end.

(** What [copy] makes of a plain tree at a place that held nothing, at the
    time [c] and under the umask [u]: the data of the files and the names of
    the entries are kept and nothing has reached stable storage.  A file has
    the masked mode, which the [chmod] after the copy sets; a directory has
    the masked mode without the bits of the umask, as [mkdir] made it. *)
Fixpoint copied (u c : Z) (n : Node) : Node :=
  match n with
  | NFile d _ m _ _ => NFile d "" (Z.land m 511) c c
  | NDir m es =>
      NDir (Z.land (Z.land m 511) (Z.lnot u))
        (map (λ e, let '(k, x) := e in (k, copied u c x)) es)
  | NLink t => NLink t
  end.

(** The path [p] lies at or below the path [source]. *)
Definition below (source p : string) : Prop :=
  components source `prefix_of` components p.

(** From [w] to [w'] the tree became [r']; the limit on the links, the
    clock and the umask are as they were. *)
Definition tree_became (w w' : World) (r' : Node) : Prop :=
  root w' = r' ∧ link_max w' = link_max w ∧ clock w' = clock w
  ∧ umask w' = umask w.

Definition no_link (n : Node) : Prop :=
  match n with NLink _ => False | _ => True end.

(** What a run of [copy] from [st] to [st'] made, [r] being its
    [handledSources] object: the tree is the one before with [x] at [kt], and
    the paths recorded by the run lie at or below the source. *)
Definition copy_made (r : nat) (source : string) (kt : Path) (x : Node)
    (st st' : State World) : Prop :=
  tree_became (world st) (world st') (put (root (world st)) kt (Some x))
  ∧ ∀ p, recorded st' r p → recorded st r p ∨ below source p.

(** The entries of a directory as [copy] makes them at the time [c]. *)
Definition copied_entries (u c : Z) (es : list (string * Node)) :
    list (string * Node) :=
  map (λ e, let '(k, x) := e in (k, copied u c x)) es.

(** The levels of directories of a tree. *)
Fixpoint depth (n : Node) : nat :=
  match n with
  | NDir _ es =>
      Datatypes.S (foldr (λ e acc, Nat.max (let '(_, x) := e in depth x) acc) 0%nat es)
  | _ => 0%nat
  end.

Section CopyVocabulary.
Context `{P : Platform}.

(** [join] appends the names of the tree [n] to [source] and to [target],
    at every level: the joined path has the components of the path and then
    the name of the entry.  A [join] that puts a slash between its arguments
    does so for every plain tree; a [join] that normalizes its result, like
    [node_join], does not when a path or a name has a component [.] or
    [..]. *)
Fixpoint appends (source target : string) (n : Node) : Prop :=
  match n with
  | NDir _ es =>
      foldr (λ e rest,
               let '(k, x) := e in
               (components (join source k) = (components source ++ [k])%list
                ∧ components (join target k) = (components target ++ [k])%list
                ∧ appends (join source k) (join target k) x)
               ∧ rest)
        True es
  | _ => True
  end.

(** What [copy] asks of the state it starts in: the source names the
    plain tree [n] at [ks], the target names the place [kt], which holds
    nothing and is not inside the source, no path at or below the source
    is recorded in the [handledSources] object [r], and [join] appends the
    names of the tree. *)
Definition ready (r : nat) (source target : string) (ks kt : Path) (n : Node)
    (st : State World) : Prop :=
  resolve (world st) false source = Ok ks
  ∧ find (root (world st)) ks = Some n
  ∧ plain n = true
  ∧ resolve (world st) false target = Ok kt
  ∧ find (root (world st)) kt = None
  ∧ ¬ ks `prefix_of` kt
  ∧ (∀ p, recorded st r p → ¬ below source p)
  ∧ appends source target n.

(** The state [sti] between two entries of the directory that [copy]
    started to copy in [st]: the target directory holds the copies of the
    entries [done], and the paths recorded since lie below them. *)
Definition copying (r : nat) (source : string) (kt : Path) (md : Z)
    (done : list (string * Node)) (st sti : State World) : Prop :=
  tree_became (world st) (world sti)
    (put (root (world st)) kt
       (Some (NDir md (copied_entries (umask (world st)) (clock (world st)) done))))
  ∧ ∀ p, recorded sti r p →
         recorded st r p ∨ p = source
         ∨ ∃ name, name ∈ map fst done ∧ below (join source name) p.

End CopyVocabulary.

(** ** Inputs for the further examples *)

Definition EACCES : Error := SysError "EACCES".

(** The directory /n with one file under a name in NFD form and one under
    the same name in NFC form. *)
Definition twin_names_state : State World :=
  initial (empty_world (NDir 493 [("n", NDir 493 [(cafe_nfd, NFile "d" "d" 420 0 0);
                                                   (cafe_nfc, NFile "c" "c" 420 0 0)])])).

(** The file /s with the set-user-id bit (mode 0o4755). *)
Definition setuid_state : State World :=
  initial (empty_world (NDir 493 [("s", NFile "x" "x" 2541 0 0)])).

(** The directory /a, with the set-group-id and sticky bits (mode 0o3755),
    holds a file and a directory of mode 0o777 with a file of mode 0o4755;
    /tmp is empty; the umask is 0o022. *)
Definition plain_state : State World :=
  initial (empty_world
    (NDir 493
       [("a", NDir 2029 [("f", NFile "hello" "hello" 420 0 0);
                         ("d", NDir 511 [("g", NFile "x" "" 2541 5 6)])]);
        ("tmp", NDir 511 [])])).

(** * Properties *)

(** ** The control flow of pfs.ts, over any platform and any system *)

Section PfsFacts.
Context `{P : Platform} {W : Type} `{S : Sys W}.

Implicit Types (st : State W) (path source target : string).

Lemma call_eq {A} (o : Op) (f : W → Res A * W) st r w :
  f (world st) = (r, w) →
  call o f st = Some (r, after o (failure_of r) w st).
Proof. intros H. unfold call, after. now rewrite H. Qed.

(** [SymlinkSupport.stat] always answers: it has no recursion to run out
    of fuel. *)
Lemma SymlinkSupport_stat_total path st :
  ∃ r st', SymlinkSupport_stat path st = Some (r, st').
Proof.
  unfold SymlinkSupport_stat, bind, try_catch, call, ret, throw.
  repeat (match goal with
          | |- context [let '(_, _) := ?x in _] => destruct x as [[?|?] ?]
          | |- context [if ?b then _ else _] => destruct b
          | |- context [match ?o with Some _ => _ | None => _ end] => destruct o
          end; cbn);
    eauto.
Qed.

(** The three ways through [SymlinkSupport.stat] after a successful
    [lstat]. *)
Lemma SymlinkSupport_stat_plain path st l w1 :
  fs_lstat path (world st) = (Ok l, w1) → isSymbolicLink l = false →
  SymlinkSupport_stat path st
  = Some (Ok {| stat := l; symbolicLink := None |}, after (OpLstat path) None w1 st).
Proof.
  intros Hl Hk.
  unfold SymlinkSupport_stat, bind, try_catch, call, ret, throw, after.
  rewrite Hl. cbn. now rewrite Hk.
Qed.

Lemma SymlinkSupport_stat_target path st l w1 s w2 :
  fs_lstat path (world st) = (Ok l, w1) → isSymbolicLink l = true →
  fs_stat path w1 = (Ok s, w2) →
  SymlinkSupport_stat path st
  = Some (Ok {| stat := s; symbolicLink := Some false |},
          after (OpStat path) None w2 (after (OpLstat path) None w1 st)).
Proof.
  intros Hl Hk Hs.
  unfold SymlinkSupport_stat, bind, try_catch, call, ret, throw, after.
  rewrite Hl. cbn. rewrite Hk. cbn. rewrite Hs. cbn. now rewrite Hk.
Qed.

Lemma SymlinkSupport_stat_dangling path st l w1 e w2 :
  fs_lstat path (world st) = (Ok l, w1) → isSymbolicLink l = true →
  fs_stat path w1 = (Err e, w2) → has_code e "ENOENT" = true →
  SymlinkSupport_stat path st
  = Some (Ok {| stat := l; symbolicLink := Some true |},
          after (OpStat path) (Some e) w2 (after (OpLstat path) None w1 st)).
Proof.
  intros Hl Hk Hs He.
  unfold SymlinkSupport_stat, bind, try_catch, call, ret, throw, after.
  rewrite Hl. cbn. rewrite Hk. cbn. rewrite Hs. cbn. now rewrite He.
Qed.

(** C4: for a path that [lstat] reports as a symbolic link,
    [SymlinkSupport.stat] returns the stats that [fs.stat] gives for the
    target with [dangling: false] when the target exists, and the stats of
    the link itself with [dangling: true] when [fs.stat] fails with
    ENOENT; for a path that is not a symbolic link it returns the stats
    of [lstat] and no [symbolicLink] field. *)
Theorem SymlinkSupport_stat_spec path st l w1 :
  fs_lstat path (world st) = (Ok l, w1) →
  let st1 := after (OpLstat path) None w1 st in
  (isSymbolicLink l = false →
     SymlinkSupport_stat path st
     = Some (Ok {| stat := l; symbolicLink := None |}, st1))
  ∧ (isSymbolicLink l = true →
     ∀ s w2, fs_stat path w1 = (Ok s, w2) →
       SymlinkSupport_stat path st
       = Some (Ok {| stat := s; symbolicLink := Some false |},
               after (OpStat path) None w2 st1))
  ∧ (isSymbolicLink l = true →
     ∀ e w2, fs_stat path w1 = (Err e, w2) → has_code e "ENOENT" = true →
       SymlinkSupport_stat path st
       = Some (Ok {| stat := l; symbolicLink := Some true |},
               after (OpStat path) (Some e) w2 st1)).
Proof.
  intros Hl st1. subst st1. split; [|split].
  - intros Hk. now apply SymlinkSupport_stat_plain.
  - intros Hk s w2 Hs. now apply (SymlinkSupport_stat_target path st l w1 s w2).
  - intros Hk e w2 Hs He. now apply (SymlinkSupport_stat_dangling path st l w1 e w2).
Qed.

(** C10: [fileExists] and [dirExists] never throw: they return a boolean
    for every path, and the boolean is [true] exactly when
    [SymlinkSupport.stat] succeeds with the stats of a regular file
    (of a directory) and does not report a dangling link. *)
Theorem SymlinkSupport_exists_spec path st :
  (∃ b st', SymlinkSupport_fileExists path st = Some (Ok b, st')
     ∧ (b = true ↔
        ∃ s, SymlinkSupport_stat path st = Some (Ok s, st')
             ∧ isFile (stat s) = true ∧ symbolicLink s ≠ Some true))
  ∧ (∃ b st', SymlinkSupport_dirExists path st = Some (Ok b, st')
     ∧ (b = true ↔
        ∃ s, SymlinkSupport_stat path st = Some (Ok s, st')
             ∧ isDirectory (stat s) = true ∧ symbolicLink s ≠ Some true)).
Proof.
  destruct (SymlinkSupport_stat_total path st) as ([s|e] & st' & Hs).
  - split.
    + exists (isFile (stat s) && not_dangling s), st'.
      unfold SymlinkSupport_fileExists, try_catch, bind, ret. rewrite Hs.
      split; [reflexivity|]. rewrite andb_true_iff. unfold not_dangling. split.
      * intros [Hf Hd]. exists s. repeat split; [done|].
        destruct (symbolicLink s) as [[]|]; congruence.
      * intros (s' & Heq & Hf & Hd). injection Heq as <-. split; [done|].
        destruct (symbolicLink s) as [[]|]; congruence.
    + exists (isDirectory (stat s) && not_dangling s), st'.
      unfold SymlinkSupport_dirExists, try_catch, bind, ret. rewrite Hs.
      split; [reflexivity|]. rewrite andb_true_iff. unfold not_dangling. split.
      * intros [Hf Hd]. exists s. repeat split; [done|].
        destruct (symbolicLink s) as [[]|]; congruence.
      * intros (s' & Heq & Hf & Hd). injection Heq as <-. split; [done|].
        destruct (symbolicLink s) as [[]|]; congruence.
  - split.
    + exists false, st'.
      unfold SymlinkSupport_fileExists, try_catch, bind, ret. rewrite Hs.
      split; [reflexivity|]. split; [discriminate|].
      intros (s' & Heq & _). discriminate.
    + exists false, st'.
      unfold SymlinkSupport_dirExists, try_catch, bind, ret. rewrite Hs.
      split; [reflexivity|]. split; [discriminate|].
      intros (s' & Heq & _). discriminate.
Qed.

(** C8: on a root or a drive letter [rimraf], in either mode, and
    [rimrafSync] throw before any call to the file system: the state,
    and the world in it, is the one they were called in. *)
Theorem rimraf_refuses_root path (mode : RimRafMode) st :
  isRootOrDriveLetter path = true →
  rimraf path mode st = Some (Err refuse_root, st)
  ∧ rimrafSync path st = Some (Err refuse_root, st).
Proof.
  intros Hroot. unfold rimraf, rimrafSync. rewrite Hroot. split; reflexivity.
Qed.

(** *** readdir *)

(** C5: on macOS every name returned by [readdir], [readdirSync] and
    [readdirWithFileTypes] is in NFC form, given that [normalizeNFC]
    returns strings in NFC form; on the other platforms the three
    functions return what the [readdir] of the file system returns. *)
Theorem readdir_names path st :
  (isMacintosh = true → (∀ s, isNFC (normalizeNFC s)) →
     (∀ names st', readdir path st = Some (Ok names, st') → Forall isNFC names)
     ∧ (∀ names st', readdirSync path st = Some (Ok names, st') → Forall isNFC names)
     ∧ (∀ children st', readdirWithFileTypes path st = Some (Ok children, st') →
          Forall (λ child, isNFC (name child)) children))
  ∧ (isMacintosh = false →
     readdir path st = call (OpReaddir path) (fs_readdir path) st
     ∧ readdirSync path st = call (OpReaddir path) (fs_readdir path) st
     ∧ readdirWithFileTypes path st
       = call (OpReaddirTypes path) (fs_readdirWithFileTypes path) st).
Proof.
  unfold readdir, readdirSync, readdirWithFileTypes, handleDirectoryChildren,
    bind, ret, call.
  split.
  - intros Hmac Hnfc. rewrite Hmac.
    destruct (fs_readdir path (world st)) as [[raw|e] w1];
      destruct (fs_readdirWithFileTypes path (world st)) as [[ents|e'] w2];
      cbn; repeat split; intros ? ? [= <- _];
      apply List.Forall_map, Forall_forall; intros x _; apply Hnfc.
  - intros Hmac. rewrite Hmac.
    destruct (fs_readdir path (world st)) as [[raw|e] w1];
      destruct (fs_readdirWithFileTypes path (world st)) as [[ents|e'] w2];
      cbn; repeat split.
Qed.

(** *** rimraf in MOVE mode *)

(** A deletion left running settles without a trace of its error: the
    call is made, and the outcome is dropped. *)
Lemma settle_detached_ignores_errors st p rest :
  detached st = p :: rest →
  ∃ r w, fs_rmdir p (world st) = (r, w)
    ∧ settle_detached st
      = Some (Ok tt,
              {| world := w; canFlush := canFlush st; handled := handled st;
                 detached := rest;
                 trace := trace st ++ [{| op := OpRmdir p; failure := failure_of r |}] |}).
Proof.
  intros Hd. unfold settle_detached, try_catch, rimrafUnlink, call, ret.
  rewrite Hd. cbn.
  destruct (fs_rmdir p (world st)) as [[[]|e] w]; eauto.
Qed.

Section RimrafMove.
Variable issued : W → list string.
Hypothesis Huuid : ∀ w u w',
  generateUuid w = (u, w') →
  (u ∉ issued w) ∧ ∀ v, v ∈ issued w' ↔ v = u ∨ v ∈ issued w.

(** C7: for a path that is not a root or drive letter, which [rimraf]
    refuses in every mode, [rimraf] in MOVE mode takes a name from
    [generateUuid] and renames the path to that name inside the temp
    directory.  The name is new: [issued] stands for the names that
    [generateUuid] has given, and this one was not among them before the call
    and is among them after it.  When the rename succeeded, [rimraf] returns
    at once with the recursive deletion of the temp location started and not
    awaited: no [rmdir] has been answered yet; and in whatever state that
    deletion settles, whatever [rmdir] answers, nothing is thrown: the call
    is made and its error, if any, is dropped.  When the rename failed,
    [rimraf] goes on as the recursive deletion of the path itself. *)
Theorem rimraf_move_steps path st u w1 r w2 :
  isRootOrDriveLetter path = false →
  generateUuid (world st) = (u, w1) →
  fs_rename path (join tmpdir u) w1 = (r, w2) →
  let pathInTemp := join tmpdir u in
  let st1 := after (OpRename path pathInTemp) (failure_of r) w2
               (after (OpUuid u) None w1 st) in
  ((u ∉ issued (world st)) ∧ u ∈ issued w1)
  ∧ match r with
    | Ok _ =>
        rimraf path MOVE st
        = Some (Ok tt,
                {| world := w2; canFlush := canFlush st; handled := handled st;
                   detached := detached st ++ [pathInTemp];
                   trace := trace st
                            ++ [{| op := OpUuid u; failure := None |};
                                {| op := OpRename path pathInTemp; failure := None |};
                                {| op := OpDetachRmdir pathInTemp; failure := None |}] |})
        ∧ ∀ sta rest,
            detached sta = pathInTemp :: rest →
            ∃ rd w,
              fs_rmdir pathInTemp (world sta) = (rd, w)
              ∧ settle_detached sta
                = Some (Ok tt,
                        {| world := w; canFlush := canFlush sta; handled := handled sta;
                           detached := rest;
                           trace := trace sta
                                    ++ [{| op := OpRmdir pathInTemp;
                                           failure := failure_of rd |}] |})
    | Err _ => rimraf path MOVE st = rimrafUnlink path st1
    end.
Proof.
  intros Hroot Hu Hr pathInTemp st1. subst pathInTemp st1.
  split.
  { destruct (Huuid _ _ _ Hu) as [Hnew Hafter]. split; [exact Hnew|].
    apply Hafter. now left. }
  unfold rimraf, rimrafMove, bind, try_catch, attempt, new_uuid, call, ret,
    detach_rmdir, after.
  rewrite Hroot, Hu. cbn. rewrite Hr.
  destruct r as [[]|e]; cbn; [|reflexivity].
  split.
  - unfold log, set_world; cbn. rewrite <- !app_assoc. reflexivity.
  - intros sta rest Hd. now apply settle_detached_ignores_errors.
Qed.

End RimrafMove.

(** *** move *)

Lemma updateMtime_never_throws path st :
  ∃ st', updateMtime path st = Some (Ok tt, st').
Proof.
  unfold updateMtime, try_catch, try_finally, bind, call, new_Date, ret.
  repeat (match goal with
          | |- context [let '(_, _) := ?x in _] => destruct x as [? ?]
          | |- context [match ?r with Ok _ => _ | Err _ => _ end] => destruct r
          | |- context [if ?b then _ else _] => destruct b
          end; cbn);
    repeat match goal with u : unit |- _ => destruct u end;
    eauto.
Qed.


(** *** writeFile and the flush *)

(** C2 (amended): [st] is the state in which the write starts: for
    [writeFileSync] the state at the call, for [writeFile] the state in which
    the queue of the path starts the task, which can be later than the call.
    A successful write that starts while [canFlush] holds has opened the
    path, written the data through the descriptor, called [fdatasync] on that
    descriptor and only then closed it and returned; when [fdatasync] failed,
    the failure is not reported: a warning is printed and [canFlush] is
    cleared.  A successful write that starts while [canFlush] is cleared is
    one [fs.writeFile] on the path, with no [fdatasync]. *)
Theorem writeFile_flush_spec path data options st st' :
  writeFile path data options st = Some (Ok tt, st')
  ∨ writeFileSync path data options st = Some (Ok tt, st') →
  let o := ensureWriteOptions options in
  (canFlush st = true →
     ∃ fd sync,
       trace st' = (trace st ++ flushed_write path data o fd sync)%list
       ∧ canFlush st' = match sync with Some _ => false | None => true end)
  ∧ (canFlush st = false →
     trace st' = (trace st
                  ++ [passed (OpWritePath path data (ens_mode o) (ens_flag o))])%list
     ∧ canFlush st' = false).
Proof.
  intros Hcall o. subst o.
  unfold writeFile, writeFileSync, doWriteFileAndFlush, bind, try_catch,
    try_finally, attempt, call, get_canFlush, set_canFlush, console_warn,
    ret, throw, flushed_write, passed in *.
  split; intros Hflush; rewrite Hflush in Hcall; cbn in Hcall.
  - destruct (fs_open path (ens_flag (ensureWriteOptions options))
                (ens_mode (ensureWriteOptions options)) (world st))
      as [[fd|e1] w1]; cbn in Hcall; [|destruct Hcall; discriminate].
    destruct (fs_writeFile_fd fd data w1) as [[[]|e2] w2]; cbn in Hcall.
    + destruct (fs_fdatasync fd w2) as [[[]|e3] w3]; cbn in Hcall;
        destruct (fs_close fd w3) as [[[]|e4] w4]; cbn in Hcall;
        try (destruct Hcall; discriminate).
      * exists fd, None. destruct Hcall as [[= <-]|[= <-]]; cbn;
          rewrite <- !app_assoc; auto.
      * exists fd, (Some e3). destruct Hcall as [[= <-]|[= <-]]; cbn;
          rewrite <- !app_assoc; auto.
    + destruct (fs_close fd w2) as [[[]|e4] w4]; cbn in Hcall;
        destruct Hcall; discriminate.
  - destruct (fs_writeFile_path path data (ens_mode (ensureWriteOptions options))
                (ens_flag (ensureWriteOptions options)) (world st))
      as [[[]|e1] w1]; cbn in Hcall; [|destruct Hcall; discriminate].
    destruct Hcall as [[= <-]|[= <-]]; cbn; auto.
Qed.

End PfsFacts.

(** ** The model: the tree *)

Lemma alist_lookup_insert_eq {V} (c : string) (x : V) es :
  alist_lookup c (alist_insert c x es) = Some x.
Proof.
  induction es as [|[c' v'] es IH]; cbn.
  - now rewrite String.eqb_refl.
  - destruct (String.eqb c' c) eqn:E; cbn.
    + now rewrite String.eqb_refl.
    + now rewrite E.
Qed.

Lemma alist_lookup_insert_ne {V} (c c' : string) (x : V) es :
  c ≠ c' → alist_lookup c' (alist_insert c x es) = alist_lookup c' es.
Proof.
  intros Hne. induction es as [|[c0 v0] es IH]; cbn.
  - apply String.eqb_neq in Hne. now rewrite Hne.
  - destruct (String.eqb c0 c) eqn:E; cbn.
    + apply String.eqb_eq in E. subst c0.
      apply String.eqb_neq in Hne. now rewrite Hne.
    + destruct (String.eqb c0 c'); [reflexivity | exact IH].
Qed.

Lemma same_kind_refl a : same_kind a a.
Proof. destruct a as [[]|]; cbn; auto. Qed.

Lemma find_below_file x (q : Path) : is_file x = true → q ≠ [] → find x q = None.
Proof. destruct x, q; cbn; congruence. Qed.

Lemma find_app r (p q : Path) :
  find r (p ++ q)%list = match find r p with Some n => find n q | None => None end.
Proof.
  revert r. induction p as [|c p IH]; intros r; cbn; [reflexivity|].
  destruct r as [| m es |]; try reflexivity.
  destruct (alist_lookup c es); [apply IH | reflexivity].
Qed.

(** Writing a file over a leaf: the entry is there afterwards whenever
    something is. *)
Lemma find_put_eq r (k : Path) x :
  k ≠ [] → is_Some (find (put r k (Some x)) k) → find (put r k (Some x)) k = Some x.
Proof.
  revert r. induction k as [|c rest IH]; intros r Hk Hsome; [congruence|].
  destruct r as [| m es |]; cbn in *; try (destruct rest; cbn in *; now inversion Hsome).
  destruct rest as [|c2 rest].
  - cbn. now rewrite alist_lookup_insert_eq.
  - destruct (alist_lookup c es) as [child|] eqn:E.
    + cbn in *. rewrite alist_lookup_insert_eq in *. apply IH; [congruence | exact Hsome].
    + cbn in Hsome. rewrite E in Hsome. now inversion Hsome.
Qed.

Lemma find_put_is_Some r (k : Path) x :
  k ≠ [] → is_Some (find r k) → is_Some (find (put r k (Some x)) k).
Proof.
  revert r. induction k as [|c rest IH]; intros r Hk Hsome; [congruence|].
  destruct r as [| m es |]; cbn in *; try (destruct rest; cbn in *; now inversion Hsome).
  destruct rest as [|c2 rest].
  - cbn. rewrite alist_lookup_insert_eq. eauto.
  - destruct (alist_lookup c es) as [child|] eqn:E.
    + cbn. rewrite alist_lookup_insert_eq. apply IH; [congruence | exact Hsome].
    + now inversion Hsome.
Qed.

(** Writing a file over a leaf changes the answer of [find] nowhere else,
    as far as path resolution can tell. *)
Lemma find_put_other r (k q : Path) x :
  is_file x = true → leaf (find r k) → q ≠ k →
  same_kind (find r q) (find (put r k (Some x)) q).
Proof.
  intros Hx. revert r q. induction k as [|c rest IH]; intros r q Hleaf Hq.
  - cbn. apply same_kind_refl.
  - destruct r as [| m es |];
      try (destruct rest; cbn; apply same_kind_refl).
    destruct rest as [|c2 rest].
    + cbn [put]. destruct q as [|c' q']; [cbn; auto|].
      cbn [find]. destruct (String.eqb_spec c c') as [<-|Hne].
      * rewrite alist_lookup_insert_eq.
        assert (q' ≠ []) by congruence.
        rewrite (find_below_file x q') by assumption.
        cbn in Hleaf. destruct (alist_lookup c es) as [[]|]; cbn in Hleaf;
          try contradiction; [|exact I].
        now destruct q'.
      * rewrite alist_lookup_insert_ne by assumption. apply same_kind_refl.
    + cbn [put]. destruct (alist_lookup c es) as [child|] eqn:E;
        [|apply same_kind_refl].
      destruct q as [|c' q']; [cbn; auto|].
      cbn [find]. destruct (String.eqb_spec c c') as [<-|Hne].
      * rewrite alist_lookup_insert_eq, E. apply IH.
        -- cbn [find] in Hleaf. now rewrite E in Hleaf.
        -- congruence.
      * rewrite alist_lookup_insert_ne by assumption. apply same_kind_refl.
Qed.

(** A path that resolved before a file was written over a leaf resolves to
    the same entry afterwards. *)
Lemma walk_put_file r lim follow_last (k : Path) x :
  is_file x = true → leaf (find r k) → k ≠ [] →
  is_Some (find (put r k (Some x)) k) →
  ∀ comps cur used k',
    walk r lim follow_last cur comps used = Ok k' →
    walk (put r k (Some x)) lim follow_last cur comps used = Ok k'.
Proof.
  intros Hx Hleaf Hk Hsome.
  pose proof (find_put_eq r k x Hk Hsome) as Hnew.
  induction comps as [|c rest IH]; intros cur used k' Hwalk; [exact Hwalk|].
  cbn [walk] in *.
  destruct (find r cur) as [[| m es |]|] eqn:Ecur; try discriminate.
  assert (cur ≠ k) as Hcur by (intros ->; rewrite Ecur in Hleaf; exact Hleaf).
  pose proof (find_put_other r k cur x Hx Hleaf Hcur) as Hsame.
  rewrite Ecur in Hsame.
  destruct (find (put r k (Some x)) cur) as [[| m' es' |]|]; try contradiction.
  destruct (decide ((cur ++ [c])%list = k)) as [Heq|Hne].
  - rewrite Heq in *. rewrite Hnew. destruct x; try discriminate.
    destruct (find r k) as [[]|] eqn:Ek; try contradiction.
    + destruct rest; [exact Hwalk|].
      cbn [walk] in Hwalk. rewrite Ek in Hwalk. discriminate.
    + destruct rest; [exact Hwalk | discriminate].
  - pose proof (find_put_other r k (cur ++ [c])%list x Hx Hleaf Hne) as Hsame'.
    destruct (find r (cur ++ [c])%list) as [[| m2 es2 | t]|],
             (find (put r k (Some x)) (cur ++ [c])%list) as [[| m3 es3 | t']|];
      cbn in Hsame'; try contradiction; subst; auto.
    destruct (match rest with [] => negb follow_last | _ => false end); [exact Hwalk|].
    destruct (within_limit lim used); [auto | exact Hwalk].
Qed.

(** ** The model: writing a file *)

Lemma holds_read_data w path k d : holds w path k d → read_data path w = Ok d.
Proof.
  intros (Hres & _ & dur & m & a & t & Hfind).
  unfold read_data. now rewrite Hres, Hfind.
Qed.

(** Replacing the data of the file keeps the path on it. *)
Lemma holds_put w path k d d' dur m a t :
  holds w path k d →
  holds (with_root (put (root w) k (Some (NFile d' dur m a t))) w) path k d'.
Proof.
  intros (Hres & Hk & dur0 & m0 & a0 & t0 & Hfind).
  assert (is_Some (find (put (root w) k (Some (NFile d' dur m a t))) k)) as Hsome
    by (apply find_put_is_Some; [exact Hk | rewrite Hfind; eauto]).
  split; [|split; [exact Hk|]].
  - unfold resolve in *. cbn.
    apply walk_put_file; try assumption; [reflexivity|].
    now rewrite Hfind.
  - exists dur, m, a, t. cbn. now apply find_put_eq.
Qed.

Lemma holds_same_tree w w' path k d :
  root w' = root w → link_max w' = link_max w → holds w path k d → holds w' path k d.
Proof.
  intros Hr Hl (Hres & Hk & Hfind). unfold holds, resolve in *.
  now rewrite Hr, Hl.
Qed.

Lemma next_fault_tree w f w' :
  next_fault w = (f, w') →
  root w' = root w ∧ link_max w' = link_max w
  ∧ open_files w' = open_files w ∧ next_fd w' = next_fd w.
Proof.
  unfold next_fault. destruct (plan w); intros [= <- <-]; cbn; auto.
Qed.

Lemma string_app_empty (s : string) : s ++ "" = s.
Proof.
  induction s as [|c s IH]; [reflexivity|].
  change (String c (s ++ "") = String c s). now f_equal.
Qed.

Lemma substring_all (s : string) : String.substring 0 (String.length s) s = s.
Proof. induction s as [|c s IH]; simpl; [reflexivity | now f_equal]. Qed.

(** [open] with the flag [w] on a tree with a root directory: the path then
    names an empty file, and the descriptor writes to it from the start. *)
Lemma m_open_w w path mode fd w1 :
  is_dir (root w) = true →
  m_open path "w" mode w = (Ok fd, w1) →
  ∃ k, holds w1 path k ""
       ∧ open_files w1 !! fd = Some {| of_key := k; of_mode := mode_w; of_pos := 0 |}.
Proof.
  intros Hroot. unfold m_open, faulty.
  destruct (next_fault w) as [[f|] w0] eqn:Ef; [discriminate|].
  apply next_fault_tree in Ef as (Hr & Hl & Ho & Hn).
  change (parse_flag "w") with (Some mode_w). cbn match.
  destruct (resolve w0 true path) as [k|e] eqn:Eres; [|discriminate].
  assert (k ≠ [] ∨ k = []) as [Hk| ->] by (destruct k; auto).
  2: { cbn [find]. rewrite Hr. destruct (root w); try discriminate. }
  destruct (find (root w0) k) as [[d dur m a t| |]|] eqn:Efind; try discriminate.
  - cbn. intros [= <- <-]. exists k. split.
    + apply (holds_same_tree
               (with_root (put (root w0) k (Some (NFile "" dur m a t))) w0));
        [reflexivity | reflexivity |].
      apply (holds_put w0 path k d). repeat split; eauto.
    + cbn. apply lookup_insert_eq.
  - cbn. destruct (find (put (root w0) k _) k) eqn:Enew; [|discriminate].
    intros [= <- <-]. exists k. split.
    + split; [|split; [exact Hk|]].
      * unfold resolve in *. cbn. apply walk_put_file; try assumption;
          [reflexivity | now rewrite Efind | rewrite Enew; eauto].
      * eexists _, _, _, _. cbn. apply find_put_eq; [exact Hk | rewrite Enew; eauto].
    + cbn. apply lookup_insert_eq.
Qed.

(** A failed [open] leaves the file as it was. *)
Lemma m_open_failed w path flag mode e w1 :
  m_open path flag mode w = (Err e, w1) → read_data path w1 = read_data path w.
Proof.
  unfold m_open, faulty.
  destruct (next_fault w) as [[f|] w0] eqn:Ef;
    apply next_fault_tree in Ef as (Hr & Hl & Ho & Hn).
  - intros [= _ <-]. unfold read_data, resolve. now rewrite Hr, Hl.
  - assert (read_data path w0 = read_data path w) as <-
      by (unfold read_data, resolve; now rewrite Hr, Hl).
    destruct (parse_flag flag) as [om|]; [|now intros [= _ <-]].
    destruct (resolve w0 true path) as [k|e'] eqn:Eres; [|now intros [= _ <-]].
    destruct (find (root w0) k) as [[d dur m a t| |]|] eqn:Efind;
      try (now intros [= _ <-]).
    + destruct (o_excl om); [now intros [= _ <-]|].
      destruct (o_trunc om); discriminate.
    + destruct (o_create om); [|now intros [= _ <-]].
      destruct (find (put (root w0) k _) k); [discriminate | now intros [= _ <-]].
Qed.

(** A write through a descriptor opened with [w]: the file holds the part
    that was written, which is all of the data when the write succeeded. *)
Lemma m_writeFile_fd_w w path k fd data r w' :
  holds w path k "" →
  open_files w !! fd = Some {| of_key := k; of_mode := mode_w; of_pos := 0 |} →
  m_writeFile_fd fd data w = (r, w') →
  ∃ n, holds w' path k (String.substring 0 n data)
       ∧ (r = Ok tt → holds w' path k data)
       ∧ fd_on w' fd k.
Proof.
  intros Hholds Hfd. unfold m_writeFile_fd.
  destruct (next_fault w) as [f w0] eqn:Ef.
  apply next_fault_tree in Ef as (Hr & Hl & Ho & Hn).
  apply (holds_same_tree w w0) in Hholds; [|assumption..].
  rewrite Ho, Hfd. cbn.
  destruct Hholds as (Hres & Hk & dur & m & a & t & Hfind). rewrite Hfind.
  assert (∀ chunk, overwrite "" 0 chunk = chunk) as Hover.
  { intros chunk. unfold overwrite. cbn. destruct (String.length chunk); cbn;
      apply string_app_empty. }
  rewrite Hover. intros [= <- <-].
  assert (∀ d, holds (with_open_files
                        (<[fd := {| of_key := k; of_mode := mode_w;
                                    of_pos := 0 + String.length
                                      match f with
                                      | Some f0 => String.substring 0 (f_progress f0) data
                                      | None => data
                                      end |}]> (open_files w0)) (next_fd w0)
                        (with_root (put (root w0) k (Some (NFile d dur m a t))) w0))
               path k d) as Hput.
  { intros d. eapply holds_same_tree; [| |apply (holds_put w0 path k "" d dur m a t)];
      [reflexivity | reflexivity |]. repeat split; eauto. }
  destruct f as [f|].
  - exists (f_progress f). split; [apply Hput|]. split; [discriminate|].
    eexists. cbn. rewrite lookup_insert_eq. eauto.
  - exists (String.length data). rewrite substring_all.
    split; [apply Hput|]. split; [intros _; apply Hput|].
    eexists. cbn. rewrite lookup_insert_eq. eauto.
Qed.

Lemma m_fdatasync_holds w path k d fd r w' :
  holds w path k d → fd_on w fd k → m_fdatasync fd w = (r, w') →
  holds w' path k d ∧ fd_on w' fd k
  ∧ (r = Ok tt → ∃ m a t, find (root w') k = Some (NFile d d m a t)).
Proof.
  intros Hholds (o & Hfd & Hkey). unfold m_fdatasync, faulty.
  destruct (next_fault w) as [[f|] w0] eqn:Ef;
    apply next_fault_tree in Ef as (Hr & Hl & Ho & Hn);
    apply (holds_same_tree w w0) in Hholds; try assumption;
    rewrite <- Ho in Hfd.
  - intros [= <- <-]. split; [assumption|]. split; [exists o; auto | discriminate].
  - rewrite Hfd, Hkey.
    destruct Hholds as (Hres & Hk & dur & m & a & t & Hfind). rewrite Hfind.
    intros [= <- <-]. split; [|split].
    + apply (holds_put w0 path k d d). repeat split; eauto.
    + exists o. auto.
    + intros _. exists m, a, t. cbn. apply find_put_eq; [exact Hk|].
      apply find_put_is_Some; [exact Hk | rewrite Hfind; eauto].
Qed.

Lemma close_fd_holds w path k d fd r w' :
  holds w path k d → close_fd fd w = (r, w') →
  holds w' path k d ∧ root w' = root w.
Proof.
  intros Hholds. unfold close_fd.
  destruct (open_files w !! fd); intros [= <- <-]; auto.
Qed.

Lemma m_close_holds w path k d fd r w' :
  holds w path k d → m_close fd w = (r, w') →
  holds w' path k d ∧ root w' = root w.
Proof.
  intros Hholds. unfold m_close, faulty.
  destruct (next_fault w) as [[f|] w0] eqn:Ef;
    apply next_fault_tree in Ef as (Hr & Hl & Ho & Hn);
    apply (holds_same_tree w w0) in Hholds; try assumption.
  - intros [= <- <-]. auto.
  - intros Hc. apply (close_fd_holds _ path k d) in Hc as [? ?]; [|assumption].
    split; [assumption | congruence].
Qed.

(** C1 (amended): [writeFile] is not atomic.  With the flag [w], which is
    the default, on a tree with a root directory: after a successful call
    the file at the path holds exactly the data; after a failed call it
    holds either what it held before (the open failed) or the part of the
    data, possibly empty, that was written before the failure, the previous
    content being lost as soon as the open succeeded. *)
Theorem writeFile_content path data options (st : State World) r st' :
  is_dir (root (world st)) = true →
  ens_flag (ensureWriteOptions options) = "w" →
  writeFile path data options st = Some (r, st') →
  match r with
  | Ok _ => read_data path (world st') = Ok data
  | Err _ =>
      read_data path (world st') = read_data path (world st)
      ∨ ∃ n, read_data path (world st') = Ok (String.substring 0 n data)
  end.
Proof.
  intros Hroot Hflag.
  unfold writeFile, doWriteFileAndFlush, bind, attempt, call, get_canFlush,
    set_canFlush, console_warn, ret, throw.
  rewrite Hflag. cbn [fs_open fs_writeFile_fd fs_writeFile_path fs_fdatasync
                        fs_close model_sys].
  destruct (canFlush st); cbn [negb].
  - destruct (m_open path "w" (ens_mode (ensureWriteOptions options)) (world st))
      as [[fd|e] w1] eqn:Eopen; cbn.
    + apply m_open_w in Eopen as (k & Hholds & Hfd); [|exact Hroot].
      destruct (m_writeFile_fd fd data w1) as [rw w2] eqn:Ewrite.
      apply (m_writeFile_fd_w w1 path k) in Ewrite as (n & Hpart & Hall & Hon);
        [|assumption..].
      destruct rw as [[]|ew]; cbn.
      * specialize (Hall eq_refl).
        destruct (m_fdatasync fd w2) as [rs w3] eqn:Esync.
        apply (m_fdatasync_holds w2 path k data) in Esync as (Hs & Hon' & _);
          [|assumption..].
        destruct rs as [[]|es]; cbn;
          destruct (m_close fd w3) as [rc w4] eqn:Eclose;
          apply (m_close_holds w3 path k data) in Eclose as [Hc _]; try assumption;
          apply holds_read_data in Hc;
          destruct rc as [[]|ec]; cbn; intros [= <- <-]; cbn;
          try exact Hc; right; exists (String.length data);
          now rewrite substring_all.
      * destruct (m_close fd w2) as [rc w4] eqn:Eclose.
        apply (m_close_holds w2 path k (String.substring 0 n data)) in Eclose as [Hc _];
          [|exact Hpart].
        apply holds_read_data in Hc.
        destruct rc as [[]|ec]; cbn; intros [= <- <-]; cbn; right; eauto.
    + intros [= <- <-]. cbn. left. now apply m_open_failed in Eopen.
  - unfold m_writeFile_path.
    destruct (m_open path "w" (ens_mode (ensureWriteOptions options)) (world st))
      as [[fd|e] w1] eqn:Eopen; cbn.
    + apply m_open_w in Eopen as (k & Hholds & Hfd); [|exact Hroot].
      destruct (m_writeFile_fd fd data w1) as [rw w2] eqn:Ewrite.
      apply (m_writeFile_fd_w w1 path k) in Ewrite as (n & Hpart & Hall & Hon);
        [|assumption..].
      destruct (close_fd fd w2) as [rc w3] eqn:Eclose. cbn.
      destruct rw as [[]|ew]; cbn; intros [= <- <-]; cbn.
      * specialize (Hall eq_refl).
        apply (close_fd_holds w2 path k data) in Eclose as [Hc _]; [|assumption].
        now apply holds_read_data in Hc.
      * apply (close_fd_holds w2 path k (String.substring 0 n data)) in Eclose as [Hc _];
          [|exact Hpart].
        apply holds_read_data in Hc. right; eauto.
    + intros [= <- <-]. cbn. left. now apply m_open_failed in Eopen.
Qed.

(** ** The code on concrete inputs *)

(** C1, counterexample: the file /a/f holds [hello]; the write of
    [new data] fails after two characters.  The call reports the error and
    the file holds [ne], which is neither the previous content nor the
    data. *)
Lemma writeFile_not_atomic :
  let st := sample [None; fails_after 2 EIO] in
  let after_call := writeFile "/a/f" "new data" None st in
  read_data "/a/f" (world st) = Ok "hello"
  ∧ outcome after_call = Some (Err EIO)
  ∧ (λ st', read_data "/a/f" (world st')) <$> final after_call = Some (Ok "ne").
Proof. vm_compute. auto. Qed.

Lemma writeFile_content_witness :
  ∃ st', writeFile "/a/f" "new data" None (sample []) = Some (Ok tt, st')
         ∧ read_data "/a/f" (world st') = Ok "new data".
Proof.
  eexists. split; [vm_compute; reflexivity|].
  apply (writeFile_content "/a/f" "new data" None (sample []) (Ok tt));
    [reflexivity | reflexivity | vm_compute; reflexivity].
Defined.

(** C2, counterexample: two calls of [writeFile] on /a/f, the second
    made while the first write is running and [canFlush] holds.  The queue
    of the path keeps the second task waiting and starts it when the first
    has settled.  [fdatasync] fails in the first write, which succeeds
    although stable storage still holds [hello], and clears [canFlush]; the
    second write starts with [canFlush] cleared and succeeds with no
    [fdatasync] at all. *)
Lemma writeFile_without_flush :
  let st := sample [None; None; fails EIO] in
  let calls := WriteQueue.q_run (P := linux)
                 [WriteQueue.Submit "/a/f" "new"; WriteQueue.Submit "/a/f" "newer"] in
  let first := writeFile "/a/f" "new" None st in
  let second := from_option (writeFile "/a/f" "newer" None) None (final first) in
  canFlush st = true
  ∧ map WriteQueue.task_id (WriteQueue.active calls) = [0%nat]
  ∧ map WriteQueue.task_id (WriteQueue.pending calls "/a/f") = [1%nat]
  ∧ map WriteQueue.task_id (WriteQueue.active (WriteQueue.settle 0 calls)) = [1%nat]
  ∧ outcome first = Some (Ok tt)
  ∧ (λ st', durable_data "/a/f" (world st')) <$> final first = Some (Ok "hello")
  ∧ canFlush <$> final first = Some false
  ∧ outcome second = Some (Ok tt)
  ∧ (λ st', durable_data "/a/f" (world st')) <$> final second = Some (Ok "hello")
  ∧ (λ st', map op (trace st')) <$> final second
    = Some [OpOpen "/a/f" "w" 438; OpWriteFd 3 "new"; OpFdatasync 3; OpWarn; OpClose 3;
            OpWritePath "/a/f" "newer" 438 "w"].
Proof. vm_compute. repeat split. Qed.

Lemma writeFile_flush_spec_witness :
  ∃ st', writeFile "/a/f" "new" None (sample []) = Some (Ok tt, st')
    ∧ (∃ fd sync,
         trace st' = flushed_write "/a/f" "new" (ensureWriteOptions None) fd sync
         ∧ canFlush st' = match sync with Some _ => false | None => true end)
    ∧ durable_data "/a/f" (world st') = Ok "new".
Proof.
  eexists. split; [vm_compute; reflexivity|]. split; [|vm_compute; reflexivity].
  apply (writeFile_flush_spec "/a/f" "new" None (sample []));
    [left; vm_compute; reflexivity | reflexivity].
Defined.

Lemma writeFileSync_after_failed_flush :
  ∃ st', writeFileSync "/a/f" "newer" None
           (from_option id (sample []) (final (writeFile "/a/f" "new" None
                                                 (sample [None; None; fails EIO]))))
         = Some (Ok tt, st')
    ∧ map op (trace st')
      = [OpOpen "/a/f" "w" 438; OpWriteFd 3 "new"; OpFdatasync 3; OpWarn; OpClose 3;
         OpWritePath "/a/f" "newer" 438 "w"].
Proof. eexists. split; vm_compute; reflexivity. Qed.

Section OnLinux.
Local Existing Instance linux.

Lemma SymlinkSupport_stat_spec_witness :
  outcome (SymlinkSupport_stat "/a/f" (sample []))
  = Some (Ok {| stat := {| kind := KFile; mode := 420; atime := 0; mtime := 0 |};
                symbolicLink := None |})
  ∧ outcome (SymlinkSupport_stat "/a/l" (sample []))
    = Some (Ok {| stat := {| kind := KFile; mode := 420; atime := 0; mtime := 0 |};
                  symbolicLink := Some false |})
  ∧ outcome (SymlinkSupport_stat "/a/d" (sample []))
    = Some (Ok {| stat := {| kind := KSymbolicLink; mode := 511; atime := 0; mtime := 0 |};
                  symbolicLink := Some true |}).
Proof.
  split; [|split].
  - pose proof (SymlinkSupport_stat_spec (P := linux) (S := model_sys) "/a/f" (sample []) _ _
                  ltac:(vm_compute; reflexivity)) as (H & _ & _).
    rewrite (H eq_refl). reflexivity.
  - pose proof (SymlinkSupport_stat_spec (P := linux) (S := model_sys) "/a/l" (sample []) _ _
                  ltac:(vm_compute; reflexivity)) as (_ & H & _).
    rewrite (H eq_refl _ _ ltac:(vm_compute; reflexivity)). reflexivity.
  - pose proof (SymlinkSupport_stat_spec (P := linux) (S := model_sys) "/a/d" (sample []) _ _
                  ltac:(vm_compute; reflexivity)) as (_ & _ & H).
    rewrite (H eq_refl _ _ ltac:(vm_compute; reflexivity) eq_refl). reflexivity.
Defined.

(** C8 on the root of the model. *)
Lemma rimraf_refuses_root_witness :
  rimraf "/" MOVE (sample []) = Some (Err refuse_root, sample [])
  ∧ rimraf "/" UNLINK (sample []) = Some (Err refuse_root, sample [])
  ∧ rimrafSync "/" (sample []) = Some (Err refuse_root, sample []).
Proof.
  split; [|split].
  - apply (rimraf_refuses_root "/" MOVE). reflexivity.
  - apply (rimraf_refuses_root "/" UNLINK). reflexivity.
  - apply (rimraf_refuses_root "/" MOVE). reflexivity.
Defined.

(** On the root [rimraf] in MOVE mode renames nothing and starts no
    deletion: it throws, and the state is the one before the call, its trace
    empty. *)
Lemma rimraf_move_root_no_rename :
  rimraf "/" MOVE (sample []) = Some (Err refuse_root, sample [])
  ∧ trace (sample []) = [].
Proof. split; reflexivity. Qed.

(** The generator of the model gives a name it has not given before. *)
Lemma m_uuid_issues w u w' :
  m_uuid w = (u, w') →
  (u ∉ m_issued w) ∧ ∀ v, v ∈ m_issued w' ↔ v = u ∨ v ∈ m_issued w.
Proof.
  unfold m_uuid, m_issued. intros [= <- <-]. cbn [uuid_counter]. split.
  - intros Hin. apply list_elem_of_fmap in Hin as (i & Heq & Hi).
    apply (String.app_inj "uuid-") in Heq. apply (inj pretty) in Heq.
    subst i. apply elem_of_seq in Hi. lia.
  - intros v. rewrite seq_S, map_app, elem_of_app. cbn.
    rewrite list_elem_of_singleton. tauto.
Qed.

(** /a is moved to /tmp/uuid-0, the first name of the generator, and its
    deletion is left running; when the rename fails with EXDEV, /a is deleted
    in place. *)
Lemma rimraf_move_steps_witness :
  ((("uuid-0" ∉ m_issued (world (sample [])))
    ∧ "uuid-0" ∈ m_issued (snd (m_uuid (world (sample [])))))
   ∧ rimraf "/a" MOVE (sample [])
     = Some (Ok tt,
             {| world := {| root := NDir 493
                                      [("tmp",
                                        NDir 511
                                          [("uuid-0",
                                            NDir 493
                                              [("f", NFile "hello" "hello" 420 0 0);
                                               ("l", NLink ["a"; "f"]);
                                               ("d", NLink ["a"; "gone"])])])];
                            open_files := ∅; next_fd := 3; plan := []; clock := 1000;
                            uuid_counter := 1; link_max := 40; umask := 18 |};
                canFlush := true; handled := ∅;
                detached := ["/tmp/uuid-0"];
                trace := [passed (OpUuid "uuid-0");
                          passed (OpRename "/a" "/tmp/uuid-0");
                          passed (OpDetachRmdir "/tmp/uuid-0")] |})
   ∧ ∀ (sta : State World) rest,
       detached sta = "/tmp/uuid-0" :: rest →
       ∃ rd w,
         m_rmdir "/tmp/uuid-0" (world sta) = (rd, w)
         ∧ settle_detached sta
           = Some (Ok tt,
                   {| world := w; canFlush := canFlush sta; handled := handled sta;
                      detached := rest;
                      trace := trace sta
                               ++ [{| op := OpRmdir "/tmp/uuid-0";
                                      failure := failure_of rd |}] |}))
  ∧ rimraf "/a" MOVE (sample [fails EXDEV])
    = rimrafUnlink "/a"
        (after (OpRename "/a" "/tmp/uuid-0") (Some EXDEV)
           (snd (m_rename "/a" "/tmp/uuid-0"
                   (snd (m_uuid (world (sample [fails EXDEV]))))))
           (after (OpUuid "uuid-0") None (snd (m_uuid (world (sample [fails EXDEV]))))
              (sample [fails EXDEV]))).
Proof.
  split.
  - pose proof (rimraf_move_steps (P := linux) (S := model_sys) m_issued m_uuid_issues
                  "/a" (sample []) "uuid-0" _ (Ok tt) _ eq_refl
                  ltac:(vm_compute; reflexivity) ltac:(vm_compute; reflexivity)) as H.
    exact H.
  - pose proof (rimraf_move_steps (P := linux) (S := model_sys) m_issued m_uuid_issues
                  "/a" (sample [fails EXDEV]) "uuid-0" _ (Err EXDEV) _ eq_refl
                  ltac:(vm_compute; reflexivity) ltac:(vm_compute; reflexivity)) as [_ H].
    exact H.
Defined.



End OnLinux.

(** ** The normalizer of the model *)

Lemma compose_acute_plain c rest :
  starts_acute (String c rest) = false →
  compose_acute (String c rest) = String c (compose_acute rest).
Proof.
  intros H. destruct rest as [|c1 [|c2 rest]]; try reflexivity.
  cbn [compose_acute]. now rewrite H.
Qed.

Lemma compose_acute_composed c rest :
  starts_acute (String c rest) = true →
  ∃ r, rest = String "204" (String "129" r)
       ∧ c = "e"%char
       ∧ compose_acute (String c rest) = String "195" (String "169" (compose_acute r)).
Proof.
  intros H. destruct rest as [|c1 [|c2 rest]]; try discriminate.
  exists rest. cbn [compose_acute]. rewrite H.
  cbn in H. apply andb_true_iff in H as [H H2]. apply andb_true_iff in H as [H0 H1].
  apply Ascii.eqb_eq in H0, H1, H2. subst. auto.
Qed.

(** The first character of the output is the first of the input, unless a
    composition happened there. *)
Lemma compose_acute_head s c out :
  compose_acute s = String c out → c ≠ "195"%char →
  ∃ rest, s = String c rest ∧ out = compose_acute rest.
Proof.
  intros H Hc. destruct s as [|c0 rest]; [discriminate|].
  destruct (starts_acute (String c0 rest)) eqn:E.
  - apply compose_acute_composed in E as (r & _ & _ & E). rewrite E in H.
    injection H as <- _. congruence.
  - rewrite (compose_acute_plain _ _ E) in H. injection H as <- <-. eauto.
Qed.

Lemma starts_acute_composed c rest :
  starts_acute (String c rest) = false →
  starts_acute (String c (compose_acute rest)) = false.
Proof.
  intros H. destruct (starts_acute (String c (compose_acute rest))) eqn:E; [|reflexivity].
  apply compose_acute_composed in E as (r & Hout & -> & _).
  apply compose_acute_head in Hout as (rest1 & -> & Hout); [|discriminate].
  symmetry in Hout.
  apply compose_acute_head in Hout as (rest2 & -> & _); [|discriminate].
  discriminate H.
Qed.

Lemma starts_acute_other c rest : c ≠ "e"%char → starts_acute (String c rest) = false.
Proof.
  intros Hc. destruct rest as [|c1 [|c2 r]]; try reflexivity.
  cbn. apply Ascii.eqb_neq in Hc. now rewrite Hc.
Qed.

Lemma compose_acute_idempotent_upto (n : nat) s :
  (String.length s ≤ n)%nat → compose_acute (compose_acute s) = compose_acute s.
Proof.
  revert s. induction n as [|n IH]; intros s Hlen.
  - destruct s; [reflexivity | cbn in Hlen; lia].
  - destruct s as [|c rest]; [reflexivity|].
    destruct (starts_acute (String c rest)) eqn:E.
    + apply compose_acute_composed in E as (r & -> & -> & ->).
      rewrite compose_acute_plain by (now apply starts_acute_other).
      rewrite compose_acute_plain by (now apply starts_acute_other).
      rewrite IH; [reflexivity | cbn in Hlen; lia].
    + rewrite (compose_acute_plain _ _ E).
      rewrite compose_acute_plain by (now apply starts_acute_composed).
      rewrite IH; [reflexivity | cbn in Hlen; lia].
Qed.

Lemma compose_acute_idempotent s : compose_acute (compose_acute s) = compose_acute s.
Proof. apply (compose_acute_idempotent_upto (String.length s)). lia. Qed.

Lemma readdir_names_witness :
  (outcome (readdir (P := macos) "/n" names_state) = Some (Ok [cafe_nfc; "plain"])
   ∧ ∀ names st', readdir (P := macos) "/n" names_state = Some (Ok names, st') →
       Forall (isNFC (P := macos)) names)
  ∧ outcome (readdir (P := linux) "/n" names_state) = Some (Ok [cafe_nfd; "plain"]).
Proof.
  destruct (readdir_names (P := macos) (S := model_sys) "/n" names_state) as [Hmac _].
  destruct (readdir_names (P := linux) (S := model_sys) "/n" names_state) as [_ Hlinux].
  specialize (Hmac eq_refl compose_acute_idempotent) as (Hnames & _ & _).
  specialize (Hlinux eq_refl) as (Hraw & _ & _).
  split; [split|].
  - vm_compute. reflexivity.
  - exact Hnames.
  - rewrite Hraw. vm_compute. reflexivity.
Defined.

(** ** copy and a cycle of symbolic links *)

Lemma string_length_app (s t : string) :
  String.length (s ++ t) = (String.length s + String.length t)%nat.
Proof.
  induction s as [|c s IH]; [reflexivity|].
  change (String c s ++ t) with (String c (s ++ t)). cbn. now rewrite IH.
Qed.

Lemma faulty_no_plan {A} (f : World → Res A * World) w :
  plan w = [] → faulty f w = f w.
Proof.
  intros Hp. unfold faulty, next_fault. rewrite Hp. reflexivity.
Qed.

Lemma put_cons m es c c2 (rest : Path) v :
  put (NDir m es) (c :: c2 :: rest) v
  = match alist_lookup c es with
    | Some child => NDir m (alist_insert c (put child (c2 :: rest) v) es)
    | None => NDir m es
    end.
Proof. reflexivity. Qed.

Lemma bind_Some {W A B} (m : M W A) (k : A → M W B) st a st' :
  m st = Some (Ok a, st') → bind m k st = k a st'.
Proof. intros H. unfold bind. now rewrite H. Qed.

Lemma bind_None {W A B} (m : M W A) (k : A → M W B) st :
  m st = None → bind m k st = None.
Proof. intros H. unfold bind. now rewrite H. Qed.

Section CopyFacts.
Context `{P : Platform} {W : Type} `{S : Sys W}.

Implicit Types (st : State W) (path source target : string).

(** A source path that is recorded in [handledSources] is not processed
    again: [copy] returns at once, with no call to the file system. *)
Lemma copy_recorded_source fuel source target r (st : State W) :
  object_of st r !! source = Some true →
  copy (Datatypes.S fuel) source target (Some r) st = Some (Ok tt, st).
Proof.
  intros H. cbn [copy]. unfold bind, ret, get_field. now rewrite H.
Qed.

(** *** copy: what a run keeps *)

Lemma copy_mode_masked (m : Z) : (0 ≤ Z.land m COPY_MODE_MASK ≤ 511)%Z.
Proof.
  change COPY_MODE_MASK with (Z.ones 9). rewrite Z.land_ones by lia.
  pose proof (Z.mod_pos_bound m (2 ^ 9) ltac:(lia)). change (2 ^ 9)%Z with 512%Z in *.
  lia.
Qed.

Lemma copy_post_refl r st : copy_post r st st [].
Proof.
  unfold copy_post, extends, modes_masked. cbn.
  rewrite app_nil_r. repeat split; auto using NoDup_nil_2.
  - intros p Hp. inversion Hp.
  - intros [?|Hp]; [assumption | inversion Hp].
Qed.

Lemma copy_post_trans r st st1 st2 evs1 evs2 :
  copy_post r st st1 evs1 → copy_post r st1 st2 evs2 →
  copy_post r st st2 (evs1 ++ evs2).
Proof.
  intros (He1 & Hm1 & Hn1 & Hf1 & Hr1) (He2 & Hm2 & Hn2 & Hf2 & Hr2).
  unfold copy_post, extends, modes_masked, lstat_paths in *.
  rewrite omap_app. repeat split.
  - now rewrite He2, He1, app_assoc.
  - now apply Forall_app.
  - apply NoDup_app. repeat split; [assumption | | assumption].
    intros p Hp1 Hp2. apply (Hf2 p Hp2). apply Hr1. now right.
  - intros p Hp Hrec. apply elem_of_app in Hp as [Hp|Hp].
    + now apply (Hf1 p).
    + apply (Hf2 p Hp). apply Hr1. now left.
  - intros Hrec. apply Hr2 in Hrec as [Hrec|Hp].
    + apply Hr1 in Hrec as [?|?]; [now left | right; apply elem_of_app; now left].
    + right. apply elem_of_app. now right.
  - intros [Hrec|Hp].
    + apply Hr2. left. apply Hr1. now left.
    + apply elem_of_app in Hp as [Hp|Hp]; apply Hr2.
      * left. apply Hr1. now right.
      * now right.
Qed.

(** Calls that go to no [lstat], give masked modes and leave the objects
    alone. *)
Lemma copy_post_quiet r st st' evs :
  extends st st' evs → modes_masked evs → lstat_paths evs = [] →
  handled st' = handled st →
  copy_post r st st' evs.
Proof.
  intros He Hm Hl Hh. unfold copy_post, recorded, object_of.
  rewrite Hl, Hh. repeat split; auto using NoDup_nil_2.
  - intros p Hp. inversion Hp.
  - intros [?|Hp]; [assumption | inversion Hp].
Qed.

Lemma call_run {A} (o : Op) (f : W → Res A * W) st r st' :
  call o f st = Some (r, st') →
  extends st st' [{| op := o; failure := failure_of r |}] ∧ handled st' = handled st.
Proof.
  unfold call, extends. destruct (f (world st)) as [r0 w]. intros [= <- <-]. auto.
Qed.

Lemma SymlinkSupport_stat_run path st r st' :
  SymlinkSupport_stat path st = Some (r, st') →
  ∃ evs, extends st st' evs ∧ lstat_paths evs = [path] ∧ modes_masked evs
         ∧ handled st' = handled st.
Proof.
  unfold SymlinkSupport_stat, bind, try_catch, call, ret, throw, extends, modes_masked.
  repeat (match goal with
          | |- context [let '(_, _) := ?x in _] => destruct x as [[?|?] ?]
          | |- context [if ?b then _ else _] => destruct b
          | |- context [match ?o with Some _ => _ | None => _ end] => destruct o
          end; cbn);
    intros [= <- <-]; cbn; rewrite <- ?app_assoc; eexists;
    (split; [reflexivity|]); cbn; repeat split; repeat constructor.
Qed.

Lemma doCopyFile_run r source target (m : Z) st res st' :
  (0 ≤ m ≤ 511)%Z →
  doCopyFile source target m st = Some (res, st') →
  ∃ evs, copy_post r st st' evs.
Proof.
  intros Hm. unfold doCopyFile, bind, call.
  destruct (fs_pipe source target m (world st)) as [[[]|e] w1]; cbn.
  - destruct (fs_chmod target m w1) as [rc w2]. intros [= <- <-].
    eexists. apply copy_post_quiet; unfold extends; cbn;
      [rewrite <- app_assoc; reflexivity | | reflexivity | reflexivity].
    constructor; [exact Hm | constructor; [exact Hm | constructor]].
  - intros [= <- <-].
    eexists. apply copy_post_quiet; unfold extends; cbn;
      [reflexivity | | reflexivity | reflexivity].
    constructor; [exact Hm | constructor].
Qed.

Lemma for_each_run {A} r (body : A → M W unit) (l : list A) :
  (∀ x st res st', body x st = Some (res, st') → ∃ evs, copy_post r st st' evs) →
  ∀ st res st', for_each l body st = Some (res, st') → ∃ evs, copy_post r st st' evs.
Proof.
  intros Hbody. induction l as [|x l IH]; intros st res st'; cbn [for_each].
  - intros [= <- <-]. exists []. apply copy_post_refl.
  - unfold bind. destruct (body x st) as [[[[]|e] st1]|] eqn:Ex; [| |discriminate].
    + intros Hrest. destruct (Hbody _ _ _ _ Ex) as [evs1 H1].
      destruct (IH _ _ _ Hrest) as [evs2 H2].
      exists (evs1 ++ evs2)%list. eapply copy_post_trans; eassumption.
    + intros [= <- <-]. eapply Hbody. eassumption.
Qed.

(** Every run of [copy] on an object keeps [copy_post], and its source is
    recorded, before the run or by it. *)
Lemma copy_run fuel : ∀ source target r st res st',
  copy fuel source target (Some r) st = Some (res, st') →
  ∃ evs, copy_post r st st' evs
         ∧ (recorded st r source ∨ source ∈ lstat_paths evs).
Proof.
  induction fuel as [|fuel IH]; intros source target r st res st'; [discriminate|].
  cbn [copy]. rewrite (bind_Some _ _ st r st) by reflexivity.
  unfold bind at 1. unfold get_field at 1.
  destruct (object_of st r !! source) as [[]|] eqn:Hseen;
    cbn [default from_option id].
  { intros [= <- <-]. exists []. split; [apply copy_post_refl | now left]. }
  all: assert (¬ recorded st r source) as Hnew
    by (unfold recorded; rewrite Hseen; discriminate).
  all: rewrite (bind_Some _ _ _ tt _ eq_refl).
  all: match goal with |- bind _ _ ?s = _ → _ => set (st1 := s) end.
  all: assert (∀ p, recorded st1 r p ↔ recorded st r p ∨ p = source) as Hst1
    by (intros p; unfold recorded, object_of; subst st1; cbn;
        rewrite lookup_insert_eq; cbn;
        destruct (decide (source = p)) as [->|Hne];
        [rewrite lookup_insert_eq; split; auto
        | rewrite lookup_insert_ne by assumption; split; [auto|];
          intros [?|?]; [assumption | congruence]]).
  all: unfold bind at 1.
  all: destruct (SymlinkSupport_stat source st1) as [[rs st2]|] eqn:Estat;
    [|discriminate].
  all: apply SymlinkSupport_stat_run in Estat as (evs & He & Hl & Hm & Hh).
  all: assert (copy_post r st st2 evs) as Hhead
    by (unfold copy_post; rewrite Hl; repeat split;
        [ exact He | exact Hm | apply NoDup_singleton
        | intros p Hp; apply list_elem_of_singleton in Hp; now subst p
        | intros Hp; unfold recorded, object_of in Hp; rewrite Hh in Hp;
          apply Hst1 in Hp as [?|?];
          [now left | right; now apply list_elem_of_singleton]
        | intros Hp; unfold recorded, object_of; rewrite Hh; apply Hst1;
          destruct Hp as [?|Hp];
          [now left | right; now apply list_elem_of_singleton in Hp] ]).
  all: intros Hrest.
  all: enough (∃ evs2, copy_post r st2 st' evs2) as [evs2 H2]
    by (exists (evs ++ evs2)%list; split;
        [eapply copy_post_trans; eassumption
        | right; unfold lstat_paths in *; rewrite omap_app, Hl;
          apply elem_of_app; left; now apply list_elem_of_singleton]).
  all: revert Hrest; destruct rs as [s|e];
    [|intros [= <- <-]; exists []; apply copy_post_refl].
  all: destruct (from_option id false (symbolicLink s));
    [intros [= <- <-]; exists []; apply copy_post_refl|].
  all: destruct (negb (isDirectory (stat s)));
    [intros Hfile; eapply doCopyFile_run; [apply copy_mode_masked | exact Hfile]|].
  all: unfold bind at 1.
  all: destruct (call _ _ st2) as [[rm st3]|] eqn:Emk; [|discriminate].
  all: apply call_run in Emk as [He3 Hh3].
  all: assert (copy_post r st2 st3
                 [{| op := OpMkdir target (Z.land (mode (stat s)) COPY_MODE_MASK);
                     failure := failure_of rm |}]) as Hmk
    by (apply copy_post_quiet; [exact He3 | | reflexivity | exact Hh3];
        constructor; [cbn; apply copy_mode_masked | constructor]).
  all: destruct rm as [[]|e]; [|intros [= <- <-]; eauto].
  all: unfold bind at 1; unfold readdir at 1; unfold bind at 1.
  all: destruct (call _ _ st3) as [[rd st4]|] eqn:Erd; [|discriminate].
  all: apply call_run in Erd as [He4 Hh4].
  all: assert (copy_post r st3 st4
                 [{| op := OpReaddir source; failure := failure_of rd |}]) as Hrd
    by (apply copy_post_quiet; [exact He4 | | reflexivity | exact Hh4];
        repeat constructor).
  all: destruct rd as [files|e];
    [|intros [= <- <-]; eexists; eapply copy_post_trans; eassumption].
  all: cbn [ret]; intros Hloop.
  all: eapply (for_each_run r) in Hloop as [evs5 H5];
    [|intros file st0 res0 st0' Hcopy;
      destruct (IH _ _ _ _ _ _ Hcopy) as (evs0 & H0 & _); eauto].
  all: eexists; eapply copy_post_trans; [exact Hmk|];
    eapply copy_post_trans; [exact Hrd | exact H5].
Qed.

(** A call without [handledSourcesIn] is the call on a new, empty object. *)
Lemma copy_new_object fuel source target st :
  copy fuel source target None st
  = copy fuel source target (Some (fresh_ref (handled st)))
      {| world := world st; canFlush := canFlush st;
         handled := <[fresh_ref (handled st) := ∅]> (handled st);
         detached := detached st; trace := trace st |}.
Proof. destruct fuel; reflexivity. Qed.

Lemma copy_run_any fuel source target hin st res st' :
  copy fuel source target hin st = Some (res, st') →
  ∃ evs, extends st st' evs ∧ modes_masked evs ∧ NoDup (lstat_paths evs).
Proof.
  destruct hin as [r|].
  - intros H. apply copy_run in H as (evs & (He & Hm & Hn & _) & _). eauto.
  - rewrite copy_new_object. intros H.
    apply copy_run in H as (evs & (He & Hm & Hn & _) & _). eauto.
Qed.

(** *** copy returns *)

Lemma SymlinkSupport_stat_refused path (st : State W) :
  (∀ w, ∃ e w', fs_lstat path w = (Err e, w')) →
  (∀ w, ∃ e w', fs_stat path w = (Err e, w')) →
  ∃ e st', SymlinkSupport_stat path st = Some (Err e, st').
Proof.
  intros Hl Hs. unfold SymlinkSupport_stat, bind, try_catch, call, ret, throw.
  destruct (Hl (world st)) as (e1 & w1 & ->). cbn.
  destruct (Hs w1) as (e2 & w2 & ->). cbn. eauto.
Qed.

Lemma doCopyFile_total source target m (st : State W) :
  ∃ res st', doCopyFile source target m st = Some (res, st').
Proof.
  unfold doCopyFile, bind, call.
  destruct (fs_pipe source target m (world st)) as [[[]|e] w1]; cbn; [|eauto].
  destruct (fs_chmod target m w1) as [rc w2]. eauto.
Qed.

Lemma for_each_total {A} (body : A → M W unit) (l : list A) :
  (∀ x st, x ∈ l → ∃ res st', body x st = Some (res, st')) →
  ∀ st, ∃ res st', for_each l body st = Some (res, st').
Proof.
  induction l as [|x l IH]; intros Hbody st; cbn [for_each]; [unfold ret; eauto|].
  assert (x ∈ x :: l) as Hx by left.
  unfold bind. destruct (Hbody x st Hx) as ([[]|e] & st1 & ->); [|eauto].
  apply IH. intros y st0 Hy. apply Hbody. now right.
Qed.

Section CopyTerminates.
Variable size : string → nat.
Variable limit : nat.
Hypothesis Hlstat : ∀ p w, (limit < size p)%nat → ∃ e w', fs_lstat p w = (Err e, w').
Hypothesis Hstat : ∀ p w, (limit < size p)%nat → ∃ e w', fs_stat p w = (Err e, w').
Hypothesis Hgrow : ∀ p w names w' name,
  fs_readdir p w = (Ok names, w') → name ∈ handleDirectoryChildren names →
  (size p < size (join p name))%nat.

(** The recursion of [copy] ends at the latest where the system refuses
    the path: each level is one name deeper. *)
Lemma copy_total fuel : ∀ source target r (st : State W),
  (limit + 1 < size source + fuel)%nat → (0 < fuel)%nat →
  ∃ res st', copy fuel source target (Some r) st = Some (res, st').
Proof.
  induction fuel as [|fuel IH]; intros source target r st Hsize Hfuel; [lia|].
  cbn [copy]. rewrite (bind_Some _ _ st r st) by reflexivity.
  unfold bind at 1. unfold get_field at 1.
  destruct (default false (object_of st r !! source)); [unfold ret; eauto|].
  rewrite (bind_Some _ _ _ tt _ eq_refl).
  match goal with |- context [bind _ _ ?s] => generalize s end. intros st1.
  unfold bind at 1.
  destruct (le_lt_dec (size source) limit) as [Hle|Hgt].
  2: { destruct (SymlinkSupport_stat_refused source st1) as (e & st2 & ->);
         [intros w; now apply Hlstat | intros w; now apply Hstat | eauto]. }
  destruct (SymlinkSupport_stat_total source st1) as ([s|e] & st2 & ->); [|eauto].
  destruct (from_option id false (symbolicLink s)); [unfold ret; eauto|].
  destruct (negb (isDirectory (stat s))); [apply doCopyFile_total|].
  unfold bind at 1, call at 1.
  destruct (fs_mkdir target _ (world st2)) as [[[]|e] w3]; [|eauto].
  unfold bind at 1, readdir at 1, bind at 1, call at 1.
  destruct (fs_readdir source _) as [[names|e] w4] eqn:Erd; [|eauto].
  cbn [ret]. apply for_each_total. intros file st0 Hfile.
  apply IH; [|lia].
  pose proof (Hgrow source _ names w4 file Erd Hfile). lia.
Qed.

(** C9: on every system that refuses the paths beyond some size, where
    the name of an entry makes a path longer, [copy] returns, with or
    without an error, when its recursion may go as deep as that size; on a
    cycle of symbolic links too, where every level is a path one name longer.
    In the run no source path is given to [lstat] twice.  On a
    [handledSources] object the source is recorded when the run ends, and a
    source that was recorded before makes [copy] return at once, the state
    as it was. *)
Theorem copy_terminates fuel source target hin (st : State W) :
  (limit + 1 < fuel)%nat →
  ∃ res st',
    copy fuel source target hin st = Some (res, st')
    ∧ (∃ evs, extends st st' evs ∧ NoDup (lstat_paths evs))
    ∧ match hin with
      | Some r =>
          recorded st' r source ∧ (recorded st r source → res = Ok tt ∧ st' = st)
      | None => True
      end.
Proof.
  intros Hfuel. destruct hin as [r|].
  - destruct (copy_total fuel source target r st) as (res & st' & Hc); [lia..|].
    exists res, st'. split; [exact Hc|].
    destruct (copy_run _ _ _ _ _ _ _ Hc) as (evs & (He & _ & Hn & _ & Hr) & Hsrc).
    split; [eauto|]. split; [apply Hr; exact Hsrc|].
    intros Hrec. destruct fuel as [|fuel]; [lia|].
    rewrite (copy_recorded_source fuel source target r st Hrec) in Hc.
    now injection Hc as <- <-.
  - rewrite copy_new_object.
    match goal with |- context [copy _ _ _ (Some ?r0) ?s0] =>
      destruct (copy_total fuel source target r0 s0) as (res & st' & Hc); [lia..|]
    end.
    exists res, st'. split; [exact Hc|]. split; [|exact I].
    destruct (copy_run _ _ _ _ _ _ _ Hc) as (evs & (He & _ & Hn & _) & _).
    exists evs. split; [exact He | exact Hn].
Qed.

End CopyTerminates.

End CopyFacts.

(** The directory /a holds the link /a/l to /a, paths of more than 4096
    characters are refused and a path may go through 40 links: [copy]
    returns, with the error ELOOP. *)
Lemma copy_terminates_witness :
  let st := initial (cycle_world 40) in
  ∃ st',
    copy (P := linux) (S := path_max_sys 4096 model_sys) 4098 "/a" "/t" (Some 0%nat) st
    = Some (Err ELOOP, st')
    ∧ (∃ evs, extends st st' evs ∧ NoDup (lstat_paths evs))
    ∧ recorded st' 0 "/a".
Proof.
  intros st.
  destruct (copy_terminates (P := linux) (S := path_max_sys 4096 model_sys)
              String.length 4096) with (fuel := 4098%nat) (source := "/a")
              (target := "/t") (hin := Some 0%nat) (st := st)
    as (res & st' & Hc & Hn & Hr & _).
  - intros p w Hp. cbn [fs_lstat path_max_sys]. unfold refuses_long.
    apply Nat.ltb_lt in Hp. rewrite Hp. eauto.
  - intros p w Hp. cbn [fs_stat path_max_sys]. unfold refuses_long.
    apply Nat.ltb_lt in Hp. rewrite Hp. eauto.
  - intros p w names w' name _ _. cbn [join linux]. unfold posix_join.
    rewrite !string_length_app. cbn. lia.
  - lia.
  - assert (res = Err ELOOP) as -> by (vm_compute in Hc; now injection Hc as <- _).
    exists st'. auto.
Defined.

(** On that tree it is the limit of 40 links per path that ends the run
    of [copy]: with the error ELOOP, after 41 directories have been made below
    /t for a tree of one directory and one link. *)
Lemma copy_symlink_cycle_eloop :
  let done := copy (P := linux) 100 "/a" "/t" None (initial (cycle_world 40)) in
  outcome done = Some (Err ELOOP)
  ∧ (λ st, List.length
             (List.filter (λ e, match op e with OpMkdir _ _ => true | _ => false end)
                (trace st))) <$> final done = Some 41%nat.
Proof. vm_compute. auto. Qed.

(** The copy of the directory /a into itself, to /a/b, with no link in
    the tree: every level finds the directory that the level before made.
    On the model, where paths have no limit of length, the recursion is
    still going on at the 60th level; on a system that refuses the paths of
    more than 64 characters it ends with ENAMETOOLONG. *)
Lemma copy_into_itself :
  outcome (copy (P := linux) 60 "/a" "/a/b" None plain_state) = None
  ∧ outcome (copy (P := linux) (S := path_max_sys 64 model_sys) 66 "/a" "/a/b" None
               plain_state)
    = Some (Err ENAMETOOLONG).
Proof. vm_compute. auto. Qed.

(** On the model a flush that succeeded has put the data on stable
    storage when the call returns. *)
Lemma writeFile_durable path data options (st : State World) st' :
  is_dir (root (world st)) = true →
  ens_flag (ensureWriteOptions options) = "w" →
  canFlush st = true →
  writeFile path data options st = Some (Ok tt, st') →
  canFlush st' = true →
  durable_data path (world st') = Ok data.
Proof.
  intros Hroot Hflag Hflush.
  unfold writeFile, doWriteFileAndFlush, bind, attempt, call, get_canFlush,
    set_canFlush, console_warn, ret, throw.
  rewrite Hflag, Hflush. cbn [fs_open fs_writeFile_fd fs_fdatasync fs_close model_sys negb].
  destruct (m_open path "w" (ens_mode (ensureWriteOptions options)) (world st))
    as [[fd|e] w1] eqn:Eopen; cbn; [|discriminate].
  apply m_open_w in Eopen as (k & Hholds & Hfd); [|exact Hroot].
  destruct (m_writeFile_fd fd data w1) as [rw w2] eqn:Ewrite.
  apply (m_writeFile_fd_w w1 path k) in Ewrite as (n & Hpart & Hall & Hon);
    [|assumption..].
  destruct rw as [[]|ew]; cbn.
  2: { destruct (m_close fd w2) as [[[]|?] ?]; discriminate. }
  specialize (Hall eq_refl).
  destruct (m_fdatasync fd w2) as [rs w3] eqn:Esync.
  apply (m_fdatasync_holds w2 path k data) in Esync as (Hs & Hon' & Hdur);
    [|assumption..].
  destruct rs as [[]|es]; cbn;
    destruct (m_close fd w3) as [rc w4] eqn:Eclose;
    apply (m_close_holds w3 path k data) in Eclose as [Hc Hsame]; try assumption;
    destruct rc as [[]|ec]; cbn; intros [= <-]; cbn; try discriminate.
  intros _. destruct (Hdur eq_refl) as (m & a & t & Hfind).
  destruct Hc as (Hres & _). unfold durable_data. now rewrite Hres, Hsame, Hfind.
Qed.

(** [fileExists] and [dirExists] on the sample tree: a file, a link to a
    file, a dangling link, a path that does not exist, a directory. *)
Lemma SymlinkSupport_exists_examples :
  let ask (f : string → M World bool) path := outcome (f path (sample [])) in
  ask (SymlinkSupport_fileExists (P := linux)) "/a/f" = Some (Ok true)
  ∧ ask (SymlinkSupport_fileExists (P := linux)) "/a/l" = Some (Ok true)
  ∧ ask (SymlinkSupport_fileExists (P := linux)) "/a/d" = Some (Ok false)
  ∧ ask (SymlinkSupport_fileExists (P := linux)) "/a/none" = Some (Ok false)
  ∧ ask (SymlinkSupport_fileExists (P := linux)) "/a" = Some (Ok false)
  ∧ ask (SymlinkSupport_dirExists (P := linux)) "/a" = Some (Ok true)
  ∧ ask (SymlinkSupport_dirExists (P := linux)) "/a/d" = Some (Ok false)
  ∧ outcome (SymlinkSupport_fileExists (P := linux) "/a/f" (sample [fails EIO; fails EIO]))
    = Some (Ok false).
Proof. vm_compute. repeat split. Qed.

(** ** Further properties of pfs.ts, over any platform and any system *)

Section PfsMore.
Context `{P : Platform} {W : Type} `{S : Sys W}.

Implicit Types (st : State W) (path source target : string).

(** *** Writing: the descriptor and the errors *)

(** X1: whatever the write and the flush did, the last call of
    [writeFile] and of [writeFileSync] is the close of the descriptor that
    their [open] returned: no path through them leaves it open. *)
Theorem write_closes_descriptor path data options st fd w1 r st' :
  canFlush st = true →
  fs_open path (ens_flag (ensureWriteOptions options))
    (ens_mode (ensureWriteOptions options)) (world st) = (Ok fd, w1) →
  writeFile path data options st = Some (r, st')
  ∨ writeFileSync path data options st = Some (r, st') →
  ∃ pre c, extends st st' (pre ++ [{| op := OpClose fd; failure := c |}])%list.
Proof.
  intros Hflush Hopen Hcall.
  unfold writeFile, writeFileSync, doWriteFileAndFlush, bind, try_catch,
    try_finally, attempt, call, get_canFlush, set_canFlush, console_warn,
    ret, throw, extends in *.
  rewrite Hflush in Hcall. cbn in Hcall. rewrite Hopen in Hcall. cbn in Hcall.
  destruct (fs_writeFile_fd fd data w1) as [[[]|e2] w2]; cbn in Hcall.
  - destruct (fs_fdatasync fd w2) as [[[]|e3] w3]; cbn in Hcall;
      destruct (fs_close fd w3) as [rc w4]; cbn in Hcall;
      destruct rc as [[]|ec]; destruct Hcall as [[= <- <-]|[= <- <-]]; cbn;
      rewrite <- ?app_assoc; cbn;
      match goal with
      | |- ∃ pre c, (_ ++ ?a :: ?l)%list = _ =>
          exists (removelast (a :: l)); eexists; cbn; reflexivity
      end.
  - destruct (fs_close fd w2) as [rc w4]; cbn in Hcall;
      destruct rc as [[]|ec]; destruct Hcall as [[= <- <-]|[= <- <-]]; cbn;
      rewrite <- ?app_assoc; cbn;
      match goal with
      | |- ∃ pre c, (_ ++ ?a :: ?l)%list = _ =>
          exists (removelast (a :: l)); eexists; cbn; reflexivity
      end.
Qed.


(** X2: when the write through the descriptor fails and the close fails
    too, [writeFile] reports the error of the write (the callback of
    [close] ignores its own error), while [writeFileSync] reports the error
    of the close (thrown in the [finally] block, it replaces the first). *)
Theorem write_error_priority path data options st fd w1 e1 w2 e2 w3 :
  canFlush st = true →
  fs_open path (ens_flag (ensureWriteOptions options))
    (ens_mode (ensureWriteOptions options)) (world st) = (Ok fd, w1) →
  fs_writeFile_fd fd data w1 = (Err e1, w2) →
  fs_close fd w2 = (Err e2, w3) →
  (∃ st', writeFile path data options st = Some (Err e1, st') ∧ world st' = w3)
  ∧ (∃ st', writeFileSync path data options st = Some (Err e2, st') ∧ world st' = w3).
Proof.
  intros Hflush Hopen Hwrite Hclose.
  unfold writeFile, writeFileSync, doWriteFileAndFlush, bind, try_catch,
    try_finally, attempt, call, get_canFlush, ret, throw.
  rewrite Hflush. cbn. rewrite Hopen. cbn. rewrite Hwrite. cbn. rewrite Hclose. cbn.
  split; eexists; split; reflexivity.
Qed.

(** X3: flushing, once disabled, is never enabled again: a call made
    with [canFlush] cleared leaves it cleared, and a call clears it only
    when its own [fdatasync] failed. *)
Theorem canFlush_only_cleared path data options st r st' :
  writeFile path data options st = Some (r, st')
  ∨ writeFileSync path data options st = Some (r, st') →
  (canFlush st = false → canFlush st' = false)
  ∧ (canFlush st = true → canFlush st' = false →
     ∃ evs fd e, extends st st' evs
                 ∧ In {| op := OpFdatasync fd; failure := Some e |} evs).
Proof.
  intros Hcall.
  unfold writeFile, writeFileSync, doWriteFileAndFlush, bind, try_catch,
    try_finally, attempt, call, get_canFlush, set_canFlush, console_warn,
    ret, throw, extends in *.
  destruct (canFlush st) eqn:Hflush; cbn in Hcall.
  - split; [discriminate|]. intros _.
    destruct (fs_open _ _ _ (world st)) as [[fd|e1] w1]; cbn in Hcall.
    2: { destruct Hcall as [[= <- <-]|[= <- <-]]; cbn; congruence. }
    destruct (fs_writeFile_fd fd data w1) as [[[]|e2] w2]; cbn in Hcall.
    + destruct (fs_fdatasync fd w2) as [[[]|e3] w3]; cbn in Hcall;
        destruct (fs_close fd w3) as [[[]|ec] w4]; cbn in Hcall;
        destruct Hcall as [[= <- <-]|[= <- <-]]; cbn; try congruence;
        intros _; eexists _, fd, e3; rewrite <- ?app_assoc;
        (split; [reflexivity|]); cbn; auto.
    + destruct (fs_close fd w2) as [[[]|ec] w4]; cbn in Hcall;
        destruct Hcall as [[= <- <-]|[= <- <-]]; cbn; congruence.
  - split; [|discriminate]. intros _.
    destruct (fs_writeFile_path _ _ _ _ (world st)) as [[[]|e1] w1]; cbn in Hcall;
      destruct Hcall as [[= <- <-]|[= <- <-]]; cbn; congruence.
Qed.

(** *** SymlinkSupport.stat beyond the link with a target *)

(** X4: when [lstat] fails, [SymlinkSupport.stat] answers as [fs.stat]
    does: its stats come back with no [symbolicLink] field, and its error is
    thrown whatever its code, ENOENT included: a path that does not exist is
    an error, not a dangling link. *)
Theorem SymlinkSupport_stat_lstat_failed path st e w1 r w2 :
  fs_lstat path (world st) = (Err e, w1) →
  fs_stat path w1 = (r, w2) →
  SymlinkSupport_stat path st
  = Some (match r with
          | Ok s => Ok {| stat := s; symbolicLink := None |}
          | Err e' => Err e'
          end,
          after (OpStat path) (failure_of r) w2 (after (OpLstat path) (Some e) w1 st)).
Proof.
  intros Hl Hs.
  unfold SymlinkSupport_stat, bind, try_catch, call, ret, throw, after.
  rewrite Hl. cbn. rewrite Hs. destruct r as [s|e']; reflexivity.
Qed.

(** X5: for a symbolic link whose [fs.stat] fails with an error other
    than ENOENT.  Off Windows, or with a code other than EACCES, the error
    is thrown and [readlink] is never called.  On Windows with EACCES the
    link is read and its target is given to [fs.stat]: the stats of the
    target come back with [dangling: false]; an ENOENT from [readlink] or
    from this second [fs.stat] gives the stats of the link with
    [dangling: true]; any other error of the two is thrown. *)
Theorem SymlinkSupport_stat_reparse_point path st l w1 e w2 :
  fs_lstat path (world st) = (Ok l, w1) → isSymbolicLink l = true →
  fs_stat path w1 = (Err e, w2) → has_code e "ENOENT" = false →
  let st2 := after (OpStat path) (Some e) w2 (after (OpLstat path) None w1 st) in
  let dangling := Ok {| stat := l; symbolicLink := Some true |} in
  (isWindows && has_code e "EACCES" = false →
     SymlinkSupport_stat path st = Some (Err e, st2))
  ∧ (isWindows && has_code e "EACCES" = true →
     ∀ rl w3, fs_readlink path w2 = (rl, w3) →
       match rl with
       | Err e' =>
           outcome (SymlinkSupport_stat path st)
           = Some (if has_code e' "ENOENT" then dangling else Err e')
       | Ok link =>
           ∀ rs w4, fs_stat link w3 = (rs, w4) →
             outcome (SymlinkSupport_stat path st)
             = Some (match rs with
                     | Ok s => Ok {| stat := s; symbolicLink := Some false |}
                     | Err e' => if has_code e' "ENOENT" then dangling else Err e'
                     end)
       end).
Proof.
  intros Hl Hk Hs He st2 dangling. subst st2 dangling.
  unfold SymlinkSupport_stat, bind, try_catch, call, ret, throw, after, outcome.
  rewrite Hl. cbn. rewrite Hk. cbn. rewrite Hs. cbn. rewrite He.
  split; intros Hwin; rewrite Hwin; cbn; [reflexivity|].
  intros rl w3 Hrl. rewrite Hrl. destruct rl as [link|e']; cbn.
  - intros rs w4 Hrs. rewrite Hrs. destruct rs as [s|e']; cbn.
    + now rewrite Hk.
    + destruct (has_code e' "ENOENT"); reflexivity.
  - destruct (has_code e' "ENOENT"); reflexivity.
Qed.

(** *** readDirsInDir *)

Lemma SymlinkSupport_exists_total dirPath child st :
  ∃ b st', SymlinkSupport_dirExists (join dirPath child) st = Some (Ok b, st').
Proof.
  unfold SymlinkSupport_dirExists, try_catch, bind, ret.
  destruct (SymlinkSupport_stat_total (join dirPath child) st) as ([s|e] & st' & ->);
    eauto.
Qed.

Lemma readDirsInDir_loop_sublist dirPath children : ∀ st,
  ∃ dirs st', readDirsInDir_loop dirPath children st = Some (Ok dirs, st')
              ∧ sublist dirs children.
Proof.
  induction children as [|child rest IH]; intros st.
  - exists [], st. split; [reflexivity | constructor].
  - cbn [readDirsInDir_loop]. unfold bind at 1.
    destruct (SymlinkSupport_exists_total dirPath child st) as (b & st1 & ->).
    unfold bind at 1. destruct (IH st1) as (dirs & st2 & -> & Hsub).
    unfold ret. destruct b; eexists _, _; (split; [reflexivity|]).
    + now apply sublist_skip.
    + now apply sublist_cons.
Qed.

(** X6: [readDirsInDir] throws only when [readdir] does, with the error
    of [readdir]; otherwise it returns names that [readdir] returned, in the
    order [readdir] returned them, however the look at each entry went. *)
Theorem readDirsInDir_sublist dirPath st :
  (∀ e st1, readdir dirPath st = Some (Err e, st1) →
     readDirsInDir dirPath st = Some (Err e, st1))
  ∧ (∀ children st1, readdir dirPath st = Some (Ok children, st1) →
     ∃ dirs st', readDirsInDir dirPath st = Some (Ok dirs, st')
                 ∧ sublist dirs children).
Proof.
  unfold readDirsInDir, bind. split.
  - intros e st1 ->. reflexivity.
  - intros children st1 ->. apply readDirsInDir_loop_sublist.
Qed.


(** *** copy: what a run keeps *)

(** X7: in one run of [copy], readdir answering a name twice or not, no
    source path is given to [lstat] twice: the record in [handledSources]
    stops the second visit before any call. *)
Theorem copy_never_repeats fuel source target hin st res st' :
  copy fuel source target hin st = Some (res, st') →
  ∃ evs, extends st st' evs ∧ NoDup (lstat_paths evs).
Proof.
  intros H. apply copy_run_any in H as (evs & He & _ & Hn). eauto.
Qed.

(** X8: every mode that a run of [copy] gives to [mkdir], to the write
    stream or to [chmod] is made of the nine permission bits: whatever the
    mode of the source, no set-user-id, set-group-id or sticky bit reaches
    the target. *)
Theorem copy_modes_masked fuel source target hin st res st' :
  copy fuel source target hin st = Some (res, st') →
  ∃ evs, extends st st' evs ∧ modes_masked evs.
Proof.
  intros H. apply copy_run_any in H as (evs & He & Hm & _). eauto.
Qed.

(** X9: [copy] on a [handledSources] object only adds to it: when it
    returns or throws, its source is recorded, every path recorded before
    still is, and the paths it added are the paths it gave to [lstat]. *)
Theorem copy_records_sources fuel source target r st res st' :
  copy fuel source target (Some r) st = Some (res, st') →
  recorded st' r source
  ∧ ∃ evs, extends st st' evs
           ∧ ∀ p, recorded st' r p ↔ recorded st r p ∨ p ∈ lstat_paths evs.
Proof.
  intros H. apply copy_run in H as (evs & (He & _ & _ & _ & Hr) & Hsrc).
  split; [apply Hr; exact Hsrc | eauto].
Qed.

(** X10: a dangling symbolic link is skipped: [copy] looks at it with
    [lstat] and [fs.stat] and returns, with no call that makes or writes
    anything. *)
Theorem copy_skips_dangling_link fuel source target hin st l w1 e w2 :
  match hin with Some r => ¬ recorded st r source | None => True end →
  fs_lstat source (world st) = (Ok l, w1) → isSymbolicLink l = true →
  fs_stat source w1 = (Err e, w2) → has_code e "ENOENT" = true →
  ∃ st', copy (Datatypes.S fuel) source target hin st = Some (Ok tt, st')
         ∧ world st' = w2
         ∧ extends st st' [{| op := OpLstat source; failure := None |};
                           {| op := OpStat source; failure := Some e |}].
Proof.
  intros Hnew Hl Hk Hs He.
  assert (∀ r st0, world st0 = world st → trace st0 = trace st →
            ¬ recorded st0 r source →
            ∃ st', copy (Datatypes.S fuel) source target (Some r) st0 = Some (Ok tt, st')
                   ∧ world st' = w2
                   ∧ extends st st'
                       [{| op := OpLstat source; failure := None |};
                        {| op := OpStat source; failure := Some e |}]) as Hgo.
  { intros r st0 Hw Ht Hrec. cbn [copy].
    rewrite (bind_Some _ _ st0 r st0) by reflexivity.
    rewrite (bind_Some _ _ st0 false st0).
    2: { unfold get_field, recorded in *.
         destruct (object_of st0 r !! source) as [[]|]; [contradiction|reflexivity..]. }
    rewrite (bind_Some _ _ _ tt _ eq_refl).
    erewrite bind_Some.
    2: { apply (SymlinkSupport_stat_dangling source _ l w1 e w2); cbn;
           [rewrite Hw; exact Hl | exact Hk | exact Hs | exact He]. }
    cbn. eexists. split; [reflexivity|]. split; [reflexivity|].
    unfold extends, after, log, set_world. cbn. rewrite Ht, <- app_assoc. reflexivity. }
  destruct hin as [r|].
  - apply Hgo; auto.
  - rewrite copy_new_object. apply Hgo; [reflexivity | reflexivity |].
    unfold recorded, object_of. cbn. rewrite lookup_insert_eq. cbn.
    rewrite lookup_empty. discriminate.
Qed.

(** *** move: the fallback and the update of the times *)

(** X11: the fallback of [move] undoes nothing.  When its [copy] throws,
    [move] throws that error in the state that [copy] left: what was
    copied stays at the target, and [rimraf] is not called, so the source
    stays too.  When [copy] returned and [rimraf] throws, [move] throws
    that error, the copy being complete; when both returned, [move]
    returns after the update of the times. *)
Theorem move_fallback_no_rollback (fuel : nat) source target st e w1 :
  source ≠ target →
  fs_rename source target (world st) = (Err e, w1) →
  move_falls_back source target e = true →
  let st1 := after (OpRename source target) (Some e) w1 st in
  (∀ e' st2, copy fuel source target None st1 = Some (Err e', st2) →
     move fuel source target st = Some (Err e', st2))
  ∧ (∀ st2 e' st3,
       copy fuel source target None st1 = Some (Ok tt, st2) →
       rimraf source MOVE st2 = Some (Err e', st3) →
       move fuel source target st = Some (Err e', st3))
  ∧ (∀ st2 st3,
       copy fuel source target None st1 = Some (Ok tt, st2) →
       rimraf source MOVE st2 = Some (Ok tt, st3) →
       ∃ st', move fuel source target st = Some (Ok tt, st')
              ∧ updateMtime target st3 = Some (Ok tt, st')).
Proof.
  intros Hne Hr Hfb st1.
  assert (move fuel source target st
          = bind (copy fuel source target None)
              (λ _, bind (rimraf source MOVE) (λ _, updateMtime target)) st1) as ->.
  { subst st1. unfold move.
    apply String.eqb_neq in Hne. rewrite Hne.
    unfold try_catch. unfold bind at 1. unfold call at 1. rewrite Hr.
    cbn [failure_of]. fold (after (OpRename source target) (Some e) w1 st).
    fold (move_falls_back source target e). now rewrite Hfb. }
  split; [|split].
  - intros e' st2 Hc. unfold bind at 1. now rewrite Hc.
  - intros st2 e' st3 Hc Hrm. unfold bind at 1. rewrite Hc.
    unfold bind at 1. now rewrite Hrm.
  - intros st2 st3 Hc Hrm. unfold bind at 1. rewrite Hc.
    unfold bind at 1. rewrite Hrm.
    destruct (updateMtime_never_throws target st3) as [st' Hu]. eauto.
Qed.

(** X12: [updateMtime] never throws and leaves no handle open.  An error
    of [lstat] or of [open] ends it at that call; on a directory or a
    symbolic link it makes no call after [lstat]; and when [open] returned a
    handle, its last call is the close of that handle, whatever [futimes]
    did. *)
Theorem updateMtime_quiet path st r w1 :
  fs_lstat path (world st) = (r, w1) →
  let st1 := after (OpLstat path) (failure_of r) w1 st in
  match r with
  | Err _ => updateMtime path st = Some (Ok tt, st1)
  | Ok s =>
      if isDirectory s || isSymbolicLink s
      then updateMtime path st = Some (Ok tt, st1)
      else ∀ ro w2, fs_open path "a" 438 w1 = (ro, w2) →
           match ro with
           | Err e =>
               updateMtime path st
               = Some (Ok tt, after (OpOpen path "a" 438) (Some e) w2 st1)
           | Ok fh =>
               ∃ st' pre c,
                 updateMtime path st = Some (Ok tt, st')
                 ∧ extends st st' (pre ++ [{| op := OpClose fh; failure := c |}])%list
           end
  end.
Proof.
  intros Hl st1. subst st1.
  unfold updateMtime, try_catch, try_finally, bind, call, new_Date, ret, after,
    extends, log, set_world.
  rewrite Hl. destruct r as [s|e]; cbn; [|reflexivity].
  destruct (isDirectory s || isSymbolicLink s); [reflexivity|].
  intros ro w2 Ho. cbn. rewrite Ho. destruct ro as [fh|e]; cbn; [|reflexivity].
  destruct (date_now w2) as [now w3]. cbn.
  destruct (fs_futimes fh (atime s) now w3) as [[[]|e5] w4]; cbn;
    destruct (fs_close fh w4) as [[[]|e6] w5]; cbn;
    eexists; eexists (_ :: _ :: _ :: _ :: [])%list; eexists;
    (split; [reflexivity|]); cbn; rewrite <- !app_assoc; cbn; reflexivity.
Qed.

(** *** The tests for a file and for a directory *)

(** X13: called in the same state, [SymlinkSupport.fileExists] and
    [SymlinkSupport.dirExists] never both answer true; and on a dangling
    symbolic link both answer false. *)
Theorem SymlinkSupport_exists_exclusive path st :
  ¬ (outcome (SymlinkSupport_fileExists path st) = Some (Ok true)
     ∧ outcome (SymlinkSupport_dirExists path st) = Some (Ok true))
  ∧ (∀ s st', SymlinkSupport_stat path st = Some (Ok s, st') →
       symbolicLink s = Some true →
       SymlinkSupport_fileExists path st = Some (Ok false, st')
       ∧ SymlinkSupport_dirExists path st = Some (Ok false, st')).
Proof.
  unfold SymlinkSupport_fileExists, SymlinkSupport_dirExists, try_catch, bind,
    ret, outcome.
  split.
  - destruct (SymlinkSupport_stat path st) as [[[s|e] st']|]; cbn;
      [|intros [[=] _]..].
    unfold isFile, isDirectory. destruct (kind (stat s)); cbn;
      intros [H1 H2]; congruence.
  - intros s st' -> Hd. unfold not_dangling. rewrite Hd.
    now rewrite !andb_false_r.
Qed.

(** *** readdir: the entries *)

(** X14: on every platform [readdir] and [readdirWithFileTypes] return
    one entry for each entry that the file system returned, in the same
    order; [readdirWithFileTypes] leaves the type of every entry as it
    was.  The normalization on macOS changes names only, so it can make two
    names equal but cannot drop one. *)
Theorem readdir_keeps_entries path st :
  (∀ raw w1, fs_readdir path (world st) = (Ok raw, w1) →
     ∃ names st', readdir path st = Some (Ok names, st')
                  ∧ List.length names = List.length raw
                  ∧ names = if isMacintosh then map normalizeNFC raw else raw)
  ∧ (∀ raw w1, fs_readdirWithFileTypes path (world st) = (Ok raw, w1) →
       ∃ children st', readdirWithFileTypes path st = Some (Ok children, st')
                       ∧ map dirent_kind children = map dirent_kind raw
                       ∧ map name children
                         = if isMacintosh then map normalizeNFC (map name raw)
                           else map name raw).
Proof.
  unfold readdir, readdirWithFileTypes, handleDirectoryChildren, bind, call, ret.
  split; intros raw w1 ->; cbn.
  - destruct isMacintosh; eexists _, _; (split; [reflexivity|]);
      (split; [|reflexivity]); now rewrite ?length_map.
  - destruct isMacintosh; eexists _, _; (split; [reflexivity|]);
      rewrite ?List.map_map; split; reflexivity.
Qed.

End PfsMore.

(** ** whenDeleted *)

Lemma p_inv_step s e : WhenDeleted.p_inv s → WhenDeleted.p_inv (WhenDeleted.p_step s e).
Proof.
  intros [Hf Hr Hc]. destruct s as [run clr res acc fl]. cbn in *.
  destruct e as [|[]]; unfold WhenDeleted.p_step, WhenDeleted.on_tick,
    WhenDeleted.on_access; cbn;
    destruct clr, run; subst; cbn; split; cbn; auto; try discriminate;
    specialize (Hc eq_refl); discriminate.
Qed.

Lemma p_inv_fold events : ∀ s,
  WhenDeleted.p_inv s → WhenDeleted.p_inv (fold_left WhenDeleted.p_step events s).
Proof.
  induction events as [|e events IH]; intros s Hs; [exact Hs|].
  cbn. apply IH, p_inv_step, Hs.
Qed.

Lemma p_cleared_stable events : ∀ s,
  WhenDeleted.p_inv s → WhenDeleted.cleared s = true →
  fold_left WhenDeleted.p_step events s = s.
Proof.
  induction events as [|e events IH]; intros s Hs Hc; [reflexivity|].
  cbn. assert (WhenDeleted.p_step s e = s) as ->; [|now apply IH].
  destruct Hs as [Hf _ Hrun]. specialize (Hrun Hc).
  destruct e; cbn; rewrite ?Hc; [reflexivity|].
  rewrite Hf, Hrun. reflexivity.
Qed.

Lemma p_resolved_cause events : ∀ s,
  WhenDeleted.cleared s = false →
  WhenDeleted.cleared (fold_left WhenDeleted.p_step events s) = true →
  In (WhenDeleted.AccessDone true) events.
Proof.
  induction events as [|e events IH]; intros s Hs Hc; cbn in *; [congruence|].
  destruct e as [|[]]; [right|now left|right]; (eapply IH; [|exact Hc]).
  all: destruct s as [run clr res acc fl]; cbn in Hs; subst clr;
    unfold WhenDeleted.p_step, WhenDeleted.on_tick, WhenDeleted.on_access; cbn;
    destruct run, fl; reflexivity.
Qed.

(** X15: [whenDeleted] polls one access at a time and resolves once.
    After any sequence of timer ticks and answers of [fs.access]: at most
    one access is waiting for its answer; [resolve] has been called at most
    once, exactly when the timer was cleared, and only after an access
    answered with an error, of whatever kind; and from then on no tick and
    no answer changes anything: there is no further access. *)
Theorem whenDeleted_polls_one_at_a_time events :
  let s := WhenDeleted.p_run events in
  (WhenDeleted.in_flight s ≤ 1)%nat
  ∧ (WhenDeleted.resolved s ≤ 1)%nat
  ∧ (WhenDeleted.resolved s = 1%nat ↔ WhenDeleted.cleared s = true)
  ∧ (WhenDeleted.cleared s = true →
       In (WhenDeleted.AccessDone true) events
       ∧ WhenDeleted.in_flight s = 0%nat
       ∧ ∀ more, WhenDeleted.p_run (events ++ more)%list = s).
Proof.
  intros s.
  assert (WhenDeleted.p_inv WhenDeleted.p_initial) as H0 by (split; cbn; auto).
  pose proof (p_inv_fold events _ H0) as Hs. fold (WhenDeleted.p_run events) in Hs.
  fold s in Hs. destruct Hs as [Hf Hr Hc].
  split; [rewrite Hf; destruct (WhenDeleted.running s); lia|].
  split; [rewrite Hr; destruct (WhenDeleted.cleared s); lia|].
  split; [rewrite Hr; destruct (WhenDeleted.cleared s); split; congruence|].
  intros Hclr. split; [|split].
  - apply (p_resolved_cause events WhenDeleted.p_initial); [reflexivity | exact Hclr].
  - rewrite Hf, (Hc Hclr). reflexivity.
  - intros more. unfold WhenDeleted.p_run. rewrite fold_left_app.
    apply p_cleared_stable; [|exact Hclr].
    split; assumption.
Qed.

(** ** The model: further properties of the writes *)

(** After a successful call the file holds exactly the data; after a
    failed call it holds what it held before, or a part of the data. *)
Lemma writeFileSync_holds path data options (st : State World) r st' :
  is_dir (root (world st)) = true →
  ens_flag (ensureWriteOptions options) = "w" →
  writeFileSync path data options st = Some (r, st') →
  match r with
  | Ok _ => read_data path (world st') = Ok data
  | Err _ =>
      read_data path (world st') = read_data path (world st)
      ∨ ∃ n, read_data path (world st') = Ok (String.substring 0 n data)
  end.
Proof.
  intros Hroot Hflag.
  unfold writeFileSync, bind, try_finally, try_catch, call, get_canFlush,
    set_canFlush, console_warn, ret, throw.
  rewrite Hflag. cbn [fs_open fs_writeFile_fd fs_writeFile_path fs_fdatasync
                        fs_close model_sys].
  destruct (canFlush st); cbn [negb].
  - destruct (m_open path "w" (ens_mode (ensureWriteOptions options)) (world st))
      as [[fd|e] w1] eqn:Eopen; cbn.
    + apply m_open_w in Eopen as (k & Hholds & Hfd); [|exact Hroot].
      destruct (m_writeFile_fd fd data w1) as [rw w2] eqn:Ewrite.
      apply (m_writeFile_fd_w w1 path k) in Ewrite as (n & Hpart & Hall & Hon);
        [|assumption..].
      destruct rw as [[]|ew]; cbn.
      * specialize (Hall eq_refl).
        destruct (m_fdatasync fd w2) as [rs w3] eqn:Esync.
        apply (m_fdatasync_holds w2 path k data) in Esync as (Hs & Hon' & _);
          [|assumption..].
        destruct rs as [[]|es]; cbn;
          destruct (m_close fd w3) as [rc w4] eqn:Eclose;
          apply (m_close_holds w3 path k data) in Eclose as [Hc _]; try assumption;
          apply holds_read_data in Hc;
          destruct rc as [[]|ec]; cbn; intros [= <- <-]; cbn;
          try exact Hc; right; exists (String.length data);
          now rewrite substring_all.
      * destruct (m_close fd w2) as [rc w4] eqn:Eclose.
        apply (m_close_holds w2 path k (String.substring 0 n data)) in Eclose as [Hc _];
          [|exact Hpart].
        apply holds_read_data in Hc.
        destruct rc as [[]|ec]; cbn; intros [= <- <-]; cbn; right; eauto.
    + intros [= <- <-]. cbn. left. now apply m_open_failed in Eopen.
  - unfold m_writeFile_path.
    destruct (m_open path "w" (ens_mode (ensureWriteOptions options)) (world st))
      as [[fd|e] w1] eqn:Eopen; cbn.
    + apply m_open_w in Eopen as (k & Hholds & Hfd); [|exact Hroot].
      destruct (m_writeFile_fd fd data w1) as [rw w2] eqn:Ewrite.
      apply (m_writeFile_fd_w w1 path k) in Ewrite as (n & Hpart & Hall & Hon);
        [|assumption..].
      destruct (close_fd fd w2) as [rc w3] eqn:Eclose. cbn.
      destruct rw as [[]|ew]; cbn; intros [= <- <-]; cbn.
      * specialize (Hall eq_refl).
        apply (close_fd_holds w2 path k data) in Eclose as [Hc _]; [|assumption].
        now apply holds_read_data in Hc.
      * apply (close_fd_holds w2 path k (String.substring 0 n data)) in Eclose as [Hc _];
          [|exact Hpart].
        apply holds_read_data in Hc. right; eauto.
    + intros [= <- <-]. cbn. left. now apply m_open_failed in Eopen.
Qed.

(** A call that failed after the data had been written through the
    descriptor left all of the data in the file. *)
Lemma writeFileSync_written path data options (st : State World) e st' :
  is_dir (root (world st)) = true →
  ens_flag (ensureWriteOptions options) = "w" →
  writeFileSync path data options st = Some (Err e, st') →
  ∃ evs, extends st st' evs
         ∧ ((∃ fd, In (passed (OpWriteFd fd data)) evs) →
            read_data path (world st') = Ok data).
Proof.
  intros Hroot Hflag.
  unfold writeFileSync, bind, try_finally, try_catch, call, get_canFlush,
    set_canFlush, console_warn, ret, throw, extends, passed.
  rewrite Hflag. cbn [fs_open fs_writeFile_fd fs_writeFile_path fs_fdatasync
                        fs_close model_sys].
  destruct (canFlush st); cbn [negb].
  - destruct (m_open path "w" (ens_mode (ensureWriteOptions options)) (world st))
      as [[fd|e0] w1] eqn:Eopen; cbn.
    + apply m_open_w in Eopen as (k & Hholds & Hfd); [|exact Hroot].
      destruct (m_writeFile_fd fd data w1) as [rw w2] eqn:Ewrite.
      apply (m_writeFile_fd_w w1 path k) in Ewrite as (n & Hpart & Hall & Hon);
        [|assumption..].
      destruct rw as [[]|ew]; cbn.
      * specialize (Hall eq_refl).
        destruct (m_fdatasync fd w2) as [rs w3] eqn:Esync.
        apply (m_fdatasync_holds w2 path k data) in Esync as (Hs & Hon' & _);
          [|assumption..].
        destruct rs as [[]|es]; cbn;
          destruct (m_close fd w3) as [rc w4] eqn:Eclose;
          apply (m_close_holds w3 path k data) in Eclose as [Hc _]; try assumption;
          apply holds_read_data in Hc;
          destruct rc as [[]|ec]; cbn; intros [= <- <-]; cbn;
          (eexists; split; [rewrite <- ?app_assoc; reflexivity | intros _; exact Hc]).
      * destruct (m_close fd w2) as [rc w4] eqn:Eclose.
        destruct rc as [[]|ec]; cbn; intros [= <- <-]; cbn;
          (eexists; split; [rewrite <- ?app_assoc; reflexivity|]);
          intros [fd' Hin]; cbn in Hin;
          destruct Hin as [H|[H|[H|[]]]]; discriminate.
    + intros [= <- <-]. cbn. eexists. split; [reflexivity|].
      intros [fd' [H|[]]]. discriminate.
  - destruct (m_writeFile_path path data _ "w" (world st)) as [[[]|e0] w1]; cbn;
      intros [= <- <-]. cbn. eexists. split; [reflexivity|].
    intros [fd' [H|[]]]. discriminate.
Qed.

(** X16: [writeFileSync] with the flag [w] on a tree with a root
    directory leaves the file as [writeFile] does: after a successful call
    the file holds exactly the data; after a failed call it holds what it
    held before (the open failed), or a part of the data, which is all of
    it when only the close failed: when the calls of the run show the data
    written through the descriptor without an error. *)
Theorem writeFileSync_content path data options (st : State World) r st' :
  is_dir (root (world st)) = true →
  ens_flag (ensureWriteOptions options) = "w" →
  writeFileSync path data options st = Some (r, st') →
  match r with
  | Ok _ => read_data path (world st') = Ok data
  | Err _ =>
      (read_data path (world st') = read_data path (world st)
       ∨ ∃ n, read_data path (world st') = Ok (String.substring 0 n data))
      ∧ ∃ evs, extends st st' evs
               ∧ ((∃ fd, In (passed (OpWriteFd fd data)) evs) →
                  read_data path (world st') = Ok data)
  end.
Proof.
  intros Hroot Hflag Hrun.
  pose proof (writeFileSync_holds path data options st r st' Hroot Hflag Hrun) as H.
  destruct r as [[]|e]; [exact H|]. split; [exact H|].
  now apply (writeFileSync_written path data options st e st').
Qed.

(** ** The model: the copy of a file *)

(** Writing a file over a leaf leaves every other file as it is. *)
Lemma find_put_keeps_file (k : Path) x : ∀ r (q : Path) f,
  leaf (find r k) → q ≠ k → find r q = Some f → is_file f = true →
  find (put r k (Some x)) q = Some f.
Proof.
  induction k as [|c rest IH]; intros r q f Hleaf Hq Hfind Hf; [exact Hfind|].
  destruct r as [| m es |]; try (destruct rest; exact Hfind).
  destruct q as [|c' q'].
  { cbn in Hfind. injection Hfind as <-. discriminate. }
  destruct rest as [|c2 rest].
  - cbn [put find]. destruct (String.eqb_spec c c') as [<-|Hne].
    + exfalso. cbn in Hleaf, Hfind.
      destruct (alist_lookup c es) as [child|]; [|discriminate].
      destruct child; try contradiction.
      destruct q'; [congruence | discriminate].
    + rewrite alist_lookup_insert_ne by assumption. exact Hfind.
  - cbn [put]. destruct (alist_lookup c es) as [child|] eqn:E; [|exact Hfind].
    cbn [find]. destruct (String.eqb_spec c c') as [<-|Hne].
    + rewrite alist_lookup_insert_eq. cbn [find] in Hfind, Hleaf. rewrite E in Hfind, Hleaf.
      apply IH; [exact Hleaf | congruence | exact Hfind | exact Hf].
    + rewrite alist_lookup_insert_ne by assumption. exact Hfind.
Qed.

Lemma wrote_at_refl k w w' :
  root w' = root w → link_max w' = link_max w → wrote_at k w w'.
Proof. intros Hr Hl. split; [exact Hl | now left]. Qed.

(** A write at another place keeps the file and the path that names it. *)
Lemma wrote_at_keeps kt w w' source ks f :
  wrote_at kt w w' → kt ≠ ks → names_file w source ks f → names_file w' source ks f.
Proof.
  intros [Hl [Hr|(x & Hx & Hleaf & Hk & Hsome & Hr)]] Hne (Hres & Hfind & Hf);
    unfold names_file, resolve in *; rewrite Hr, Hl.
  - auto.
  - split; [|split; [|exact Hf]].
    + now apply walk_put_file.
    + apply find_put_keeps_file; auto.
Qed.

(** A path that names no link resolves alike with and without following
    the last component. *)
Lemma walk_follow_last r lim : ∀ comps cur used k,
  walk r lim false cur comps used = Ok k →
  match find r k with Some (NLink _) => False | _ => True end →
  walk r lim true cur comps used = Ok k.
Proof.
  induction comps as [|c rest IH]; intros cur used k Hwalk Hk; [exact Hwalk|].
  cbn [walk] in *.
  destruct (find r cur) as [[| m es |]|]; try discriminate.
  destruct (find r (cur ++ [c])%list) as [[| m2 es2 | t]|] eqn:Ec; auto.
  destruct rest as [|c2 rest]; cbn [negb] in *.
  - injection Hwalk as <-. now rewrite Ec in Hk.
  - destruct (within_limit lim used); [auto | discriminate].
Qed.

(** [open] with the flag [w]: what [m_open_w] says, and where the tree
    changed. *)
Lemma m_open_w_at w path mode fd w1 :
  is_dir (root w) = true →
  m_open path "w" mode w = (Ok fd, w1) →
  ∃ k, resolve w true path = Ok k
       ∧ wrote_at k w w1
       ∧ holds w1 path k ""
       ∧ open_files w1 !! fd = Some {| of_key := k; of_mode := mode_w; of_pos := 0 |}.
Proof.
  intros Hroot Hopen.
  destruct (m_open_w w path mode fd w1 Hroot Hopen) as (k & Hholds & Hfd).
  exists k. revert Hopen. unfold m_open, faulty.
  destruct (next_fault w) as [[f|] w0] eqn:Ef; [discriminate|].
  apply next_fault_tree in Ef as (Hr & Hl & Ho & Hn).
  change (parse_flag "w") with (Some mode_w). cbn match.
  assert (resolve w true path = resolve w0 true path) as Hsame
    by (unfold resolve; now rewrite Hr, Hl).
  rewrite Hsame.
  destruct (resolve w0 true path) as [k0|e] eqn:Eres; [|discriminate].
  assert (k0 ≠ [] ∨ k0 = []) as [Hk| ->] by (destruct k0; auto).
  2: { cbn [find]. rewrite Hr. destruct (root w); discriminate. }
  assert (∀ x w', is_file x = true → leaf (find (root w0) k0) →
            is_Some (find (put (root w0) k0 (Some x)) k0) →
            root w' = put (root w0) k0 (Some x) → link_max w' = link_max w0 →
            holds w' path k "" → k0 = k ∧ wrote_at k w w') as Hgo.
  { intros x w' Hx Hleaf Hsome Hr' Hl' (Hres' & _).
    assert (resolve w' true path = Ok k0) as Hres0.
    { unfold resolve in *. rewrite Hr', Hl'. now apply walk_put_file. }
    assert (k0 = k) as <- by congruence.
    split; [reflexivity|]. split; [congruence|]. right.
    exists x. rewrite <- Hr. repeat split; auto. }
  destruct (find (root w0) k0) as [[d dur m a t| |]|] eqn:Efind; try discriminate.
  - cbn. intros [= <- <-].
    assert (is_Some (find (put (root w0) k0 (Some (NFile "" dur m a t))) k0)) as Hsome
      by (apply find_put_is_Some; [exact Hk | rewrite Efind; eauto]).
    match type of Hholds with
    | holds ?w' _ _ _ =>
        destruct (Hgo (NFile "" dur m a t) w' eq_refl I Hsome eq_refl eq_refl Hholds)
          as [<- Hat]
    end.
    auto.
  - cbn. destruct (find (put (root w0) k0 _) k0) eqn:Enew; [|discriminate].
    intros [= <- <-].
    assert (is_Some (find (put (root w0) k0
                             (Some (NFile "" "" (created_mode w0 mode)
                                      (clock w0) (clock w0)))) k0))
      as Hsome by (rewrite Enew; eauto).
    match type of Hholds with
    | holds ?w' _ _ _ =>
        destruct (Hgo (NFile "" "" (created_mode w0 mode) (clock w0) (clock w0)) w'
                    eq_refl I Hsome eq_refl eq_refl Hholds) as [<- Hat]
    end.
    auto.
Qed.

(** A write through a descriptor changes the tree at the file of the
    descriptor only. *)
Lemma m_writeFile_fd_at w path k d0 fd data r w' :
  holds w path k d0 →
  open_files w !! fd = Some {| of_key := k; of_mode := mode_w; of_pos := 0 |} →
  m_writeFile_fd fd data w = (r, w') →
  wrote_at k w w'.
Proof.
  intros Hholds Hfd. unfold m_writeFile_fd.
  destruct (next_fault w) as [f w0] eqn:Ef.
  apply next_fault_tree in Ef as (Hr & Hl & Ho & Hn).
  rewrite Ho, Hfd. cbn.
  destruct Hholds as (Hres & Hk & dur & m & a & t & Hfind).
  rewrite Hr, Hfind. intros [= <- <-].
  split; [exact Hl|]. right. eexists (NFile _ _ _ _ _). cbn.
  split; [reflexivity|]. split; [now rewrite Hfind|]. split; [exact Hk|].
  split; [|reflexivity].
  apply find_put_is_Some; [exact Hk | rewrite Hfind; eauto].
Qed.

Lemma close_fd_at k fd w r w' : close_fd fd w = (r, w') → wrote_at k w w'.
Proof.
  unfold close_fd. destruct (open_files w !! fd); intros [= <- <-];
    now apply wrote_at_refl.
Qed.

(** [chmod] on a file sets its mode, and nothing else. *)
Lemma m_chmod_at w path k d mode w' :
  holds w path k d →
  m_chmod path mode w = (Ok tt, w') →
  wrote_at k w w'
  ∧ holds w' path k d
  ∧ ∃ dur a t, find (root w') k = Some (NFile d dur mode a t).
Proof.
  intros Hholds. unfold m_chmod, faulty.
  destruct (next_fault w) as [[f|] w0] eqn:Ef; [discriminate|].
  apply next_fault_tree in Ef as (Hr & Hl & Ho & Hn).
  apply (holds_same_tree w w0) in Hholds; [|assumption..].
  pose proof Hholds as (Hres & Hk & dur & m & a & t & Hfind).
  rewrite Hres, Hfind. intros [= <-].
  assert (is_Some (find (put (root w0) k (Some (NFile d dur mode a t))) k)) as Hsome
    by (apply find_put_is_Some; [exact Hk | rewrite Hfind; eauto]).
  split; [|split].
  - split; [exact Hl|]. right. exists (NFile d dur mode a t). cbn.
    rewrite <- Hr. repeat split; auto. now rewrite Hfind.
  - apply (holds_put w0 path k d d dur mode a t Hholds).
  - exists dur, a, t. cbn. now apply find_put_eq.
Qed.

Section CopyModel.
Context `{P : Platform}.

(** [SymlinkSupport.stat] on a path that names a file: when it answers,
    the answer is the stats of the file, with no [symbolicLink] field,
    whether [lstat] failed or not. *)
Lemma SymlinkSupport_stat_file source (st : State World) ks f rs st2 :
  resolve (world st) false source = Ok ks →
  find (root (world st)) ks = Some f → is_file f = true →
  SymlinkSupport_stat source st = Some (Ok rs, st2) →
  rs = {| stat := stats_of f; symbolicLink := None |}
  ∧ root (world st2) = root (world st) ∧ link_max (world st2) = link_max (world st)
  ∧ handled st2 = handled st.
Proof.
  intros Hres Hfind Hf.
  assert (resolve (world st) true source = Ok ks) as Hres'.
  { unfold resolve in *. apply walk_follow_last; [exact Hres|].
    rewrite Hfind. now destruct f. }
  unfold SymlinkSupport_stat, bind, try_catch, call, ret, throw.
  cbn [fs_lstat fs_stat model_sys]. unfold m_lstat, m_stat, faulty.
  destruct (next_fault (world st)) as [[x|] w0] eqn:Ef;
    apply next_fault_tree in Ef as (Hr & Hl & Ho & Hn); cbn.
  - destruct (next_fault w0) as [[y|] w1] eqn:Ef1;
      apply next_fault_tree in Ef1 as (Hr1 & Hl1 & Ho1 & Hn1); cbn; [discriminate|].
    unfold resolve in *. rewrite Hr1, Hl1, Hr, Hl, Hres', Hfind.
    destruct f; try discriminate. cbn. intros [= <- <-]. cbn.
    repeat split; congruence.
  - unfold resolve in *. rewrite Hr, Hl, Hres, Hfind.
    destruct f; try discriminate. cbn. intros [= <- <-]. cbn.
    repeat split; congruence.
Qed.

(** X17: on the model, whatever the faults: when the [copy] of a regular
    file to a target that resolves to another place returns, the target is a
    file with the data of the source and with the permission bits of its
    mode, and the source is as it was. *)
Theorem copy_file_content fuel source target hin (st : State World)
    ks kt d dur m a t st' :
  is_dir (root (world st)) = true →
  resolve (world st) false source = Ok ks →
  find (root (world st)) ks = Some (NFile d dur m a t) →
  resolve (world st) true target = Ok kt → kt ≠ ks →
  match hin with Some r => ¬ recorded st r source | None => True end →
  copy (Datatypes.S fuel) source target hin st = Some (Ok tt, st') →
  read_data target (world st') = Ok d
  ∧ (∃ dur' a' t',
       find (root (world st')) kt = Some (NFile d dur' (Z.land m COPY_MODE_MASK) a' t'))
  ∧ find (root (world st')) ks = Some (NFile d dur m a t).
Proof.
  intros Hroot Hres Hfind Hrest Hne Hnew.
  assert (∀ r st0, world st0 = world st → ¬ recorded st0 r source →
            copy (Datatypes.S fuel) source target (Some r) st0 = Some (Ok tt, st') →
            read_data target (world st') = Ok d
            ∧ (∃ dur' a' t',
                 find (root (world st')) kt
                 = Some (NFile d dur' (Z.land m COPY_MODE_MASK) a' t'))
            ∧ find (root (world st')) ks = Some (NFile d dur m a t)) as Hgo.
  2: { destruct hin as [r|]; [now apply Hgo|].
       rewrite copy_new_object. apply Hgo; [reflexivity|].
       unfold recorded, object_of. cbn. rewrite lookup_insert_eq. cbn.
       rewrite lookup_empty. discriminate. }
  clear Hnew. intros r st0 Hw Hnew. cbn [copy].
  rewrite (bind_Some _ _ st0 r st0) by reflexivity.
  rewrite (bind_Some _ _ st0 false st0).
  2: { unfold get_field, recorded in *.
       destruct (object_of st0 r !! source) as [[]|]; [contradiction|reflexivity..]. }
  rewrite (bind_Some _ _ _ tt _ eq_refl).
  unfold bind at 1.
  match goal with |- context [SymlinkSupport_stat source ?s] => set (st1 := s) end.
  destruct (SymlinkSupport_stat source st1) as [[[rs|e] st2]|] eqn:Estat;
    [|discriminate..].
  apply (SymlinkSupport_stat_file source st1 ks (NFile d dur m a t)) in Estat
    as (-> & Hr2 & Hl2 & _);
    [| subst st1; cbn; rewrite Hw; assumption
     | subst st1; cbn; rewrite Hw; assumption | reflexivity].
  assert (root (world st2) = root (world st)) as Hroot2
    by (rewrite Hr2; subst st1; cbn; now rewrite Hw).
  assert (link_max (world st2) = link_max (world st)) as Hlim2
    by (rewrite Hl2; subst st1; cbn; now rewrite Hw).
  clearbody st1. clear Hr2 Hl2.
  cbn [symbolicLink stat from_option stats_of isDirectory kind negb mode].
  unfold doCopyFile, bind, call. cbn [fs_pipe fs_chmod model_sys].
  unfold m_pipe.
  set (md := Z.land m COPY_MODE_MASK).
  destruct (m_open target "w" md (world st2)) as [[fd|e] w3] eqn:Eopen;
    [|discriminate].
  apply m_open_w_at in Eopen as (k & Hk & Hat3 & Hholds3 & Hfd3);
    [|rewrite Hroot2; exact Hroot].
  assert (k = kt) as ->.
  { unfold resolve in Hk, Hrest. rewrite Hroot2, Hlim2 in Hk. congruence. }
  assert (names_file (world st2) source ks (NFile d dur m a t)) as Hsrc2.
  { split; [|split; [|reflexivity]].
    - unfold resolve in *. rewrite Hroot2, Hlim2.
      apply walk_follow_last; [exact Hres | now rewrite Hfind].
    - now rewrite Hroot2. }
  pose proof (wrote_at_keeps kt _ _ source ks _ Hat3 Hne Hsrc2) as Hsrc3.
  assert (read_data source w3 = Ok d) as ->
    by (destruct Hsrc3 as (Hr3 & Hf3 & _); unfold read_data; now rewrite Hr3, Hf3).
  destruct (m_writeFile_fd fd d w3) as [rw w4] eqn:Ewrite.
  pose proof (m_writeFile_fd_at w3 target kt "" fd d rw w4 Hholds3 Hfd3 Ewrite) as Hat4.
  apply (m_writeFile_fd_w w3 target kt) in Ewrite as (n & _ & Hall & _);
    [|assumption..].
  pose proof (wrote_at_keeps kt _ _ source ks _ Hat4 Hne Hsrc3) as Hsrc4.
  destruct (close_fd fd w4) as [rc w5] eqn:Eclose. cbn [snd].
  pose proof (close_fd_at kt fd w4 rc w5 Eclose) as Hat5.
  pose proof (wrote_at_keeps kt _ _ source ks _ Hat5 Hne Hsrc4) as Hsrc5.
  destruct rw as [[]|ew]; [|discriminate].
  specialize (Hall eq_refl).
  apply (close_fd_holds w4 target kt d) in Eclose as [Hholds5 _]; [|exact Hall].
  cbn.
  destruct (m_chmod target md w5) as [[[]|ec] w6] eqn:Echmod; [|discriminate].
  apply (m_chmod_at w5 target kt d) in Echmod as (Hat6 & Hholds6 & Hmode);
    [|exact Hholds5].
  pose proof (wrote_at_keeps kt _ _ source ks _ Hat6 Hne Hsrc5) as (_ & Hf6 & _).
  intros [= <-]. cbn.
  split; [now apply (holds_read_data _ _ kt)|]. split; [exact Hmode | exact Hf6].
Qed.

End CopyModel.

(** ** The model: the copy of a tree *)

(** *** Entries and [put] *)

Lemma alist_insert_insert {V} (c : string) (x y : V) es :
  alist_insert c y (alist_insert c x es) = alist_insert c y es.
Proof.
  induction es as [|[c' v'] es IH]; cbn.
  - now rewrite String.eqb_refl.
  - destruct (String.eqb c' c) eqn:E; cbn.
    + now rewrite String.eqb_refl.
    + now rewrite E, IH.
Qed.

Lemma alist_insert_new {V} (c : string) (x : V) es :
  alist_lookup c es = None → alist_insert c x es = (es ++ [(c, x)])%list.
Proof.
  induction es as [|[c' v'] es IH]; cbn; [reflexivity|].
  destruct (String.eqb c' c); [discriminate|]. intros H. now rewrite IH.
Qed.

Lemma alist_lookup_None {V} (c : string) (es : list (string * V)) :
  alist_lookup c es = None ↔ c ∉ map fst es.
Proof.
  induction es as [|[c' v'] es IH]; cbn.
  - split; [intros _ H; inversion H | reflexivity].
  - destruct (String.eqb_spec c' c) as [->|Hne].
    + split; [discriminate | intros H; exfalso; apply H; constructor].
    + rewrite IH. split.
      * intros H Hin. apply elem_of_cons in Hin as [->|Hin]; [congruence | auto].
      * intros H Hin. apply H. now constructor.
Qed.

Lemma alist_lookup_In {V} (c : string) (v : V) es :
  NoDup (map fst es) → (c, v) ∈ es → alist_lookup c es = Some v.
Proof.
  induction es as [|[c' v'] es IH]; cbn; intros Hnd Hin; [inversion Hin|].
  apply NoDup_cons in Hnd as [Hc Hnd].
  apply elem_of_cons in Hin as [[= <- <-]|Hin]; [now rewrite String.eqb_refl|].
  destruct (String.eqb_spec c' c) as [->|Hne]; [|auto].
  exfalso. apply Hc. apply list_elem_of_fmap. exists (c, v). auto.
Qed.

Lemma alist_lookup_delete_ne {V} (c c' : string) (es : list (string * V)) :
  c ≠ c' → alist_lookup c' (alist_delete c es) = alist_lookup c' es.
Proof.
  intros Hne. induction es as [|[c0 v0] es IH]; cbn; [reflexivity|].
  destruct (String.eqb_spec c0 c) as [->|Hne0].
  - apply String.eqb_neq in Hne. now rewrite Hne.
  - cbn. now rewrite IH.
Qed.

Lemma find_None_below r (k q : Path) : find r k = None → find r (k ++ q)%list = None.
Proof. intros H. now rewrite find_app, H. Qed.

(** A second [put] at the same place replaces the first. *)
Lemma put_put (k : Path) x y : ∀ r,
  put (put r k (Some x)) k (Some y) = put r k (Some y).
Proof.
  induction k as [|c rest IH]; intros r; [reflexivity|].
  destruct r as [| m es |]; try (destruct rest; reflexivity).
  destruct rest as [|c2 rest].
  - cbn. now rewrite alist_insert_insert.
  - rewrite !put_cons. destruct (alist_lookup c es) as [child|] eqn:E.
    + rewrite put_cons, alist_lookup_insert_eq, IH, alist_insert_insert. reflexivity.
    + rewrite put_cons, E. reflexivity.
Qed.

(** A [put] below a directory that was just put is a [put] of the
    directory with the entry. *)
Lemma put_put_child (k : Path) c m es x : ∀ r,
  k ≠ [] → is_Some (find (put r k (Some (NDir m es))) k) →
  put (put r k (Some (NDir m es))) (k ++ [c])%list (Some x)
  = put r k (Some (NDir m (alist_insert c x es))).
Proof.
  induction k as [|c0 rest IH]; intros r Hk Hsome; [congruence|].
  destruct r as [| m0 es0 |];
    try (destruct rest; cbn in Hsome; now inversion Hsome).
  destruct rest as [|c1 rest].
  - cbn. rewrite alist_lookup_insert_eq. cbn. now rewrite alist_insert_insert.
  - rewrite (put_cons m0 es0 c0 c1 rest (Some (NDir m es))) in *.
    rewrite (put_cons m0 es0 c0 c1 rest (Some (NDir m (alist_insert c x es)))).
    destruct (alist_lookup c0 es0) as [child|] eqn:E.
    + change ((c0 :: c1 :: rest) ++ [c])%list with (c0 :: c1 :: (rest ++ [c]))%list.
      rewrite put_cons, alist_lookup_insert_eq, alist_insert_insert.
      change (c1 :: (rest ++ [c]))%list with ((c1 :: rest) ++ [c])%list.
      rewrite IH; [reflexivity | congruence |].
      cbn [find] in Hsome. now rewrite alist_lookup_insert_eq in Hsome.
    + cbn [find] in Hsome. rewrite E in Hsome. now inversion Hsome.
Qed.

(** A [put] changes nothing at a place that is neither above nor below. *)
Lemma find_put_disjoint (k : Path) v : ∀ r (q : Path),
  ¬ k `prefix_of` q → ¬ q `prefix_of` k → find (put r k v) q = find r q.
Proof.
  induction k as [|c rest IH]; intros r q Hkq Hqk; [reflexivity|].
  destruct q as [|c' q']; [exfalso; apply Hqk, prefix_nil|].
  destruct r as [| m es |]; try (destruct rest; reflexivity).
  destruct (String.eqb_spec c c') as [<-|Hne].
  - assert (¬ rest `prefix_of` q') as H1
      by (intros H; apply Hkq; now apply prefix_cons).
    assert (¬ q' `prefix_of` rest) as H2
      by (intros H; apply Hqk; now apply prefix_cons).
    destruct rest as [|c2 rest]; [exfalso; apply H1, prefix_nil|].
    rewrite put_cons. destruct (alist_lookup c es) as [child|] eqn:E; [|reflexivity].
    cbn [find]. rewrite alist_lookup_insert_eq, E. now apply IH.
  - destruct rest as [|c2 rest].
    + cbn [put]. destruct v; cbn [find].
      * now rewrite alist_lookup_insert_ne.
      * now rewrite alist_lookup_delete_ne.
    + rewrite put_cons. destruct (alist_lookup c es) as [child|] eqn:E; [|reflexivity].
      cbn [find]. now rewrite alist_lookup_insert_ne.
Qed.

(** A [put] keeps the kind of every entry that is not at or below it. *)
Lemma find_put_above (k : Path) x : ∀ r (q : Path),
  ¬ k `prefix_of` q → same_kind (find r q) (find (put r k (Some x)) q).
Proof.
  induction k as [|c rest IH]; intros r q Hkq; [apply same_kind_refl|].
  destruct r as [| m es |]; try (destruct rest; apply same_kind_refl).
  destruct q as [|c' q'].
  { destruct rest; [cbn; auto|]. rewrite put_cons.
    destruct (alist_lookup c es); cbn; auto. }
  destruct (String.eqb_spec c c') as [<-|Hne].
  - assert (¬ rest `prefix_of` q') as H1
      by (intros H; apply Hkq; now apply prefix_cons).
    destruct rest as [|c2 rest]; [exfalso; apply H1, prefix_nil|].
    rewrite put_cons. destruct (alist_lookup c es) as [child|] eqn:E;
      [|apply same_kind_refl].
    cbn [find]. rewrite alist_lookup_insert_eq, E. now apply IH.
  - destruct rest as [|c2 rest].
    + cbn [put find]. rewrite alist_lookup_insert_ne by assumption.
      apply same_kind_refl.
    + rewrite put_cons. destruct (alist_lookup c es) as [child|] eqn:E;
        [|apply same_kind_refl].
      cbn [find]. rewrite alist_lookup_insert_ne by assumption.
      apply same_kind_refl.
Qed.

Lemma put_cons_ne m es c (q : Path) v :
  q ≠ [] →
  put (NDir m es) (c :: q) v
  = match alist_lookup c es with
    | Some child => NDir m (alist_insert c (put child q v) es)
    | None => NDir m es
    end.
Proof. destruct q; [congruence | reflexivity]. Qed.

Lemma find_put_new_is_Some (kp : Path) c x m es : ∀ r,
  find r kp = Some (NDir m es) →
  is_Some (find (put r (kp ++ [c])%list (Some x)) (kp ++ [c])%list).
Proof.
  induction kp as [|c0 rest IH]; intros r Hfind.
  - cbn in Hfind. injection Hfind as ->. cbn. rewrite alist_lookup_insert_eq. eauto.
  - destruct r as [| m0 es0 |]; try discriminate. cbn [find] in Hfind.
    destruct (alist_lookup c0 es0) as [child|] eqn:E; [|discriminate].
    change ((c0 :: rest) ++ [c])%list with (c0 :: (rest ++ [c]))%list.
    rewrite put_cons_ne by (now destruct rest). rewrite E. cbn [find].
    rewrite alist_lookup_insert_eq. now apply IH.
Qed.

(** *** Paths *)

Lemma prefix_snoc_snoc {A} (l1 l2 : list A) x y :
  (l1 ++ [x])%list `prefix_of` (l2 ++ [y])%list → l1 `prefix_of` l2.
Proof.
  intros [q Hq]. induction q as [|z q' _] using rev_ind.
  - rewrite app_nil_r in Hq. apply app_inj_tail in Hq as [-> _]. reflexivity.
  - rewrite !app_assoc in Hq. apply app_inj_tail in Hq as [Hq _].
    exists ([x] ++ q')%list. now rewrite app_assoc.
Qed.

Lemma prefix_same_length {A} (l1 l2 l : list A) :
  l1 `prefix_of` l → l2 `prefix_of` l → List.length l1 = List.length l2 → l1 = l2.
Proof.
  intros [q1 ->] [q2 H] Hlen. apply app_inj_1 in H as [H _]; [auto | exact Hlen].
Qed.

Lemma string_app_assoc (s t u : string) : (s ++ t) ++ u = s ++ t ++ u.
Proof.
  induction s as [|c s IH]; [reflexivity|].
  change (String c ((s ++ t) ++ u) = String c (s ++ t ++ u)). now f_equal.
Qed.

Lemma components_go_name name : ∀ cur,
  no_slash name = true →
  components_go cur name = if String.eqb (cur ++ name) "" then [] else [cur ++ name].
Proof.
  induction name as [|c name IH]; intros cur Hname.
  - cbn [components_go]. now rewrite string_app_empty.
  - cbn [no_slash] in Hname. apply andb_true_iff in Hname as [Hc Hname].
    apply negb_true_iff in Hc. cbn [components_go]. rewrite Hc, IH by assumption.
    rewrite string_app_assoc. reflexivity.
Qed.

Lemma components_go_join_name name :
  valid_name name = true →
  ∀ s cur, components_go cur (s ++ String "/" name) = (components_go cur s ++ [name])%list.
Proof.
  unfold valid_name. intros Hname. apply andb_true_iff in Hname as [Hne Hname].
  apply negb_true_iff in Hne.
  induction s as [|c s IH]; intros cur.
  - change (EmptyString ++ String "/" name) with (String "/" name).
    cbn [components_go]. change (Ascii.eqb "/" "/") with true. cbv iota.
    rewrite (components_go_name name EmptyString Hname).
    change (EmptyString ++ name) with name. now rewrite Hne.
  - change (String c s ++ String "/" name) with (String c (s ++ String "/" name)).
    cbn [components_go]. destruct (Ascii.eqb c "/").
    + now rewrite IH, app_assoc.
    + apply IH.
Qed.

(** The components of a path joined with a name. *)
Lemma components_join s name :
  valid_name name = true →
  components (posix_join s name) = (components s ++ [name])%list.
Proof.
  intros Hname. unfold components, posix_join.
  change ("/" ++ name) with (String "/" name).
  now apply components_go_join_name.
Qed.

(** The path of an entry of a directory resolves to the entry, which is
    not followed since it is no link. *)
Lemma walk_app_last r lim fl c : ∀ comps cur used k m es,
  walk r lim true cur comps used = Ok k → find r k = Some (NDir m es) →
  match find r (k ++ [c])%list with Some (NLink _) => False | _ => True end →
  walk r lim fl cur (comps ++ [c])%list used = Ok (k ++ [c])%list.
Proof.
  induction comps as [|c1 rest IH]; intros cur used k m es Hwalk Hk Hc.
  - cbn in Hwalk. injection Hwalk as <-. cbn [app walk]. rewrite Hk.
    destruct (find r (cur ++ [c])%list) as [[]|]; try reflexivity. contradiction.
  - change ((c1 :: rest) ++ [c])%list with (c1 :: (rest ++ [c]))%list.
    cbn [walk] in *.
    destruct (find r cur) as [[| m0 es0 |]|]; try discriminate.
    assert (match (rest ++ [c])%list with [] => negb fl | _ => false end = false) as ->
      by (destruct rest; reflexivity).
    assert (match rest with [] => negb true | _ :: _ => false end = false) as Hf
      by (destruct rest; reflexivity).
    rewrite Hf in Hwalk.
    destruct (find r (cur ++ [c1])%list) as [[| m1 es1 | t]|] eqn:E1; eauto.
    + destruct (within_limit lim used); [eauto | discriminate].
    + destruct rest; [|discriminate]. injection Hwalk as <-. congruence.
Qed.

(** A path that resolved without following its last component to a place
    that holds nothing ends in a directory that exists. *)
Lemma walk_new_parent r lim : ∀ comps cur used k,
  comps ≠ [] → walk r lim false cur comps used = Ok k → find r k = None →
  ∃ kp c m es, k = (kp ++ [c])%list ∧ find r kp = Some (NDir m es).
Proof.
  induction comps as [|c rest IH]; intros cur used k Hne Hwalk Hk; [congruence|].
  cbn [walk] in Hwalk.
  destruct (find r cur) as [[| m es |]|] eqn:Ecur; try discriminate.
  destruct (find r (cur ++ [c])%list) as [[| m1 es1 | t]|] eqn:E1.
  - destruct rest; [injection Hwalk as <-; congruence|]. eapply IH; eauto; discriminate.
  - destruct rest; [injection Hwalk as <-; congruence|]. eapply IH; eauto; discriminate.
  - destruct rest; [injection Hwalk as <-; congruence|].
    destruct (within_limit lim used); [|discriminate]. eapply IH; eauto; discriminate.
  - destruct rest; [|discriminate]. injection Hwalk as <-.
    exists cur, c, m, es. auto.
Qed.

(** [mkdir] on such a path makes the directory, and nothing else. *)
Lemma mkdir_walk_new r lim md : ∀ comps cur used k,
  comps ≠ [] → walk r lim false cur comps used = Ok k → find r k = None →
  mkdir_walk r lim md cur comps used = Ok (put r k (Some (NDir md []))).
Proof.
  induction comps as [|c rest IH]; intros cur used k Hne Hwalk Hk; [congruence|].
  cbn [walk mkdir_walk] in *.
  destruct (find r cur) as [[| m es |]|] eqn:Ecur; try discriminate.
  destruct (find r (cur ++ [c])%list) as [[| m1 es1 | t]|] eqn:E1.
  - destruct rest as [|c2 rest]; [injection Hwalk as <-; congruence|].
    cbn [walk] in Hwalk. rewrite E1 in Hwalk. discriminate.
  - destruct rest; [injection Hwalk as <-; congruence|]. apply IH; auto; discriminate.
  - destruct rest; [injection Hwalk as <-; congruence|].
    destruct (within_limit lim used); [|discriminate]. apply IH; auto; discriminate.
  - destruct rest; [|discriminate]. injection Hwalk as <-. reflexivity.
Qed.

(** Putting an entry at a place that held nothing: a path that resolved
    to an entry that exists, or to that place, resolves as before. *)
Lemma walk_put_new r lim fl (k : Path) x :
  find r k = None → match x with NLink _ => False | _ => True end →
  is_Some (find (put r k (Some x)) k) →
  ∀ comps cur used k',
    walk r lim fl cur comps used = Ok k' → is_Some (find r k') ∨ k' = k →
    walk (put r k (Some x)) lim fl cur comps used = Ok k'.
Proof.
  intros Hnone Hx Hsome.
  assert (k ≠ []) as Hk by (intros ->; discriminate).
  pose proof (find_put_eq r k x Hk Hsome) as Hnew.
  assert (∀ q, k `prefix_of` q → find r q = None) as Hbelow
    by (intros q [q' ->]; now apply find_None_below).
  induction comps as [|c rest IH]; intros cur used k' Hwalk Hk'; [exact Hwalk|].
  cbn [walk] in *.
  destruct (find r cur) as [[| m es |]|] eqn:Ecur; try discriminate.
  assert (¬ k `prefix_of` cur) as Hcur
    by (intros H; apply Hbelow in H; congruence).
  pose proof (find_put_above k x r cur Hcur) as Hsame. rewrite Ecur in Hsame.
  destruct (find (put r k (Some x)) cur) as [[| m' es' |]|]; try contradiction.
  destruct (decide (k `prefix_of` (cur ++ [c])%list)) as [Hpre|Hpre].
  - rewrite (Hbelow _ Hpre) in Hwalk.
    destruct rest; [|discriminate]. injection Hwalk as <-.
    destruct Hk' as [[? Hk']| ->]; [rewrite (Hbelow _ Hpre) in Hk'; discriminate|].
    rewrite Hnew. destruct x; [reflexivity | reflexivity | contradiction].
  - pose proof (find_put_above k x r (cur ++ [c])%list Hpre) as Hsame'.
    destruct (find r (cur ++ [c])%list) as [[| m2 es2 | t]|],
             (find (put r k (Some x)) (cur ++ [c])%list) as [[| m3 es3 | t']|];
      cbn in Hsame'; try contradiction; subst; auto.
    destruct (match rest with [] => negb fl | _ => false end); [exact Hwalk|].
    destruct (within_limit lim used); [auto | exact Hwalk].
Qed.

(** *** The primitives at a place that held nothing *)

Lemma next_fault_became w f w' : next_fault w = (f, w') → tree_became w w' (root w).
Proof.
  unfold next_fault, tree_became. destruct (plan w); intros [= <- <-]; cbn; auto.
Qed.

Lemma tree_became_trans w w1 w2 r1 r2 :
  tree_became w w1 r1 → tree_became w1 w2 r2 → tree_became w w2 r2.
Proof. intros (? & ? & ? & ?) (? & ? & ? & ?). repeat split; congruence. Qed.

Lemma resolve_same w w' follow path :
  root w' = root w → link_max w' = link_max w →
  resolve w' follow path = resolve w follow path.
Proof. intros Hr Hl. unfold resolve. now rewrite Hr, Hl. Qed.

Lemma m_open_new w target md fd w1 kt :
  resolve w true target = Ok kt → find (root w) kt = None →
  m_open target "w" md w = (Ok fd, w1) →
  tree_became w w1
    (put (root w) kt (Some (NFile "" "" (created_mode w md) (clock w) (clock w))))
  ∧ is_Some (find (root w1) kt)
  ∧ open_files w1 !! fd = Some {| of_key := kt; of_mode := mode_w; of_pos := 0 |}.
Proof.
  intros Hres Hnone. unfold m_open, faulty.
  destruct (next_fault w) as [[f|] w0] eqn:Ef; [discriminate|].
  pose proof (next_fault_became _ _ _ Ef) as (Hr & Hl & Hc & Hu).
  change (parse_flag "w") with (Some mode_w). cbn match.
  assert (created_mode w0 md = created_mode w md) as Hcm
    by (unfold created_mode; now rewrite Hu).
  rewrite (resolve_same w w0) by assumption. rewrite Hres, Hr, Hnone, Hc, Hcm. cbn.
  destruct (find (put (root w) kt _) kt) eqn:Enew; [|discriminate].
  unfold alloc_fd. intros [= <- <-]. cbn. rewrite Enew.
  repeat split; eauto. apply lookup_insert_eq.
Qed.

Lemma m_writeFile_fd_exact w fd kt d dur m a t w' :
  open_files w !! fd = Some {| of_key := kt; of_mode := mode_w; of_pos := 0 |} →
  find (root w) kt = Some (NFile "" dur m a t) →
  m_writeFile_fd fd d w = (Ok tt, w') →
  tree_became w w' (put (root w) kt (Some (NFile d dur m a t))).
Proof.
  intros Hfd Hfind. unfold m_writeFile_fd.
  destruct (next_fault w) as [f w0] eqn:Ef.
  pose proof (next_fault_became _ _ _ Ef) as (Hr & Hl & Hc & Hu).
  apply next_fault_tree in Ef as (_ & _ & Ho & _).
  rewrite Ho, Hfd. cbn. rewrite Hr, Hfind.
  destruct f as [f|]; [discriminate|].
  assert (overwrite "" 0 d = d) as ->.
  { unfold overwrite. cbn. destruct (String.length d); cbn; apply string_app_empty. }
  intros [= <-]. repeat split; assumption.
Qed.

Lemma close_fd_became fd w r w' : close_fd fd w = (r, w') → tree_became w w' (root w).
Proof.
  unfold close_fd. destruct (open_files w !! fd); intros [= <- <-]; repeat split.
Qed.

Lemma m_chmod_exact w target md kt d dur m a t w' :
  resolve w true target = Ok kt → find (root w) kt = Some (NFile d dur m a t) →
  m_chmod target md w = (Ok tt, w') →
  tree_became w w' (put (root w) kt (Some (NFile d dur md a t))).
Proof.
  intros Hres Hfind. unfold m_chmod, faulty.
  destruct (next_fault w) as [[f|] w0] eqn:Ef; [discriminate|].
  pose proof (next_fault_became _ _ _ Ef) as (Hr & Hl & Hc & Hu).
  rewrite (resolve_same w w0) by assumption. rewrite Hres, Hr, Hfind.
  intros [= <-]. repeat split; assumption.
Qed.

Lemma m_mkdir_new w target md kt w' :
  resolve w false target = Ok kt → find (root w) kt = None →
  m_mkdir target md w = (Ok tt, w') →
  tree_became w w' (put (root w) kt (Some (NDir (created_mode w md) []))).
Proof.
  intros Hres Hnone. unfold m_mkdir, faulty.
  destruct (next_fault w) as [[f|] w0] eqn:Ef; [discriminate|].
  pose proof (next_fault_became _ _ _ Ef) as (Hr & Hl & Hc & Hu).
  unfold resolve in Hres.
  assert (components target ≠ []) as Hne.
  { intros E. rewrite E in Hres. injection Hres as <-. discriminate. }
  rewrite Hr, Hl, (mkdir_walk_new _ _ _ _ _ _ kt Hne Hres Hnone).
  unfold created_mode. rewrite Hu.
  intros [= <-]. repeat split; assumption.
Qed.

Lemma m_readdir_dir w source ks m es names w' :
  resolve w true source = Ok ks → find (root w) ks = Some (NDir m es) →
  m_readdir source w = (Ok names, w') →
  names = map fst es ∧ tree_became w w' (root w).
Proof.
  intros Hres Hfind. unfold m_readdir, faulty.
  destruct (next_fault w) as [[f|] w0] eqn:Ef; [discriminate|].
  pose proof (next_fault_became _ _ _ Ef) as (Hr & Hl & Hc & Hu).
  rewrite (resolve_same w w0) by assumption. rewrite Hres, Hr, Hfind.
  intros [= <- <-]. repeat split; assumption.
Qed.

(** *** The primitives when no fault is planned *)

Lemma m_lstat_ok w source ks f :
  plan w = [] → resolve w false source = Ok ks → find (root w) ks = Some f →
  m_lstat source w = (Ok (stats_of f), w).
Proof.
  intros Hp Hres Hfind. unfold m_lstat. rewrite faulty_no_plan by assumption.
  now rewrite Hres, Hfind.
Qed.

Lemma m_open_new_ok w target md kt :
  plan w = [] → resolve w true target = Ok kt → find (root w) kt = None →
  is_Some (find (put (root w) kt
                   (Some (NFile "" "" (created_mode w md) (clock w) (clock w)))) kt) →
  ∃ fd w1, m_open target "w" md w = (Ok fd, w1) ∧ plan w1 = [].
Proof.
  intros Hp Hres Hnone [x Hx]. unfold m_open. rewrite faulty_no_plan by assumption.
  change (parse_flag "w") with (Some mode_w). cbn match.
  rewrite Hres, Hnone. cbn. rewrite Hx. unfold alloc_fd. eauto.
Qed.

Lemma m_writeFile_fd_ok w fd kt d d0 dur m a t :
  plan w = [] →
  open_files w !! fd = Some {| of_key := kt; of_mode := mode_w; of_pos := 0 |} →
  find (root w) kt = Some (NFile d0 dur m a t) →
  ∃ w', m_writeFile_fd fd d w = (Ok tt, w') ∧ plan w' = []
        ∧ is_Some (open_files w' !! fd).
Proof.
  intros Hp Hfd Hfind. unfold m_writeFile_fd, next_fault. rewrite Hp, Hfd. cbn.
  rewrite Hfind. eexists. split; [reflexivity|]. cbn. split; [exact Hp|].
  rewrite lookup_insert_eq. eauto.
Qed.

Lemma close_fd_ok w fd :
  is_Some (open_files w !! fd) →
  ∃ w', close_fd fd w = (Ok tt, w') ∧ plan w' = plan w.
Proof. intros [o Ho]. unfold close_fd. rewrite Ho. eauto. Qed.

Lemma m_chmod_ok w target md kt d dur m a t :
  plan w = [] → resolve w true target = Ok kt →
  find (root w) kt = Some (NFile d dur m a t) →
  ∃ w', m_chmod target md w = (Ok tt, w') ∧ plan w' = [].
Proof.
  intros Hp Hres Hfind. unfold m_chmod. rewrite faulty_no_plan by assumption.
  rewrite Hres, Hfind. eauto.
Qed.

Lemma m_mkdir_ok w target md kt :
  plan w = [] → resolve w false target = Ok kt → find (root w) kt = None →
  ∃ w', m_mkdir target md w = (Ok tt, w') ∧ plan w' = [].
Proof.
  intros Hp Hres Hnone. unfold m_mkdir. rewrite faulty_no_plan by assumption.
  unfold resolve in Hres.
  assert (components target ≠ []) as Hne.
  { intros E. rewrite E in Hres. injection Hres as <-. discriminate. }
  rewrite (mkdir_walk_new _ _ _ _ _ _ kt Hne Hres Hnone). eauto.
Qed.

Lemma m_readdir_ok w source ks m es :
  plan w = [] → resolve w true source = Ok ks → find (root w) ks = Some (NDir m es) →
  m_readdir source w = (Ok (map fst es), w).
Proof.
  intros Hp Hres Hfind. unfold m_readdir. rewrite faulty_no_plan by assumption.
  now rewrite Hres, Hfind.
Qed.

Lemma depth_entry m es name child :
  (name, child) ∈ es → (depth child < depth (NDir m es))%nat.
Proof.
  intros Hin. cbn [depth]. apply Nat.lt_succ_r.
  induction es as [|[k x] es IH]; [inversion Hin|].
  cbn [foldr]. apply elem_of_cons in Hin as [[= <- <-]|Hin]; [lia|].
  specialize (IH Hin). lia.
Qed.

(** *** The steps of [copy] on a plain tree *)

Section CopyTree.
Context `{P : Platform}.
Hypothesis Hmac : isMacintosh = false.

(** [SymlinkSupport.stat] on a path that names a file or a directory: when
    it answers, the answer is the stats of the entry, with no
    [symbolicLink] field, whether [lstat] failed or not. *)
Lemma SymlinkSupport_stat_node source (st : State World) ks f rs st2 :
  resolve (world st) false source = Ok ks →
  find (root (world st)) ks = Some f → no_link f →
  SymlinkSupport_stat source st = Some (Ok rs, st2) →
  rs = {| stat := stats_of f; symbolicLink := None |}
  ∧ tree_became (world st) (world st2) (root (world st))
  ∧ handled st2 = handled st.
Proof.
  intros Hres Hfind Hf.
  assert (resolve (world st) true source = Ok ks) as Hres'.
  { unfold resolve in *. apply walk_follow_last; [exact Hres|].
    rewrite Hfind. now destruct f. }
  unfold SymlinkSupport_stat, bind, try_catch, call, ret, throw.
  cbn [fs_lstat fs_stat model_sys]. unfold m_lstat, m_stat, faulty.
  destruct (next_fault (world st)) as [[x|] w0] eqn:Ef;
    apply next_fault_became in Ef as (Hr & Hl & Hc & Hu); cbn.
  - destruct (next_fault w0) as [[y|] w1] eqn:Ef1;
      apply next_fault_became in Ef1 as (Hr1 & Hl1 & Hc1 & Hu1); cbn; [discriminate|].
    rewrite (resolve_same w0 w1), (resolve_same (world st) w0) by assumption.
    rewrite Hres', Hr1, Hr, Hfind.
    destruct f; try contradiction; cbn; intros [= <- <-]; cbn;
      repeat split; congruence.
  - rewrite (resolve_same (world st) w0) by assumption.
    rewrite Hres, Hr, Hfind.
    destruct f; try contradiction; cbn; intros [= <- <-]; cbn;
      repeat split; congruence.
Qed.

(** [doCopyFile] to a place that held nothing. *)
Lemma doCopyFile_new source target md (st : State World) ks kt d dur m a t st' :
  resolve (world st) true source = Ok ks →
  find (root (world st)) ks = Some (NFile d dur m a t) →
  resolve (world st) true target = Ok kt →
  find (root (world st)) kt = None →
  doCopyFile source target md st = Some (Ok tt, st') →
  tree_became (world st) (world st')
    (put (root (world st)) kt
       (Some (NFile d "" md (clock (world st)) (clock (world st)))))
  ∧ handled st' = handled st.
Proof.
  intros Hrs Hfs Hrt Hft.
  assert (kt ≠ ks) as Hne by congruence.
  assert (kt ≠ []) as Hk by (intros ->; discriminate).
  set (w := world st) in *. set (c := clock w).
  unfold doCopyFile, bind, call. cbn [fs_pipe fs_chmod model_sys]. fold w.
  unfold m_pipe.
  destruct (m_open target "w" md w) as [[fd|e] w1] eqn:Eopen; [|discriminate].
  apply (m_open_new w target md fd w1 kt Hrt Hft) in Eopen
    as ((Hr1 & Hl1 & Hc1 & Hu1) & Hsome1 & Hfd1).
  fold c in Hr1. set (md0 := created_mode w md) in *.
  assert (find (root w1) kt = Some (NFile "" "" md0 c c)) as Hf1.
  { rewrite Hr1 in *. now apply find_put_eq. }
  assert (∀ x, is_file x = true → is_Some (find (put (root w) kt (Some x)) kt) →
            resolve (with_root (put (root w) kt (Some x)) w) true source = Ok ks
            ∧ find (put (root w) kt (Some x)) ks = Some (NFile d dur m a t)
            ∧ resolve (with_root (put (root w) kt (Some x)) w) true target = Ok kt)
    as Hkeep.
  { intros x Hx Hsome. split; [|split].
    - unfold resolve in *. cbn. apply walk_put_file; auto. now rewrite Hft.
    - apply find_put_keeps_file; auto. now rewrite Hft.
    - unfold resolve in *. cbn. apply walk_put_file; auto. now rewrite Hft. }
  destruct (Hkeep (NFile "" "" md0 c c) eq_refl) as (Hrs1 & Hfs1 & Hrt1);
    [rewrite <- Hr1; exact Hsome1|].
  rewrite <- (resolve_same _ w1) in Hrs1, Hrt1 by (cbn; congruence).
  rewrite <- Hr1 in Hfs1.
  assert (read_data source w1 = Ok d) as ->
    by (unfold read_data; now rewrite Hrs1, Hfs1).
  destruct (m_writeFile_fd fd d w1) as [[[]|ew] w2] eqn:Ewrite;
    destruct (close_fd fd w2) as [rc w3] eqn:Eclose; cbn [snd]; [|discriminate].
  apply (m_writeFile_fd_exact w1 fd kt d "" md0 c c w2 Hfd1 Hf1) in Ewrite
    as (Hr2 & Hl2 & Hc2 & Hu2).
  rewrite Hr1, put_put in Hr2.
  apply close_fd_became in Eclose as (Hr3 & Hl3 & Hc3 & Hu3).
  assert (is_Some (find (put (root w) kt (Some (NFile d "" md0 c c))) kt)) as Hsome2.
  { rewrite <- (put_put kt (NFile "" "" md0 c c)).
    apply find_put_is_Some; [exact Hk | rewrite <- Hr1; exact Hsome1]. }
  destruct (Hkeep (NFile d "" md0 c c) eq_refl Hsome2) as (_ & _ & Hrt3).
  rewrite <- (resolve_same _ w3) in Hrt3 by (cbn; congruence).
  assert (find (root w3) kt = Some (NFile d "" md0 c c)) as Hf3.
  { rewrite Hr3, Hr2. now apply find_put_eq. }
  cbn.
  destruct (m_chmod target md w3) as [[[]|ec] w4] eqn:Echmod; [|discriminate].
  apply (m_chmod_exact w3 target md kt d "" md0 c c w4 Hrt3 Hf3) in Echmod
    as (Hr4 & Hl4 & Hc4 & Hu4).
  rewrite Hr3, Hr2, put_put in Hr4.
  intros [= <-]. cbn. repeat split; congruence.
Qed.

Lemma call_inv {A} (o : Op) (f : World → Res A * World) (st : State World) r st' :
  call o f st = Some (r, st') →
  f (world st) = (r, world st') ∧ handled st' = handled st.
Proof.
  unfold call. destruct (f (world st)) as [r0 w0]. intros [= <- <-]. cbn. auto.
Qed.

Lemma recorded_same (st st' : State World) r p :
  handled st' = handled st → recorded st' r p ↔ recorded st r p.
Proof. intros H. unfold recorded, object_of. now rewrite H. Qed.

Lemma below_refl p : below p p.
Proof. unfold below. reflexivity. Qed.

Lemma below_join source name j p :
  components j = (components source ++ [name])%list → below j p → below source p.
Proof.
  unfold below. intros ->. intros H. etransitivity; [|exact H]. now apply prefix_app_r.
Qed.

Lemma not_below_join_self source name j :
  components j = (components source ++ [name])%list → ¬ below j source.
Proof. unfold below. intros ->. apply prefix_snoc_not. Qed.

Lemma below_join_inj source n1 n2 j1 j2 p :
  components j1 = (components source ++ [n1])%list →
  components j2 = (components source ++ [n2])%list →
  below j1 p → below j2 p → n1 = n2.
Proof.
  unfold below. intros -> -> P1 P2.
  pose proof (prefix_same_length _ _ _ P1 P2) as E.
  rewrite !length_app in E. specialize (E eq_refl).
  now apply app_inj_tail in E as [_ E].
Qed.

(** [join] appends the name of an entry to the source and to the target,
    and goes on doing so below them. *)
Lemma appends_entry source target m es name child :
  appends source target (NDir m es) → (name, child) ∈ es →
  components (join source name) = (components source ++ [name])%list
  ∧ components (join target name) = (components target ++ [name])%list
  ∧ appends (join source name) (join target name) child.
Proof.
  cbn [appends]. induction es as [|[k x] es IH]; intros Happ Hin; [inversion Hin|].
  cbn [foldr] in Happ. destruct Happ as [Hk Hrest].
  apply elem_of_cons in Hin as [[= <- <-]|Hin]; [exact Hk | exact (IH Hrest Hin)].
Qed.

Lemma plain_entries m es :
  plain (NDir m es) = true →
  NoDup (map fst es)
  ∧ ∀ name child, (name, child) ∈ es → valid_name name = true ∧ plain child = true.
Proof.
  cbn [plain]. intros H. apply andb_true_iff in H as [Hnd Hall].
  apply bool_decide_eq_true in Hnd. split; [exact Hnd|].
  intros name child Hin. rewrite forallb_forall in Hall.
  apply list_elem_of_In, Hall in Hin. now apply andb_true_iff in Hin.
Qed.

Lemma plain_no_link n : plain n = true → no_link n.
Proof. destruct n; [exact (λ _, I) | exact (λ _, I) | discriminate]. Qed.

(** A [join] that puts a slash between its arguments appends the names
    of every plain tree. *)
Lemma posix_join_appends :
  (∀ a b, join a b = posix_join a b) →
  ∀ n source target, plain n = true → appends source target n.
Proof.
  intros Hjoin n.
  remember (depth n) as d eqn:Hd. assert (depth n ≤ d)%nat as Hle by lia. clear Hd.
  revert n Hle. induction d as [|d IH]; intros n Hle source target Hplain;
    (destruct n as [| m es |]; [exact I | | exact I]); [cbn in Hle; lia|].
  destruct (plain_entries m es Hplain) as [_ Hall].
  assert (∀ k x, (k, x) ∈ es → depth x ≤ d)%nat as Hdepth
    by (intros k x Hin; pose proof (depth_entry m es k x Hin); lia).
  clear Hle Hplain. cbn [appends].
  induction es as [|[k x] es IHes]; [exact I|].
  cbn [foldr].
  destruct (Hall k x ltac:(left)) as [Hv Hpx].
  split.
  - rewrite !Hjoin, !(components_join _ _ Hv). repeat split.
    apply IH; [apply (Hdepth k x); left | exact Hpx].
  - apply IHes.
    + intros name child Hin. apply Hall. now right.
    + intros name child Hin. apply (Hdepth name child). now right.
Qed.

(** The target and the source after something that is no link was put at
    the target. *)
Lemma ready_put r source target ks kt n (st : State World) x :
  ready r source target ks kt n st → no_link x →
  kt ≠ []
  ∧ is_Some (find (put (root (world st)) kt (Some x)) kt)
  ∧ find (put (root (world st)) kt (Some x)) kt = Some x
  ∧ find (put (root (world st)) kt (Some x)) ks = Some n
  ∧ (∀ fl, walk (put (root (world st)) kt (Some x)) (link_max (world st)) fl []
             (components source) 0 = Ok ks)
  ∧ (∀ fl, walk (put (root (world st)) kt (Some x)) (link_max (world st)) fl []
             (components target) 0 = Ok kt).
Proof.
  intros (Hrs & Hfs & Hplain & Hrt & Hft & Hin & Hrec & Happ) Hx.
  pose proof (plain_no_link n Hplain) as Hnl.
  assert (kt ≠ []) as Hkt by (intros ->; discriminate).
  assert (is_Some (find (put (root (world st)) kt (Some x)) kt)) as Hsome.
  { unfold resolve in Hrt.
    destruct (walk_new_parent (root (world st)) (link_max (world st))
                (components target) [] 0 kt) as (kp & c0 & m0 & es0 & -> & Hkp); auto.
    - intros E. rewrite E in Hrt. now injection Hrt as <-.
    - eapply find_put_new_is_Some; eauto. }
  assert (¬ kt `prefix_of` ks) as Hin'.
  { intros [q ->]. rewrite find_None_below in Hfs by assumption. discriminate. }
  unfold resolve in *.
  split; [exact Hkt|]. split; [exact Hsome|].
  split; [now apply find_put_eq|]. split; [now rewrite find_put_disjoint|].
  split; intros fl.
  - apply (walk_put_new _ _ _ _ _ Hft Hx Hsome); [|left; rewrite Hfs; eauto].
    destruct fl; [|exact Hrs]. apply walk_follow_last; [exact Hrs|].
    rewrite Hfs. now destruct n.
  - apply (walk_put_new _ _ _ _ _ Hft Hx Hsome); [|now right].
    destruct fl; [|exact Hrt]. apply walk_follow_last; [exact Hrt | now rewrite Hft].
Qed.

Lemma copied_entries_names u c es : map fst (copied_entries u c es) = map fst es.
Proof.
  unfold copied_entries. rewrite map_map. apply map_ext. now intros [k x].
Qed.

(** Between two entries the next entry is ready to be copied. *)
Lemma entry_ready r source target ks kt m es es1 name child es2
    (st sti : State World) :
  ready r source target ks kt (NDir m es) st →
  es = (es1 ++ (name, child) :: es2)%list →
  copying r source kt (created_mode (world st) (Z.land m 511)) es1 st sti →
  ready r (join source name) (join target name)
    (ks ++ [name])%list (kt ++ [name])%list child sti.
Proof.
  intros Hready Hes ((Hri & Hli & Hci & Hui) & Hreci).
  destruct (ready_put _ _ _ _ _ _ _
              (NDir (created_mode (world st) (Z.land m 511))
                 (copied_entries (umask (world st)) (clock (world st)) es1)) Hready I)
    as (Hkt & Hsome & Hnew & Hsrc & Wsrc & Wtgt).
  destruct Hready as (Hrs & Hfs & Hplain & Hrt & Hft & Hin & Hrec & Happ).
  destruct (plain_entries m es Hplain) as [Hnd Hall].
  assert ((name, child) ∈ es) as Hmem
    by (rewrite Hes; apply elem_of_app; right; constructor).
  destruct (Hall name child Hmem) as [Hv Hpc].
  destruct (appends_entry _ _ _ _ _ _ Happ Hmem) as (Ejs & Ejt & Happ').
  assert (name ∉ map fst es1) as Hfresh.
  { rewrite Hes, map_app in Hnd. apply NoDup_app in Hnd as (_ & Hd & _).
    intros Hx. apply (Hd name Hx). constructor. }
  assert (find (root (world sti)) (ks ++ [name])%list = Some child) as Hfc.
  { rewrite Hri, find_app, Hsrc. cbn [find].
    now rewrite (alist_lookup_In name child es Hnd Hmem). }
  assert (find (root (world sti)) (kt ++ [name])%list = None) as Hft'.
  { rewrite Hri, find_app, Hnew. cbn [find].
    assert (alist_lookup name
              (copied_entries (umask (world st)) (clock (world st)) es1) = None) as ->;
      [|reflexivity].
    apply alist_lookup_None. now rewrite copied_entries_names. }
  repeat split; try assumption.
  - unfold resolve. rewrite Ejs, Hri, Hli.
    eapply walk_app_last; [apply Wsrc | apply Hsrc|].
    rewrite <- Hri, Hfc. now destruct child.
  - unfold resolve. rewrite Ejt, Hri, Hli.
    eapply walk_app_last; [apply Wtgt | apply Hnew|].
    now rewrite <- Hri, Hft'.
  - intros Hx. apply Hin. now apply prefix_snoc_snoc in Hx.
  - intros p Hp Hb. destruct (Hreci p Hp) as [Hp'|[->|(name' & Hn' & Hb')]].
    + apply (Hrec p Hp'). now apply (below_join source name (join source name)).
    + now apply (not_below_join_self source name (join source name)).
    + apply Hfresh.
      apply list_elem_of_fmap in Hn' as ([k x] & -> & Hk).
      assert (Hk' : (k, x) ∈ es) by (rewrite Hes; apply elem_of_app; now left).
      destruct (appends_entry _ _ _ _ _ _ Happ Hk') as (Ek & _).
      rewrite (below_join_inj source name k _ _ p Ejs Ek) by assumption.
      apply list_elem_of_fmap. exists (k, x). auto.
Qed.

(** When the entry has been copied, the target directory holds one copy
    more. *)
Lemma entry_done r source target ks kt m es es1 name child es2
    (st sti stj : State World) :
  ready r source target ks kt (NDir m es) st →
  es = (es1 ++ (name, child) :: es2)%list →
  copying r source kt (created_mode (world st) (Z.land m 511)) es1 st sti →
  copy_made r (join source name) (kt ++ [name])%list
    (copied (umask (world sti)) (clock (world sti)) child) sti stj →
  copying r source kt (created_mode (world st) (Z.land m 511))
    (es1 ++ [(name, child)])%list st stj.
Proof.
  intros Hready Hes ((Hri & Hli & Hci & Hui) & Hreci) ((Hrj & Hlj & Hcj & Huj) & Hrecj).
  destruct (ready_put _ _ _ _ _ _ _
              (NDir (created_mode (world st) (Z.land m 511))
                 (copied_entries (umask (world st)) (clock (world st)) es1)) Hready I)
    as (Hkt & Hsome & _).
  destruct Hready as (_ & _ & Hplain & _).
  destruct (plain_entries m es Hplain) as [Hnd _].
  assert (name ∉ map fst es1) as Hfresh.
  { rewrite Hes, map_app in Hnd. apply NoDup_app in Hnd as (_ & Hd & _).
    intros Hx. apply (Hd name Hx). constructor. }
  split.
  - repeat split; [|congruence..].
    rewrite Hrj, Hri, Hci, Hui, put_put_child by assumption.
    unfold copied_entries at 2. rewrite map_app. cbn [map].
    rewrite alist_insert_new; [reflexivity|].
    apply alist_lookup_None. now rewrite copied_entries_names.
  - intros p Hp. destruct (Hrecj p Hp) as [Hp'|Hb].
    + destruct (Hreci p Hp') as [?|[?|(name' & Hn' & Hb')]]; auto.
      right; right. exists name'. split; [|exact Hb'].
      rewrite map_app. apply elem_of_app. now left.
    + right; right. exists name. split; [|exact Hb].
      rewrite map_app. apply elem_of_app. right. constructor.
Qed.

(** After the last entry the directory is copied. *)
Lemma copying_end r source target ks kt m es (st st' : State World) :
  ready r source target ks kt (NDir m es) st →
  copying r source kt (created_mode (world st) (Z.land m 511)) es st st' →
  copy_made r source kt (copied (umask (world st)) (clock (world st)) (NDir m es)) st st'.
Proof.
  intros (_ & _ & Hplain & _ & _ & _ & _ & Happ) (Htree & Hrec).
  split; [exact Htree|]. intros p Hp.
  destruct (Hrec p Hp) as [?|[->|(name & Hn & Hb)]];
    [now left | right; apply below_refl | right].
  apply list_elem_of_fmap in Hn as ([name' child'] & -> & Hn).
  destruct (appends_entry _ _ _ _ _ _ Happ Hn) as (Ek & _).
  now apply (below_join source name' _ p Ek).
Qed.

(** The head of [copy]: the record of the source and the look at it. *)
Lemma copy_head fuel source target r ks kt n (st : State World) :
  ready r source target ks kt n st →
  ∃ st1, world st1 = world st
         ∧ (∀ p, recorded st1 r p → recorded st r p ∨ p = source)
         ∧ copy (Datatypes.S fuel) source target (Some r) st
           = bind (SymlinkSupport_stat source)
               (λ s, if from_option id false (symbolicLink s) then ret tt
                     else if negb (isDirectory (stat s))
                     then doCopyFile source target (Z.land (mode (stat s)) COPY_MODE_MASK)
                     else
                       bind (call (OpMkdir target (Z.land (mode (stat s)) COPY_MODE_MASK))
                                  (fs_mkdir target (Z.land (mode (stat s)) COPY_MODE_MASK)))
                         (λ _, bind (readdir source)
                                 (λ files, for_each files
                                    (λ file, copy fuel (join source file)
                                               (join target file) (Some r))))) st1.
Proof.
  intros (_ & _ & _ & _ & _ & _ & Hrec & _).
  eexists. split; [|split]; cycle 2.
  - cbn [copy].
    rewrite (bind_Some _ _ st r st) by reflexivity.
    rewrite (bind_Some _ _ st false st).
    2: { unfold get_field. specialize (Hrec source). unfold recorded in Hrec.
         destruct (object_of st r !! source) as [[]|]; try reflexivity.
         exfalso. apply Hrec; [reflexivity | apply below_refl]. }
    rewrite (bind_Some _ _ _ tt _ eq_refl). reflexivity.
  - reflexivity.
  - intros p. unfold recorded, object_of. cbn.
    rewrite lookup_insert_eq. cbn.
    destruct (decide (source = p)) as [->|Hne]; [auto|].
    rewrite lookup_insert_ne by assumption. auto.
Qed.

(** A run of [copy] that returns made the copy. *)
Lemma copy_tree_run fuel : ∀ source target r (st : State World) ks kt n st',
  ready r source target ks kt n st →
  copy fuel source target (Some r) st = Some (Ok tt, st') →
  copy_made r source kt (copied (umask (world st)) (clock (world st)) n) st st'.
Proof.
  induction fuel as [|fuel IH]; intros source target r st ks kt n st' Hready;
    [discriminate|].
  destruct (copy_head fuel _ _ _ _ _ _ _ Hready) as (st1 & Hw1 & Hrec1 & ->).
  destruct (ready_put _ _ _ _ _ _ _
              (NDir (created_mode (world st) (Z.land (mode (stats_of n)) 511)) [])
              Hready I)
    as (Hkt & Hsome & Hnew & Hsrc & Wsrc & Wtgt).
  pose proof Hready as (Hrs & Hfs & Hplain & Hrt & Hft & Hin & Hrec & Happ).
  pose proof (plain_no_link n Hplain) as Hnl.
  unfold bind at 1.
  destruct (SymlinkSupport_stat source st1) as [[[rs|e] st2]|] eqn:Estat;
    [|discriminate..].
  apply (SymlinkSupport_stat_node source st1 ks n) in Estat
    as (-> & (Hr2 & Hl2 & Hc2 & Hu2) & Hh2); [|rewrite Hw1; assumption..|assumption].
  rewrite Hw1 in Hr2, Hl2, Hc2, Hu2.
  assert (∀ p, recorded st2 r p → recorded st r p ∨ p = source) as Hrec2
    by (intros p Hp; apply Hrec1; now apply (recorded_same st1 st2)).
  clear Hrec1 Hh2 Hw1 st1.
  cbn [symbolicLink stat from_option].
  destruct n as [d dur m a t | m es | t]; [| |discriminate].
  - (* a file *)
    cbn [stats_of]. unfold isDirectory. cbn [kind negb mode]. intros Hcopy.
    apply (doCopyFile_new source target _ st2 ks kt d dur m a t st') in Hcopy
      as ((Hr & Hl & Hc & Hu) & Hh);
      [| rewrite (resolve_same (world st)) by assumption;
         unfold resolve; apply walk_follow_last; [exact Hrs | now rewrite Hfs]
       | rewrite Hr2; assumption
       | rewrite (resolve_same (world st)) by assumption;
         unfold resolve; apply walk_follow_last; [exact Hrt | now rewrite Hft]
       | rewrite Hr2; assumption].
    split.
    + cbn [copied]. unfold COPY_MODE_MASK in Hr.
      repeat split; [rewrite Hr, Hr2, Hc2; reflexivity | congruence..].
    + intros p Hp. apply (recorded_same st2 st') in Hp; [|exact Hh].
      destruct (Hrec2 p Hp) as [?| ->]; [now left | right; apply below_refl].
  - (* a directory *)
    cbn [stats_of mode] in *. cbn [stats_of]. unfold isDirectory. cbn [kind negb mode].
    unfold COPY_MODE_MASK. set (md := created_mode (world st) (Z.land m 511)) in *.
    unfold bind at 1.
    destruct (call _ _ st2) as [[[[]|e] st3]|] eqn:Emk; [|discriminate..].
    apply call_inv in Emk as [Emk Hh3]. cbn [fs_mkdir model_sys] in Emk.
    apply (m_mkdir_new _ _ _ kt) in Emk as (Hr3 & Hl3 & Hc3 & Hu3);
      [| rewrite (resolve_same (world st)) by assumption; assumption
       | rewrite Hr2; assumption].
    assert (created_mode (world st2) (Z.land m 511) = md) as Hmd
      by (unfold md, created_mode; now rewrite Hu2).
    rewrite Hr2, Hmd in Hr3.
    unfold bind at 1. unfold readdir at 1. unfold bind at 1.
    destruct (call _ _ st3) as [[[names|e] st4]|] eqn:Erd; [|discriminate..].
    apply call_inv in Erd as [Erd Hh4]. cbn [fs_readdir model_sys] in Erd.
    apply (m_readdir_dir _ _ ks m es) in Erd as (-> & Hr4 & Hl4 & Hc4 & Hu4);
      [| unfold resolve; rewrite Hr3, Hl3, Hl2; apply Wsrc
       | rewrite Hr3; apply Hsrc].
    cbn [ret]. unfold handleDirectoryChildren. rewrite Hmac.
    assert (∀ es2 es1 sti,
              es = (es1 ++ es2)%list → copying r source kt md es1 st sti →
              for_each (map fst es2)
                (λ file, copy fuel (join source file) (join target file) (Some r)) sti
              = Some (Ok tt, st') →
              copying r source kt md es st st') as Hloop.
    { induction es2 as [|[name child] es2 IHes]; intros es1 sti Hes Hi Hfor.
      - rewrite app_nil_r in Hes. subst es1. cbn in Hfor. now injection Hfor as <-.
      - cbn [map for_each fst] in Hfor. unfold bind at 1 in Hfor.
        destruct (copy fuel (join source name) (join target name) (Some r) sti)
          as [[[[]|e] stj]|] eqn:Echild; try discriminate.
        apply (IH _ _ _ _ (ks ++ [name])%list (kt ++ [name])%list child) in Echild;
          [|eapply entry_ready; eassumption].
        apply (IHes (es1 ++ [(name, child)])%list stj);
          [now rewrite <- app_assoc | | exact Hfor].
        eapply entry_done; eassumption. }
    intros Hfor. apply (copying_end r source target ks kt m es st st' Hready).
    apply (Hloop es [] st4); [reflexivity | | exact Hfor].
    split.
    + repeat split; [rewrite Hr4, Hr3; reflexivity | congruence..].
    + intros p Hp. apply (recorded_same st3 st4) in Hp; [|exact Hh4].
      apply (recorded_same st2 st3) in Hp; [|exact Hh3].
      destruct (Hrec2 p Hp); auto.
Qed.

(** With no fault planned [doCopyFile] to a place that holds nothing, in
    a directory that exists, returns. *)
Lemma doCopyFile_ok source target md (st : State World) ks kt d dur m a t :
  plan (world st) = [] →
  resolve (world st) true source = Ok ks →
  find (root (world st)) ks = Some (NFile d dur m a t) →
  resolve (world st) true target = Ok kt →
  find (root (world st)) kt = None →
  (∀ x, is_Some (find (put (root (world st)) kt (Some x)) kt)) →
  ∃ st', doCopyFile source target md st = Some (Ok tt, st') ∧ plan (world st') = [].
Proof.
  intros Hp Hrs Hfs Hrt Hft Hsome.
  assert (kt ≠ ks) as Hne by congruence.
  assert (kt ≠ []) as Hk by (intros ->; discriminate).
  set (w := world st) in *. set (c := clock w).
  unfold doCopyFile, bind, call. cbn [fs_pipe fs_chmod model_sys]. fold w.
  unfold m_pipe.
  destruct (m_open_new_ok w target md kt Hp Hrt Hft (Hsome _)) as (fd & w1 & Eopen & Hp1).
  rewrite Eopen.
  apply (m_open_new w target md fd w1 kt Hrt Hft) in Eopen
    as ((Hr1 & Hl1 & Hc1 & Hu1) & Hsome1 & Hfd1).
  fold c in Hr1. set (md0 := created_mode w md) in *.
  assert (find (root w1) kt = Some (NFile "" "" md0 c c)) as Hf1
    by (rewrite Hr1; apply find_put_eq; auto).
  assert (∀ x, is_file x = true →
            resolve (with_root (put (root w) kt (Some x)) w) true source = Ok ks
            ∧ find (put (root w) kt (Some x)) ks = Some (NFile d dur m a t)
            ∧ resolve (with_root (put (root w) kt (Some x)) w) true target = Ok kt)
    as Hkeep.
  { intros x Hx. split; [|split].
    - unfold resolve in *. cbn. apply walk_put_file; auto. now rewrite Hft.
    - apply find_put_keeps_file; auto. now rewrite Hft.
    - unfold resolve in *. cbn. apply walk_put_file; auto. now rewrite Hft. }
  destruct (Hkeep (NFile "" "" md0 c c) eq_refl) as (Hrs1 & Hfs1 & _).
  rewrite <- (resolve_same _ w1) in Hrs1 by (cbn; congruence).
  rewrite <- Hr1 in Hfs1.
  assert (read_data source w1 = Ok d) as ->
    by (unfold read_data; now rewrite Hrs1, Hfs1).
  destruct (m_writeFile_fd_ok w1 fd kt d "" "" md0 c c Hp1 Hfd1 Hf1)
    as (w2 & Ewrite & Hp2 & Hfd2).
  rewrite Ewrite.
  apply (m_writeFile_fd_exact w1 fd kt d "" md0 c c w2 Hfd1 Hf1) in Ewrite
    as (Hr2 & Hl2 & Hc2 & Hu2).
  rewrite Hr1, put_put in Hr2.
  destruct (close_fd_ok w2 fd Hfd2) as (w3 & Eclose & Hp3).
  rewrite Eclose. cbn [snd].
  apply close_fd_became in Eclose as (Hr3 & Hl3 & Hc3 & Hu3).
  destruct (Hkeep (NFile d "" md0 c c) eq_refl) as (_ & _ & Hrt3).
  rewrite <- (resolve_same _ w3) in Hrt3 by (cbn; congruence).
  assert (find (root w3) kt = Some (NFile d "" md0 c c)) as Hf3
    by (rewrite Hr3, Hr2; apply find_put_eq; auto).
  destruct (m_chmod_ok w3 target md kt d "" md0 c c) as (w4 & Echmod & Hp4);
    [congruence | assumption | assumption |].
  cbn. rewrite Echmod. eexists. split; [reflexivity | exact Hp4].
Qed.

(** With no fault planned and the recursion allowed to go as deep as the
    tree, [copy] returns. *)
Lemma copy_tree_ok fuel : ∀ source target r (st : State World) ks kt n,
  ready r source target ks kt n st →
  plan (world st) = [] → (depth n < fuel)%nat →
  ∃ st', copy fuel source target (Some r) st = Some (Ok tt, st')
         ∧ plan (world st') = [].
Proof.
  induction fuel as [|fuel IH]; intros source target r st ks kt n Hready Hp Hd; [lia|].
  destruct (copy_head fuel _ _ _ _ _ _ _ Hready) as (st1 & Hw1 & Hrec1 & ->).
  destruct (ready_put _ _ _ _ _ _ _
              (NDir (created_mode (world st) (Z.land (mode (stats_of n)) 511)) [])
              Hready I)
    as (Hkt & Hsome & Hnew & Hsrc & Wsrc & Wtgt).
  pose proof Hready as (Hrs & Hfs & Hplain & Hrt & Hft & Hin & Hrec & Happ).
  pose proof (plain_no_link n Hplain) as Hnl.
  assert (resolve (world st) true source = Ok ks) as Hrs'
    by (unfold resolve; apply walk_follow_last; [exact Hrs | rewrite Hfs; now destruct n]).
  assert (resolve (world st) true target = Ok kt) as Hrt'
    by (unfold resolve; apply walk_follow_last; [exact Hrt | now rewrite Hft]).
  erewrite bind_Some.
  2: { apply (SymlinkSupport_stat_plain source st1 (stats_of n) (world st1)).
       - cbn [fs_lstat model_sys]. rewrite Hw1. now apply (m_lstat_ok _ _ ks).
       - now destruct n. }
  set (st2 := after (OpLstat source) None (world st1) st1).
  assert (world st2 = world st) as Hw2 by (subst st2; cbn; exact Hw1).
  assert (∀ p, recorded st2 r p → recorded st r p ∨ p = source) as Hrec2
    by (intros p Hp'; apply Hrec1; exact Hp').
  clearbody st2. clear Hrec1 Hw1 st1.
  cbn [symbolicLink stat from_option].
  destruct n as [d dur m a t | m es | t]; [| |discriminate].
  - (* a file *)
    cbn [stats_of]. unfold isDirectory. cbn [kind negb mode].
    apply (doCopyFile_ok source target _ st2 ks kt d dur m a t);
      rewrite Hw2; try assumption.
    intros x. destruct (ready_put _ _ _ _ _ _ _ (NFile "" "" 0 0 0) Hready I)
      as (_ & [y Hy] & _).
    rewrite <- (put_put kt (NFile "" "" 0 0 0)).
    apply find_put_is_Some; [exact Hkt | rewrite Hy; eauto].
  - (* a directory *)
    cbn [stats_of mode] in *. cbn [stats_of]. unfold isDirectory. cbn [kind negb mode].
    unfold COPY_MODE_MASK. set (md := created_mode (world st) (Z.land m 511)) in *.
    destruct (m_mkdir_ok (world st2) target (Z.land m 511) kt) as (w3 & Emk & Hp3);
      [rewrite Hw2; assumption..|].
    erewrite bind_Some by (apply call_eq; cbn [fs_mkdir model_sys]; exact Emk).
    apply (m_mkdir_new _ _ _ kt) in Emk as (Hr3 & Hl3 & Hc3 & Hu3);
      [|rewrite Hw2; assumption..].
    rewrite Hw2 in Hr3, Hl3, Hc3, Hu3. fold md in Hr3.
    set (st3 := after _ _ w3 st2).
    assert (world st3 = w3) as Hw3 by reflexivity.
    assert (handled st3 = handled st2) as Hh3 by reflexivity.
    clearbody st3.
    unfold readdir. unfold bind at 1.
    erewrite bind_Some.
    2: { apply call_eq. cbn [fs_readdir model_sys]. rewrite Hw3.
         apply (m_readdir_ok w3 source ks m es); [exact Hp3 | | rewrite Hr3; apply Hsrc].
         unfold resolve. rewrite Hr3, Hl3. apply Wsrc. }
    cbn [ret]. unfold handleDirectoryChildren. rewrite Hmac.
    set (st4 := after _ _ w3 st3).
    assert (world st4 = w3) as Hw4 by reflexivity.
    assert (handled st4 = handled st3) as Hh4 by reflexivity.
    clearbody st4.
    destruct (plain_entries m es Hplain) as [Hnd Hall].
    assert (∀ es2 es1 sti,
              es = (es1 ++ es2)%list → copying r source kt md es1 st sti →
              plan (world sti) = [] →
              ∃ st', for_each (map fst es2)
                       (λ file, copy fuel (join source file) (join target file) (Some r))
                       sti
                     = Some (Ok tt, st')
                     ∧ plan (world st') = []) as Hloop.
    { induction es2 as [|[name child] es2 IHes]; intros es1 sti Hes Hi Hpi.
      - exists sti. split; [reflexivity | exact Hpi].
      - pose proof (entry_ready _ _ _ _ _ _ _ _ _ _ _ _ _ Hready Hes Hi) as Hready'.
        assert ((depth child < fuel)%nat) as Hdc.
        { assert ((name, child) ∈ es) as Hmem
            by (rewrite Hes; apply elem_of_app; right; constructor).
          pose proof (depth_entry m es name child Hmem). lia. }
        destruct (IH _ _ _ _ _ _ _ Hready' Hpi Hdc) as (stj & Echild & Hpj).
        cbn [map for_each fst]. rewrite (bind_Some _ _ _ _ _ Echild).
        apply (IHes (es1 ++ [(name, child)])%list stj);
          [now rewrite <- app_assoc | | exact Hpj].
        eapply entry_done; [exact Hready | exact Hes | exact Hi|].
        eapply copy_tree_run; eassumption. }
    apply (Hloop es [] st4); [reflexivity | | rewrite Hw4; exact Hp3].
    split.
    + rewrite Hw4. repeat split; [rewrite Hr3; reflexivity | congruence..].
    + intros p Hp'. apply (recorded_same st3 st4) in Hp'; [|exact Hh4].
      apply (recorded_same st2 st3) in Hp'; [|exact Hh3].
      destruct (Hrec2 p Hp'); auto.
Qed.

(** X18: on the model, whatever calls fail, on a platform other than
    macOS whose [join] appends the names of the tree to the source and to the
    target, at every level.  The source names a tree of files and
    directories only, under valid names; the target names a place that holds
    nothing and is not inside the source; no path at or below the source is
    recorded in the [handledSources] given.  When [copy] returns, the tree
    is the one before with the copy of the source at the target: every
    directory and every file of the source is there under its name, the files
    with their data and their mode masked to the permission bits, which the
    [chmod] after the copy sets, the directories with the masked mode without
    the bits of the umask, since [mkdir] is given the masked mode and no
    [chmod] follows; and the source is as it was. *)
Theorem copy_tree_content fuel source target hin (st : State World) ks kt n st' :
  appends source target n →
  resolve (world st) false source = Ok ks →
  find (root (world st)) ks = Some n → plain n = true →
  resolve (world st) false target = Ok kt →
  find (root (world st)) kt = None →
  ¬ ks `prefix_of` kt →
  match hin with
  | Some r => ∀ p, recorded st r p → ¬ below source p
  | None => True
  end →
  copy fuel source target hin st = Some (Ok tt, st') →
  root (world st')
  = put (root (world st)) kt (Some (copied (umask (world st)) (clock (world st)) n))
  ∧ find (root (world st')) kt = Some (copied (umask (world st)) (clock (world st)) n)
  ∧ find (root (world st')) ks = Some n.
Proof.
  intros Happ Hrs Hfs Hplain Hrt Hft Hin Hrec Hcopy.
  assert (root (world st')
          = put (root (world st)) kt
              (Some (copied (umask (world st)) (clock (world st)) n))) as Hroot.
  { destruct hin as [r|].
    - destruct (copy_tree_run fuel source target r st ks kt n st') as [[? _] _];
        [repeat split; assumption | assumption | assumption].
    - rewrite copy_new_object in Hcopy.
      apply (copy_tree_run fuel source target _ _ ks kt n st') in Hcopy
        as [[Hr _] _]; [exact Hr|].
      repeat split; try assumption.
      intros p Hp. exfalso. revert Hp. unfold recorded, object_of. cbn.
      rewrite lookup_insert_eq. cbn. rewrite lookup_empty. discriminate. }
  split; [exact Hroot|]. rewrite Hroot. split.
  - apply find_put_eq; [intros ->; discriminate|].
    unfold resolve in Hrt.
    destruct (walk_new_parent (root (world st)) (link_max (world st))
                (components target) [] 0 kt) as (kp & c0 & m0 & es0 & -> & Hkp); auto.
    + intros E. rewrite E in Hrt. now injection Hrt as <-.
    + eapply find_put_new_is_Some; eauto.
  - rewrite find_put_disjoint; auto.
    intros [q ->]. rewrite find_None_below in Hfs by assumption. discriminate.
Qed.

(** X19: on the model, under the conditions of the copy of a tree and
    with no call failing, [copy] returns without error: its recursion goes
    as deep as the tree and no further. *)
Theorem copy_tree_returns fuel source target hin (st : State World) ks kt n :
  appends source target n →
  plan (world st) = [] → (depth n < fuel)%nat →
  resolve (world st) false source = Ok ks →
  find (root (world st)) ks = Some n → plain n = true →
  resolve (world st) false target = Ok kt →
  find (root (world st)) kt = None →
  ¬ ks `prefix_of` kt →
  match hin with
  | Some r => ∀ p, recorded st r p → ¬ below source p
  | None => True
  end →
  ∃ st', copy fuel source target hin st = Some (Ok tt, st').
Proof.
  intros Happ Hp Hd Hrs Hfs Hplain Hrt Hft Hin Hrec.
  destruct hin as [r|].
  - destruct (copy_tree_ok fuel source target r st ks kt n) as (st' & Hc & _);
      [repeat split; assumption | assumption | assumption | eauto].
  - rewrite copy_new_object.
    edestruct (copy_tree_ok fuel source target) as (st' & Hc & _);
      [| | exact Hd | exists st'; exact Hc]; [|exact Hp].
    repeat split; try eassumption.
    intros p Hp'. exfalso. revert Hp'. unfold recorded, object_of. cbn.
    rewrite lookup_insert_eq. cbn. rewrite lookup_empty. discriminate.
Qed.

End CopyTree.

(** ** The further properties on concrete inputs *)

Section MoreOnLinux.
Local Existing Instance linux.

(** The write to /a/f fails after two characters; the descriptor 3 is
    closed all the same. *)
Lemma write_closes_descriptor_witness :
  let st := sample [None; fails_after 2 EIO] in
  ∃ r st' pre c,
    writeFile "/a/f" "new data" None st = Some (r, st')
    ∧ extends st st' (pre ++ [{| op := OpClose 3; failure := c |}])%list.
Proof.
  intros st.
  destruct (writeFile "/a/f" "new data" None st) as [[r st']|] eqn:E;
    [|vm_compute in E; discriminate].
  edestruct (write_closes_descriptor "/a/f" "new data" None st) as (pre & c & H);
    [reflexivity | vm_compute; reflexivity | left; exact E|].
  exists r, st', pre, c. split; [reflexivity | exact H].
Defined.

(** The write fails with EIO and the close with EBUSY. *)
Lemma write_error_priority_witness :
  let st := sample [None; fails EIO; fails EBUSY] in
  outcome (writeFile "/a/f" "new" None st) = Some (Err EIO)
  ∧ outcome (writeFileSync "/a/f" "new" None st) = Some (Err EBUSY).
Proof.
  intros st.
  edestruct (write_error_priority "/a/f" "new" None st) as [[st1 [H1 _]] [st2 [H2 _]]];
    [reflexivity | vm_compute; reflexivity | vm_compute; reflexivity
    | vm_compute; reflexivity |].
  split; [rewrite H1 | rewrite H2]; reflexivity.
Defined.

(** The flush of the first write fails. *)
Lemma canFlush_only_cleared_witness :
  let st := sample [None; None; fails EIO] in
  ∃ r st', writeFile "/a/f" "new" None st = Some (r, st')
           ∧ canFlush st' = false
           ∧ ∃ evs fd e, extends st st' evs
                         ∧ In {| op := OpFdatasync fd; failure := Some e |} evs.
Proof.
  intros st.
  destruct (writeFile "/a/f" "new" None st) as [[r st']|] eqn:E;
    [|vm_compute in E; discriminate].
  assert (canFlush st' = false) as Hc
    by (vm_compute in E; injection E as <- <-; reflexivity).
  exists r, st'. split; [reflexivity|]. split; [exact Hc|].
  apply (canFlush_only_cleared "/a/f" "new" None st r st' (or_introl E));
    [reflexivity | exact Hc].
Defined.

(** [lstat] fails on the link /a/l: the stats are those of its target, and
    nothing says that the path is a link. *)
Lemma SymlinkSupport_stat_lstat_failed_witness :
  outcome (SymlinkSupport_stat "/a/l" (sample [fails EIO]))
  = Some (Ok {| stat := {| kind := KFile; mode := 420; atime := 0; mtime := 0 |};
                symbolicLink := None |}).
Proof.
  eassert (H : _)
    by (eapply (SymlinkSupport_stat_lstat_failed "/a/l" (sample [fails EIO]));
        vm_compute; reflexivity).
  rewrite H. reflexivity.
Defined.

(** [fs.stat] fails with EACCES on the link /a/l: Windows reads the link,
    Linux throws. *)
Lemma SymlinkSupport_stat_reparse_point_witness :
  let st := sample [None; fails EACCES] in
  outcome (SymlinkSupport_stat (P := windows) "/a/l" st)
  = Some (Ok {| stat := {| kind := KFile; mode := 420; atime := 0; mtime := 0 |};
                symbolicLink := Some false |})
  ∧ outcome (SymlinkSupport_stat (P := linux) "/a/l" st) = Some (Err EACCES).
Proof.
  intros st. split.
  - edestruct (SymlinkSupport_stat_reparse_point (P := windows) "/a/l" st) as [_ H];
      [vm_compute; reflexivity | reflexivity | vm_compute; reflexivity | reflexivity |].
    eassert (Hl : _) by (eapply (H eq_refl); vm_compute; reflexivity).
    cbn beta iota in Hl.
    eassert (Hs : _) by (eapply Hl; vm_compute; reflexivity).
    rewrite Hs. reflexivity.
  - edestruct (SymlinkSupport_stat_reparse_point (P := linux) "/a/l" st) as [H _];
      [vm_compute; reflexivity | reflexivity | vm_compute; reflexivity | reflexivity |].
    rewrite (H eq_refl). reflexivity.
Defined.

(** Of the two entries of /n only [plain] is a directory. *)
Lemma readDirsInDir_sublist_witness :
  ∃ dirs st', readDirsInDir "/n" names_state = Some (Ok dirs, st')
              ∧ sublist dirs [cafe_nfd; "plain"].
Proof.
  destruct (readDirsInDir_sublist "/n" names_state) as [_ H].
  eapply H. vm_compute. reflexivity.
Defined.

(** On macOS the two names of /n come back from [readdir] as one name
    twice; [copy] looks at that path once. *)
Lemma copy_never_repeats_witness :
  let st := twin_names_state in
  ∃ res st', copy (P := macos) 3 "/n" "/t" None st = Some (res, st')
             ∧ lstat_paths (trace st') = ["/n"; "/n/" ++ cafe_nfc]
             ∧ ∃ evs, extends st st' evs ∧ NoDup (lstat_paths evs).
Proof.
  intros st.
  destruct (copy (P := macos) 3 "/n" "/t" None st) as [[res st']|] eqn:E;
    [|vm_compute in E; discriminate].
  exists res, st'. split; [reflexivity|]. split.
  - vm_compute in E. injection E as <- <-. vm_compute. reflexivity.
  - apply (copy_never_repeats (P := macos) 3 "/n" "/t" None st res st' E).
Defined.

(** The set-user-id bit of /s does not reach /t. *)
Lemma copy_modes_masked_witness :
  let st := setuid_state in
  ∃ res st', copy 2 "/s" "/t" None st = Some (res, st')
             ∧ map op (trace st') = [OpLstat "/s"; OpPipe "/s" "/t" 493; OpChmod "/t" 493]
             ∧ ∃ evs, extends st st' evs ∧ modes_masked evs.
Proof.
  intros st.
  destruct (copy 2 "/s" "/t" None st) as [[res st']|] eqn:E;
    [|vm_compute in E; discriminate].
  pose proof (copy_modes_masked 2 "/s" "/t" None st res st' E) as H.
  exists res, st'. split; [reflexivity|]. split; [|exact H].
  vm_compute in E. injection E as <- <-. vm_compute. reflexivity.
Defined.

Lemma copy_records_sources_witness :
  ∃ res st', copy 2 "/a/f" "/tmp/f" (Some 0%nat) (sample []) = Some (res, st')
             ∧ recorded st' 0 "/a/f".
Proof.
  destruct (copy 2 "/a/f" "/tmp/f" (Some 0%nat) (sample [])) as [[res st']|] eqn:E;
    [|vm_compute in E; discriminate].
  exists res, st'. split; [reflexivity|].
  apply (copy_records_sources 2 "/a/f" "/tmp/f" 0 (sample []) res st' E).
Defined.

(** /a/d is a link to a path that does not exist. *)
Lemma copy_skips_dangling_link_witness :
  ∃ st', copy 1 "/a/d" "/tmp/d" None (sample []) = Some (Ok tt, st')
         ∧ root (world st') = sample_tree
         ∧ map op (trace st') = [OpLstat "/a/d"; OpStat "/a/d"].
Proof.
  edestruct (copy_skips_dangling_link 0 "/a/d" "/tmp/d" None (sample []))
    as (st' & Hc & Hw & He);
    [exact I | vm_compute; reflexivity | reflexivity | vm_compute; reflexivity
    | reflexivity |].
  exists st'. split; [exact Hc|]. split.
  - rewrite Hw. reflexivity.
  - unfold extends in He. rewrite He. reflexivity.
Defined.

(** The rename fails with EXDEV and the copy of the fallback with EIO:
    [move] throws EIO, and /a/f is where it was. *)
Lemma move_fallback_no_rollback_witness :
  let st := sample [fails EXDEV; fails EIO; fails EIO] in
  outcome (move 5 "/a/f" "/tmp/f" st) = Some (Err EIO)
  ∧ (λ st', root (world st')) <$> final (move 5 "/a/f" "/tmp/f" st) = Some sample_tree.
Proof.
  intros st.
  edestruct (move_fallback_no_rollback 5 "/a/f" "/tmp/f" st) as (H & _ & _);
    [discriminate | vm_compute; reflexivity | vm_compute; reflexivity |].
  eassert (Hm : _) by (eapply H; vm_compute; reflexivity).
  rewrite Hm. split; reflexivity.
Defined.

(** On a path that does not exist and on the directory /a. *)
Lemma updateMtime_quiet_witness :
  outcome (updateMtime "/a/none" (sample [])) = Some (Ok tt)
  ∧ (λ st', map op (trace st')) <$> final (updateMtime "/a" (sample []))
    = Some [OpLstat "/a"].
Proof.
  split.
  - eassert (H : _)
      by (eapply (updateMtime_quiet "/a/none" (sample [])); vm_compute; reflexivity).
    cbv zeta beta iota in H. rewrite H. reflexivity.
  - eassert (H : _)
      by (eapply (updateMtime_quiet "/a" (sample [])); vm_compute; reflexivity).
    cbv zeta beta iota in H. cbn in H. rewrite H. reflexivity.
Defined.

(** The write of [new data] fails after two characters; in the last run
    only the close fails, and the file holds all of the data. *)
Lemma writeFileSync_content_witness :
  let st := sample [None; fails_after 2 EIO] in
  let st2 := sample [None; None; None; fails EBUSY] in
  (∃ st', writeFileSync "/a/f" "new data" None (sample []) = Some (Ok tt, st')
          ∧ read_data "/a/f" (world st') = Ok "new data")
  ∧ (∃ e st', writeFileSync "/a/f" "new data" None st = Some (Err e, st')
              ∧ (read_data "/a/f" (world st') = read_data "/a/f" (world st)
                 ∨ ∃ n, read_data "/a/f" (world st')
                        = Ok (String.substring 0 n "new data")))
  ∧ (∃ st', writeFileSync "/a/f" "new data" None st2 = Some (Err EBUSY, st')
            ∧ read_data "/a/f" (world st') = Ok "new data").
Proof.
  intros st st2. split; [|split].
  - eexists. split; [vm_compute; reflexivity|].
    apply (writeFileSync_content "/a/f" "new data" None (sample []) (Ok tt));
      [reflexivity | reflexivity | vm_compute; reflexivity].
  - exists EIO. eexists. split; [vm_compute; reflexivity|].
    apply (writeFileSync_content "/a/f" "new data" None st (Err EIO));
      [reflexivity | reflexivity | vm_compute; reflexivity].
  - eexists. split; [vm_compute; reflexivity|].
    edestruct (writeFileSync_content "/a/f" "new data" None st2 (Err EBUSY))
      as (_ & evs & Hext & Hall);
      [reflexivity | reflexivity | vm_compute; reflexivity |].
    apply Hall. exists 3%nat. unfold extends in Hext. cbn in Hext. rewrite <- Hext.
    right. now left.
Defined.

(** The copy of /s, of mode 0o4755, to /t. *)
Lemma copy_file_content_witness :
  ∃ st', copy 1 "/s" "/t" None setuid_state = Some (Ok tt, st')
         ∧ read_data "/t" (world st') = Ok "x"
         ∧ (∃ dur a t, find (root (world st')) ["t"] = Some (NFile "x" dur 493 a t))
         ∧ find (root (world st')) ["s"] = Some (NFile "x" "x" 2541 0 0).
Proof.
  destruct (copy 1 "/s" "/t" None setuid_state) as [[[[]|e] st']|] eqn:E;
    [|vm_compute in E; discriminate..].
  exists st'. split; [reflexivity|].
  apply (copy_file_content 0 "/s" "/t" None setuid_state ["s"] ["t"] "x" "x" 2541 0 0 st');
    [reflexivity | reflexivity | reflexivity | reflexivity | discriminate | exact I
    | exact E].
Defined.

(** The copy of /a to /tmp/b, with the [join] that normalizes: the
    directory d of mode 0o777 is made with mode 0o755, the file g of mode
    0o4755 gets mode 0o755. *)
Lemma copy_tree_content_witness :
  ∃ st', copy (P := linux_node) 3 "/a" "/tmp/b" None plain_state = Some (Ok tt, st')
         ∧ find (root (world st')) ["tmp"; "b"]
           = Some (NDir 493 [("f", NFile "hello" "" 420 1000 1000);
                             ("d", NDir 493 [("g", NFile "x" "" 493 1000 1000)])])
         ∧ find (root (world st')) ["a"] = find (root (world plain_state)) ["a"].
Proof.
  destruct (copy (P := linux_node) 3 "/a" "/tmp/b" None plain_state)
    as [[[[]|e] st']|] eqn:E; [|vm_compute in E; discriminate..].
  exists st'. split; [reflexivity|].
  destruct (copy_tree_content (P := linux_node) eq_refl
              3 "/a" "/tmp/b" None plain_state ["a"] ["tmp"; "b"]
              (NDir 2029 [("f", NFile "hello" "hello" 420 0 0);
                          ("d", NDir 511 [("g", NFile "x" "" 2541 5 6)])]) st')
    as (_ & Ht & Hs);
    [vm_compute; repeat split | reflexivity | reflexivity | vm_compute; reflexivity
    | reflexivity | reflexivity | intros [q Hq]; discriminate | exact I | exact E |].
  split; [exact Ht | exact Hs].
Defined.

Lemma copy_tree_returns_witness :
  ∃ st', copy (P := linux_node) 3 "/a" "/tmp/b" None plain_state = Some (Ok tt, st').
Proof.
  apply (copy_tree_returns (P := linux_node) eq_refl
           3 "/a" "/tmp/b" None plain_state ["a"] ["tmp"; "b"]
           (NDir 2029 [("f", NFile "hello" "hello" 420 0 0);
                       ("d", NDir 511 [("g", NFile "x" "" 2541 5 6)])]));
    [vm_compute; repeat split | reflexivity | vm_compute; lia | reflexivity | reflexivity
    | vm_compute; reflexivity | reflexivity | reflexivity
    | intros [q Hq]; discriminate | exact I].
Defined.

End MoreOnLinux.

(** ** The write queues *)

Import WriteQueue.

Section QueueFacts.
Context `{P : Platform}.

Lemma with_key_app k l1 l2 :
  with_key k (l1 ++ l2)%list = (with_key k l1 ++ with_key k l2)%list.
Proof. apply List.filter_app. Qed.

Lemma with_key_one k t :
  with_key k [t] = if String.eqb (task_key t) k then [t] else [].
Proof. reflexivity. Qed.

Lemma with_key_In k t l : In t (with_key k l) ↔ In t l ∧ task_key t = k.
Proof.
  unfold with_key. rewrite List.filter_In. now rewrite String.eqb_eq.
Qed.

Lemma filter_swap {A} (f g : A → bool) l :
  List.filter f (List.filter g l) = List.filter g (List.filter f l).
Proof.
  induction l as [|x l IH]; [reflexivity|]. cbn.
  destruct (f x) eqn:Ef, (g x) eqn:Eg; cbn; rewrite ?Ef, ?Eg, IH; reflexivity.
Qed.

Lemma filter_all {A} (f : A → bool) l :
  (∀ x, In x l → f x = true) → List.filter f l = l.
Proof.
  induction l as [|x l IH]; intros H; [reflexivity|]. cbn.
  rewrite (H x) by now left. f_equal. apply IH. intros y Hy. apply H. now right.
Qed.

(** Identifiers name the submitted tasks. *)
Lemma ids_injective s t u :
  map task_id (submitted s) = seq 0 (List.length (submitted s)) →
  In t (submitted s) → In u (submitted s) → task_id t = task_id u → t = u.
Proof.
  intros Hids Ht Hu Heq.
  assert (List.NoDup (map task_id (submitted s))) as Hnd
    by (rewrite Hids; apply List.seq_NoDup).
  revert Ht Hu Hnd. generalize (submitted s) as l.
  induction l as [|x l IH]; cbn; [tauto|].
  intros [<-|Ht] [<-|Hu] Hnd; inversion Hnd as [|? ? Hx Hl]; subst; auto;
    exfalso; apply Hx;
    first [rewrite Heq; now apply List.in_map | rewrite <- Heq; now apply List.in_map].
Qed.

Lemma id_fresh s t :
  map task_id (submitted s) = seq 0 (List.length (submitted s)) →
  In t (submitted s) → (task_id t < List.length (submitted s))%nat.
Proof.
  intros Hids Ht. apply (List.in_map task_id) in Ht. rewrite Hids in Ht.
  apply List.in_seq in Ht. lia.
Qed.

Lemma q_inv_initial : q_inv q_initial.
Proof.
  split; cbn; auto using List.NoDup_nil; try tauto;
    intros k; unfold pending, registered; cbn; now rewrite ?lookup_empty.
Qed.

Lemma queue_busy t q :
  runningPromises q = 1%nat →
  queue t q = ({| runningPromises := 1;
                  outstandingPromises := outstandingPromises q ++ [t] |}, None).
Proof.
  intros Hr. unfold queue, consume. cbn. rewrite Hr.
  destruct (outstandingPromises q ++ [t])%list; reflexivity.
Qed.

Lemma consumed_next q u rest :
  runningPromises q = 1%nat → outstandingPromises q = u :: rest →
  consumed q = ({| runningPromises := 1; outstandingPromises := rest |}, Some u, false).
Proof.
  intros Hr Ho. unfold consumed, consume. cbn. rewrite Hr, Ho. reflexivity.
Qed.

Lemma consumed_last q :
  runningPromises q = 1%nat → outstandingPromises q = [] →
  consumed q = ({| runningPromises := 0; outstandingPromises := [] |}, None, true).
Proof.
  intros Hr Ho. unfold consumed. cbn. rewrite Hr, Ho. reflexivity.
Qed.

(** A queue is registered under one key: its listener names it. *)
Lemma registered_once s k1 k2 ref :
  q_inv s →
  writeFilePathQueues s !! k1 = Some ref → writeFilePathQueues s !! k2 = Some ref →
  k1 = k2.
Proof.
  intros Hs H1 H2.
  pose proof (inv_running s Hs k1) as R1. pose proof (inv_running s Hs k2) as R2.
  rewrite H1 in R1. rewrite H2 in R2.
  destruct R1 as (q1 & _ & L1 & _), R2 as (q2 & _ & L2 & _). congruence.
Qed.

(** A task that waits was submitted. *)
Lemma pending_submitted s k u :
  q_inv s → In u (pending s k) → In u (submitted s) ∧ task_key u = k.
Proof.
  intros Hs Hu. apply with_key_In. rewrite (inv_order s Hs k).
  apply List.in_or_app. now right.
Qed.

Lemma pending_at s k ref q :
  writeFilePathQueues s !! k = Some ref → objects s !! ref = Some q →
  pending s k = outstandingPromises q.
Proof. intros Hk Hq. unfold pending, registered. rewrite Hk. cbn. now rewrite Hq. Qed.

Lemma pending_none s k : writeFilePathQueues s !! k = None → pending s k = [].
Proof. intros Hk. unfold pending, registered. now rewrite Hk. Qed.

Lemma q_inv_writeFile path data s : q_inv s → q_inv (writeFile path data s).
Proof.
  intros Hs. pose proof Hs as [Hids Hnd Hact Hsta Hord Hown Hrun].
  set (t := {| task_id := List.length (submitted s); task_path := path;
               task_data := data |}).
  set (k := toQueueKey path).
  assert (task_key t = k) as Hkey by reflexivity.
  assert (∀ u, In u (submitted s) → task_id t ≠ task_id u) as Hold.
  { intros u Hu E. apply (id_fresh s u Hids) in Hu. cbn in E. lia. }
  assert (¬ In t (submitted s)) as Hfresh by (intros Hin; now apply (Hold t Hin)).
  assert (map task_id (submitted s ++ [t])
          = seq 0 (List.length (submitted s ++ [t]))) as Hids'.
  { rewrite List.map_app, List.length_app, List.seq_app, Hids. reflexivity. }
  assert (∀ k', with_key k' [t] = if String.eqb k k' then [t] else []) as Hone
    by (intros k'; rewrite with_key_one, Hkey; reflexivity).
  pose proof (Hrun k) as Hk.
  unfold writeFile, ensureWriteFileQueue. fold t k.
  destruct (writeFilePathQueues s !! k) as [ref|] eqn:Ek.
  - destruct Hk as (q & Hq & Hl & Hr1 & [t0 Ht0] & Hqown).
    rewrite Hq, (queue_busy t q Hr1).
    split;
      cbn [objects writeFilePathQueues listeners queue_of submitted started active
           option_list];
      rewrite ?app_nil_r; try assumption.
    + intros u Hu. apply List.in_or_app. left. now apply Hact.
    + intros k'. rewrite with_key_app, Hone, Hord.
      destruct (String.eqb_spec k k') as [<-|Hne].
      * rewrite (pending_at s k ref q Ek Hq).
        unfold pending, registered. cbn. rewrite Ek. cbn. rewrite lookup_insert_eq.
        cbn. now rewrite app_assoc.
      * rewrite app_nil_r. unfold pending, registered. cbn.
        destruct (writeFilePathQueues s !! k') as [ref'|] eqn:Ek'; [|reflexivity].
        cbn. rewrite lookup_insert_ne; [reflexivity|].
        intros ->. apply Hne. now apply (registered_once s k k' ref').
    + intros u Hu. destruct (Hown u Hu) as [Hsome He]. split; [exact Hsome|].
      rewrite lookup_insert_ne; [exact He | apply Hold; now apply Hact].
    + intros k'. pose proof (Hrun k') as Hk'.
      destruct (writeFilePathQueues s !! k') as [ref'|] eqn:Ek'; [|exact Hk'].
      destruct (decide (k = k')) as [<-|Hne].
      * assert (ref' = ref) as -> by congruence.
        eexists. rewrite lookup_insert_eq. split; [reflexivity|].
        split; [exact Hl|]. split; [reflexivity|]. split; [eauto|].
        cbn. intros u Hu. apply List.in_app_or in Hu as [Hu|[<-|[]]].
        -- rewrite lookup_insert_ne; [now apply Hqown|].
           apply Hold. apply (pending_submitted s k u Hs).
           now rewrite (pending_at s k ref q Ek Hq).
        -- apply lookup_insert_eq.
      * destruct Hk' as (q' & Hq' & Hl' & Hr' & Ht' & Hown').
        assert (ref ≠ ref') as Hrne
          by (intros ->; apply Hne; now apply (registered_once s k k' ref')).
        exists q'. rewrite lookup_insert_ne by assumption.
        repeat (split; [assumption|]).
        intros u Hu. rewrite lookup_insert_ne; [now apply Hown'|].
        apply Hold. apply (pending_submitted s k' u Hs).
        now rewrite (pending_at s k' ref' q' Ek' Hq').
  - set (ref := fresh (dom (objects s))).
    assert (objects s !! ref = None) as Hnew
      by (apply not_elem_of_dom, is_fresh).
    assert (∀ k' ref', writeFilePathQueues s !! k' = Some ref' → ref ≠ ref') as Hrne.
    { intros k' ref' Ek' ->. pose proof (Hrun k') as Hk'. rewrite Ek' in Hk'.
      destruct Hk' as (q' & Hq' & _). congruence. }
    cbn [objects]. rewrite lookup_insert_eq.
    cbn [queue consume new_Queue outstandingPromises runningPromises app Nat.ltb
           Nat.leb]. cbn [option_list].
    split;
      cbn [objects writeFilePathQueues listeners queue_of submitted started active];
      try assumption.
    + apply List.NoDup_app; [assumption | repeat constructor; intros [] |].
      intros u Hu [<-|[]]. apply Hfresh. now apply Hact.
    + intros u Hu. apply List.in_app_or in Hu as [Hu|Hu]; apply List.in_or_app;
        [left; now apply Hact | now right].
    + intros u Hu. apply List.in_app_or in Hu as [Hu|Hu]; apply List.in_or_app;
        [left; now apply Hsta | now right].
    + intros k'. rewrite !with_key_app, !Hone, Hord.
      unfold pending, registered. cbn.
      destruct (String.eqb_spec k k') as [<-|Hne].
      * rewrite lookup_insert_eq, Ek. cbn. rewrite lookup_insert_eq. cbn.
        now rewrite !app_nil_r.
      * rewrite !lookup_insert_ne by assumption. rewrite !app_nil_r.
        destruct (writeFilePathQueues s !! k') as [ref'|] eqn:Ek'; [|reflexivity].
        cbn. rewrite !lookup_insert_ne by (now apply (Hrne k')). reflexivity.
    + intros u Hu. apply List.in_app_or in Hu as [Hu|[<-|[]]].
      * destruct (Hown u Hu) as [Hsome He].
        assert (k ≠ task_key u) as Hne by (intros E; rewrite <- E, Ek in Hsome;
                                           now destruct Hsome).
        assert (task_id t ≠ task_id u) as Hid by (apply Hold; now apply Hact).
        rewrite (lookup_insert_ne _ k) by assumption.
        rewrite lookup_insert_ne by assumption. auto.
      * rewrite Hkey, !lookup_insert_eq. eauto.
    + intros k'. rewrite with_key_app, Hone.
      destruct (String.eqb_spec k k') as [<-|Hne].
      * rewrite lookup_insert_eq. eexists. rewrite lookup_insert_eq.
        split; [reflexivity|]. rewrite lookup_insert_eq. split; [reflexivity|].
        split; [reflexivity|]. rewrite Hk. cbn. split; [eauto|]. intros u [].
      * rewrite lookup_insert_ne by assumption. rewrite app_nil_r.
        pose proof (Hrun k') as Hk'.
        destruct (writeFilePathQueues s !! k') as [ref'|] eqn:Ek'; [|exact Hk'].
        destruct Hk' as (q' & Hq' & Hl' & Hr' & Ht' & Hown').
        pose proof (Hrne k' ref' Ek') as Hr.
        exists q'. rewrite !lookup_insert_ne by assumption.
        repeat (split; [assumption|]).
        intros u Hu. rewrite lookup_insert_ne; [now apply Hown'|].
        apply Hold. apply (pending_submitted s k' u Hs).
        now rewrite (pending_at s k' ref' q' Ek' Hq').
Qed.

Lemma q_inv_settle id s : q_inv s → q_inv (settle id s).
Proof.
  intros Hs. pose proof Hs as [Hids Hnd Hact Hsta Hord Hown Hrun]. unfold settle.
  destruct (List.find (is_task id) (active s)) as [t|] eqn:Efind; [|exact Hs].
  apply List.find_some in Efind as [Hin Hid].
  assert (task_id t = id) as Htid by (now apply Nat.eqb_eq).
  set (k := task_key t).
  destruct (Hown t Hin) as [[ref Ek] Hof]. fold k in Ek, Hof.
  rewrite Htid, Ek in Hof. rewrite Hof.
  pose proof (Hrun k) as Hk. rewrite Ek in Hk.
  destruct Hk as (q & Hq & Hl & Hr1 & [t0 Ht0] & Hqown). rewrite Hq.
  pose proof (pending_at s k ref q Ek Hq) as Hpk.
  assert (∀ k' ref', k ≠ k' → writeFilePathQueues s !! k' = Some ref' → ref ≠ ref')
    as Hrne.
  { intros k' ref' Hne Ek' ->. apply Hne. now apply (registered_once s k k' ref'). }
  set (rest_active := List.filter (λ u, negb (is_task id u)) (active s)).
  assert (∀ u, In u (active s) → is_task id u = true → u = t) as Hsame.
  { intros u Hu Hidu. apply (ids_injective s); auto.
    unfold is_task in *. apply Nat.eqb_eq in Hid, Hidu. congruence. }
  assert (with_key k rest_active = []) as Hgone.
  { unfold rest_active, with_key. rewrite filter_swap. fold (with_key k (active s)).
    rewrite Ht0.
    assert (In t (with_key k (active s))) as Ht by (apply with_key_In; auto).
    rewrite Ht0 in Ht. destruct Ht as [->|[]]. cbn. now rewrite Hid. }
  assert (∀ k', k ≠ k' → with_key k' rest_active = with_key k' (active s)) as Hkeep.
  { intros k' Hne. unfold rest_active, with_key. rewrite filter_swap.
    apply filter_all. intros x Hx. apply with_key_In in Hx as [Hx Hkx].
    destruct (is_task id x) eqn:Ex; [|reflexivity].
    apply Hsame in Ex; [|assumption]. subst x. contradiction. }
  assert (List.NoDup rest_active) as Hnd' by (apply List.NoDup_filter, Hnd).
  assert (∀ u, In u rest_active → In u (active s)) as Hsub
    by (intros u Hu; now apply List.filter_In in Hu as [Hu _]).
  assert (∀ u, In u rest_active → task_key u ≠ k) as Hother.
  { intros u Hu E.
    assert (In u (with_key k rest_active)) as Hbad by (apply with_key_In; auto).
    now rewrite Hgone in Hbad. }
  assert (∀ qnew k',
            k ≠ k' →
            match writeFilePathQueues s !! k' with
            | Some ref' =>
                ∃ q', <[ref := qnew]> (objects s) !! ref' = Some q'
                      ∧ listeners s !! ref' = Some k'
                      ∧ runningPromises q' = 1%nat
                      ∧ (∃ t, with_key k' rest_active = [t])
                      ∧ ∀ u, In u (outstandingPromises q') →
                             queue_of s !! task_id u = Some ref'
            | None => with_key k' rest_active = []
            end) as Hothers.
  { intros qnew k' Hne. pose proof (Hrun k') as Hk'. rewrite (Hkeep k' Hne).
    destruct (writeFilePathQueues s !! k') as [ref'|] eqn:Ek'; [|exact Hk'].
    destruct Hk' as (q' & Hq' & Hrest). exists q'.
    rewrite lookup_insert_ne by (now apply (Hrne k')). auto. }
  assert (∀ qnew k',
            k ≠ k' →
            from_option outstandingPromises []
              (writeFilePathQueues s !! k' ≫= λ r, <[ref := qnew]> (objects s) !! r)
            = pending s k') as Hpend.
  { intros qnew k' Hne. unfold pending, registered.
    destruct (writeFilePathQueues s !! k') as [ref'|] eqn:Ek'; [|reflexivity].
    cbn. now rewrite lookup_insert_ne by (now apply (Hrne k')). }
  fold rest_active.
  destruct (outstandingPromises q) as [|u rest] eqn:Eo.
  - rewrite (consumed_last q Hr1 Eo). unfold onFinish. cbn [listeners]. rewrite Hl.
    split;
      cbn [objects writeFilePathQueues listeners queue_of submitted started active
           option_list];
      rewrite ?app_nil_r; try assumption.
    + auto.
    + auto.
    + intros k'. rewrite Hord. unfold pending at 2. unfold registered. cbn.
      destruct (decide (k = k')) as [<-|Hne].
      * rewrite lookup_delete_eq, Hpk. reflexivity.
      * rewrite lookup_delete_ne by assumption. now rewrite Hpend.
    + intros x Hx. pose proof (Hother x Hx) as Hkx.
      destruct (Hown x (Hsub x Hx)) as [Hsome He].
      rewrite lookup_delete_ne by congruence. auto.
    + intros k'. destruct (decide (k = k')) as [<-|Hne].
      * now rewrite lookup_delete_eq.
      * rewrite lookup_delete_ne by assumption.
        pose proof (Hothers {| runningPromises := 0; outstandingPromises := [] |} k' Hne)
          as Hk'.
        destruct (writeFilePathQueues s !! k') as [ref'|] eqn:Ek'; [|exact Hk'].
        destruct Hk' as (q' & Hq' & Hl' & Hrest). exists q'.
        rewrite lookup_delete_ne by (now apply (Hrne k')). auto.
  - rewrite (consumed_next q u rest Hr1 Eo).
    assert (In u (submitted s) ∧ task_key u = k) as [Hu Hku].
    { apply (pending_submitted s k u Hs). rewrite Hpk. now left. }
    assert (∀ k', with_key k' [u] = if String.eqb k k' then [u] else []) as Hone
      by (intros k'; rewrite with_key_one, Hku; reflexivity).
    split;
      cbn [objects writeFilePathQueues listeners queue_of submitted started active
           option_list];
      try assumption.
    + apply List.NoDup_app; [assumption | repeat constructor; intros [] |].
      intros x Hx [E|[]]. subst x. now apply (Hother u Hx).
    + intros x Hx. apply List.in_app_or in Hx as [Hx|[<-|[]]]; auto.
    + intros x Hx. apply List.in_app_or in Hx as [Hx|Hx]; apply List.in_or_app;
        [left; auto | now right].
    + intros k'. rewrite with_key_app, Hone, Hord. unfold pending at 2.
      unfold registered. cbn.
      destruct (String.eqb_spec k k') as [<-|Hne].
      * rewrite Ek. cbn. rewrite lookup_insert_eq. cbn. rewrite Hpk.
        now rewrite <- app_assoc.
      * rewrite Hpend by assumption. now rewrite app_nil_r.
    + intros x Hx. apply List.in_app_or in Hx as [Hx|[<-|[]]]; [auto|].
      rewrite Hku, Ek. split; [eauto|]. apply Hqown. now left.
    + intros k'. destruct (decide (k = k')) as [<-|Hne].
      * rewrite Ek. eexists. rewrite lookup_insert_eq. split; [reflexivity|].
        split; [exact Hl|]. split; [reflexivity|].
        rewrite with_key_app, Hone, Hgone, String.eqb_refl. split; [eauto|].
        cbn. intros x Hx. apply Hqown. now right.
      * pose proof (Hothers {| runningPromises := 1; outstandingPromises := rest |}
                      k' Hne) as Hk'.
        rewrite with_key_app, Hone.
        destruct (String.eqb_spec k k') as [?|_]; [contradiction|].
        rewrite app_nil_r. exact Hk'.
Qed.

Lemma q_inv_fold events : ∀ s, q_inv s → q_inv (fold_left q_step events s).
Proof.
  induction events as [|e events IH]; intros s Hs; [exact Hs|].
  cbn. apply IH. destruct e; [apply q_inv_writeFile | apply q_inv_settle]; exact Hs.
Qed.

Lemma q_inv_run events : q_inv (q_run events).
Proof. apply q_inv_fold, q_inv_initial. Qed.


End QueueFacts.


(** ** The write queues: what is kept and what is released *)

Section QueueMore.
Context `{P : Platform}.

Lemma NoDup_by_key (l : list Task) :
  (∀ k, List.NoDup (with_key k l)) → List.NoDup l.
Proof.
  induction l as [|x l IH]; intros Hk; [constructor|].
  constructor.
  - intros Hin. specialize (Hk (task_key x)).
    unfold with_key in Hk. cbn in Hk. rewrite String.eqb_refl in Hk.
    inversion Hk as [|? ? Hx _]; subst. apply Hx.
    apply List.filter_In. split; [exact Hin | apply String.eqb_refl].
  - apply IH. intros k. specialize (Hk k). unfold with_key in *. cbn in Hk.
    destruct (String.eqb (task_key x) k); [|exact Hk].
    now inversion Hk.
Qed.


(** X21: no task is started twice, and no task is started that was not
    submitted: the list of the started tasks has no duplicate and is part of
    the list of the submitted ones. *)
Theorem write_tasks_started_once events :
  let s := q_run events in
  List.NoDup (started s) ∧ ∀ t, In t (started s) → In t (submitted s).
Proof.
  intros s. destruct (q_inv_run events) as [Hids Hnd Hact Hsta Hord Hown Hrun].
  fold s in Hids, Hnd, Hact, Hsta, Hord, Hown, Hrun.
  assert (List.NoDup (submitted s)) as Hsub
    by (apply (List.NoDup_map_inv task_id); rewrite Hids; apply List.seq_NoDup).
  split.
  - apply NoDup_by_key. intros k.
    assert (List.NoDup (with_key k (submitted s))) as Hk
      by (apply List.NoDup_filter, Hsub).
    rewrite Hord in Hk. now apply List.NoDup_app_remove_r in Hk.
  - intros t Ht.
    assert (In t (with_key (task_key t) (submitted s))) as Hin.
    { rewrite Hord. apply List.in_or_app. left.
      apply with_key_In. split; [exact Ht | reflexivity]. }
    now apply with_key_In in Hin as [Hin _].
Qed.

End QueueMore.
